(** * PointfootController: the fixed-rate control loop of
    [pointfoot_controller_mlp_history.py]

    A shallow embedding of the controller class: the STAND/WALK state machine,
    the joint remapping, the observation history queues, the action safety
    clamp and the command structure that is published on every tick.

    Numbers are exact rationals ([Q]): Python floats and numpy float64 and
    float32 values are read as the rationals they denote, so rounding,
    infinities and NaN are outside the model; what holds of it holds of the
    code in exact arithmetic.  Where rounding decides a property, the loop
    body in question is given a second time in IEEE 754 arithmetic, in the
    module [Ieee].  Python lists and numpy arrays
    are lists indexed by [nat]; an access out of range raises [IndexError] as
    in Python.  The callbacks of the transport layer are taken to run between
    two loop ticks. *)

From Stdlib Require Import ZArith QArith Qround Qabs Lqa Psatz Lia.
From Stdlib Require Import Floats.SpecFloat.
From stdpp Require Import base option list strings gmap relations.

(** ** Exceptions and results *)

(** The Python exceptions the controller can run into.  [NonFinite] stands for
    a numpy division by zero, which yields inf or nan instead of raising:
    such a value has no rational counterpart and ends the modelled run. *)
Inductive exn : Set :=
| IndexError
| KeyError
| ZeroDivisionError
| ValueError
| InferenceError
| NonFinite.

Inductive result (A : Type) : Type :=
| Ok (a : A)
| Raise (e : exn).
Arguments Ok {A} a.
Arguments Raise {A} e.

#[global] Instance result_ret : MRet result := λ A a, Ok a.
#[global] Instance result_bind : MBind result := λ A B k r,
  match r with
  | Ok a => k a
  | Raise e => Raise e
  end.

(** ** Python and numpy primitives *)

(** [l[i]] *)
Definition getitem {A} (l : list A) (i : nat) : result A :=
  match l !! i with
  | Some x => Ok x
  | None => Raise IndexError
  end.

(** [l[i] = x] on a list or a numpy array *)
Definition setitem {A} (l : list A) (i : nat) (x : A) : result (list A) :=
  if decide (i < length l) then Ok (<[i:=x]> l) else Raise IndexError.

(** [d[k]] on a dict *)
Definition dict_get (d : gmap string Q) (k : string) : result Q :=
  match d !! k with
  | Some x => Ok x
  | None => Raise KeyError
  end.

(** [x / y] between Python numbers *)
Definition py_div (x y : Q) : result Q :=
  if Qeq_bool y 0 then Raise ZeroDivisionError else Ok (x / y)%Q.

(** [x / y] where x is a numpy float64: a zero divisor gives inf or nan *)
Definition np_div (x y : Q) : result Q :=
  if Qeq_bool y 0 then Raise NonFinite else Ok (x / y)%Q.

(** [a % b] on Python ints: the sign follows the divisor, as [Z.modulo] *)
Definition py_mod (a b : Z) : result Z :=
  if decide (b = 0%Z) then Raise ZeroDivisionError else Ok (a mod b)%Z.

(** Python's [max(x, y)]: [y] only if [y > x] *)
Definition py_max (x y : Q) : Q := if Qle_bool y x then x else y.

(** Python's [min(x, y)]: [y] only if [y < x] *)
Definition py_min (x y : Q) : Q := if Qle_bool x y then x else y.

(** [np.clip(v, lo, hi)] is [minimum(maximum(v, lo), hi)] on every element *)
Definition clip1 (lo hi v : Q) : Q :=
  let m := if Qle_bool lo v then v else lo in
  if Qle_bool m hi then m else hi.

Definition np_clip (v : list Q) (lo hi : Q) : list Q := map (clip1 lo hi) v.

(** Element-wise binary operation on 1-d arrays with numpy's broadcasting:
    equal lengths, or one side of length one *)
Definition np_broadcast (f : Q → Q → Q) (x y : list Q) : result (list Q) :=
  if decide (length x = length y) then Ok (zip_with f x y)
  else match x, y with
       | [a], _ => Ok (map (f a) y)
       | _, [b] => Ok (map (λ a, f a b) x)
       | _, _ => Raise ValueError
       end.

(** [v * s] for an array and a scalar *)
Definition np_scale (v : list Q) (s : Q) : list Q := map (λ x, x * s)%Q v.

(** [np.diag([a; b; c])] *)
Definition np_diag (d : list Q) : list (list Q) :=
  imap (λ i x, <[i:=x]> (replicate (length d) 0%Q)) d.

Definition dot1 (row v : list Q) : Q :=
  foldr Qplus 0%Q (zip_with Qmult row v).

(** [np.dot(m, v)] for a matrix and a vector *)
Definition np_dot (m : list (list Q)) (v : list Q) : result (list Q) :=
  if forallb (λ row, Nat.eqb (length row) (length v)) m
  then Ok (map (λ row, dot1 row v) m)
  else Raise ValueError.

(** [np.array(rows).flatten()] for a deque of 1-d arrays: the rows must have
    one length *)
Definition np_flatten (rows : list (list Q)) : result (list Q) :=
  match rows with
  | [] => Ok []
  | r :: _ =>
      if forallb (λ r', Nat.eqb (length r') (length r)) rows
      then Ok (concat rows)
      else Raise ValueError
  end.

(** [collections.deque(maxlen=n).append(x)]: append on the right, then drop
    the leftmost entry when the length exceeds [maxlen] *)
Definition deque_append {A} (maxlen : nat) (d : list A) (x : A) : list A :=
  let d' := d ++ [x] in
  if decide (maxlen < length d') then drop 1 d' else d'.

(** ** Data types of limxsdk used by the controller *)

Module RobotCmd.
Record t : Type := mk
  { mode : list Q; q : list Q; dq : list Q; tau : list Q;
    Kp : list Q; Kd : list Q }.
Definition set_q (l : list Q) (c : t) : t :=
  mk (mode c) l (dq c) (tau c) (Kp c) (Kd c).
End RobotCmd.

Module RobotState.
Record t : Type := mk { q : list Q; dq : list Q; tau : list Q }.
End RobotState.

Module ImuData.
Record t : Type := mk
  { stamp : Z; acc : list Q; gyro : list Q; quat : list Q }.
End ImuData.

(** The joystick message: only [axes] is read *)
Module SensorJoy.
Record t : Type := mk { axes : list Q }.
End SensorJoy.

(** ** Configuration ([params_lab_mlp.yaml], as read by [load_config]) *)

Record Config : Type := mkConfig
  { joint_names : list string;
    default_joint_angle : gmap string Q;   (* init_state *)
    stand_duration : Q;
    stiffness : Q;                         (* control *)
    damping : Q;
    decimation : Z;
    action_scale_pos : Q;
    user_torque_limit : Q;
    ang_vel : Q;                           (* normalization.obs_scales *)
    dof_pos : Q;
    dof_vel : Q;
    clip_actions : Q;                      (* normalization.clip_scales *)
    clip_observations : Q;
    actions_size : nat;                    (* size *)
    observations_history_length : nat;
    latent_size : nat;
    observations_size : nat;
    imu_orientation_offset : list Q;
    lin_vel_x : Q;                         (* user_cmd_scales *)
    lin_vel_y : Q;
    ang_vel_yaw : Q;
    loop_frequency : Q }.

(** The libraries behind the controller that are not modelled: the two ONNX
    sessions, scipy's rotations and torch's sine and cosine. *)
Record Extern : Type := mkExtern
  { policy_run : list Q → result (list Q);
    encoder_run : list Q → result (list Q);
    (* R.from_euler('zyx', R.from_quat(quat).as_euler('zyx')).inv().as_matrix() *)
    quat_inverse_matrix : list Q → result (list (list Q));
    (* R.from_euler('zyx', angles).as_matrix() *)
    euler_zyx_matrix : list Q → result (list (list Q));
    (* torch.sin(2 * torch.pi * x), torch.cos(2 * torch.pi * x) *)
    sin_2pi : Q → Q;
    cos_2pi : Q → Q }.

(** ** The controller object *)

Inductive Mode : Set := STAND | WALK.

(** The eight observation history deques, each with
    [maxlen = history_length] *)
Record History : Type := mkHistory
  { base_ang_vel_queue : list (list Q);
    projected_gravity_queue : list (list Q);
    joint_positions_queue : list (list Q);
    joint_velocities_queue : list (list Q);
    actions_queue : list (list Q);
    scaled_commands_queue : list (list Q);
    gait_phase_queue : list (list Q);
    gait_command_queue : list (list Q) }.

(** The attributes of [PointfootController] that change during a run, and
    the arrays derived from the configuration by [load_config] and [run].
    The attributes that are written once and never read ([scaled_commands],
    [base_lin_vel], [base_position], [gait_phase]) are left out. *)
Record Controller : Type := mkController
  { robot_cmd : RobotCmd.t;
    robot_state : RobotState.t;
    robot_state_tmp : RobotState.t;
    imu_data : ImuData.t;
    imu_data_tmp : ImuData.t;
    gait_command : list Q;
    history : History;
    actions : list Q;
    observations : list Q;
    last_actions : list Q;
    commands : list Q;
    loop_count : Z;
    stand_percent : Q;
    init_joint_angles : list Q;
    default_joint_angles : list Q;
    mode : Mode }.

Definition set_robot_cmd (x : RobotCmd.t) (c : Controller) : Controller :=
  mkController x (robot_state c) (robot_state_tmp c) (imu_data c)
    (imu_data_tmp c) (gait_command c) (history c) (actions c)
    (observations c) (last_actions c) (commands c) (loop_count c)
    (stand_percent c) (init_joint_angles c) (default_joint_angles c) (mode c).

Definition set_robot_state (x : RobotState.t) (c : Controller) : Controller :=
  mkController (robot_cmd c) x (robot_state_tmp c) (imu_data c)
    (imu_data_tmp c) (gait_command c) (history c) (actions c)
    (observations c) (last_actions c) (commands c) (loop_count c)
    (stand_percent c) (init_joint_angles c) (default_joint_angles c) (mode c).

Definition set_robot_state_tmp (x : RobotState.t) (c : Controller) : Controller :=
  mkController (robot_cmd c) (robot_state c) x (imu_data c)
    (imu_data_tmp c) (gait_command c) (history c) (actions c)
    (observations c) (last_actions c) (commands c) (loop_count c)
    (stand_percent c) (init_joint_angles c) (default_joint_angles c) (mode c).

Definition set_imu_data (x : ImuData.t) (c : Controller) : Controller :=
  mkController (robot_cmd c) (robot_state c) (robot_state_tmp c) x
    (imu_data_tmp c) (gait_command c) (history c) (actions c)
    (observations c) (last_actions c) (commands c) (loop_count c)
    (stand_percent c) (init_joint_angles c) (default_joint_angles c) (mode c).

Definition set_imu_data_tmp (x : ImuData.t) (c : Controller) : Controller :=
  mkController (robot_cmd c) (robot_state c) (robot_state_tmp c) (imu_data c)
    x (gait_command c) (history c) (actions c)
    (observations c) (last_actions c) (commands c) (loop_count c)
    (stand_percent c) (init_joint_angles c) (default_joint_angles c) (mode c).

Definition set_history (x : History) (c : Controller) : Controller :=
  mkController (robot_cmd c) (robot_state c) (robot_state_tmp c) (imu_data c)
    (imu_data_tmp c) (gait_command c) x (actions c)
    (observations c) (last_actions c) (commands c) (loop_count c)
    (stand_percent c) (init_joint_angles c) (default_joint_angles c) (mode c).

Definition set_actions (x : list Q) (c : Controller) : Controller :=
  mkController (robot_cmd c) (robot_state c) (robot_state_tmp c) (imu_data c)
    (imu_data_tmp c) (gait_command c) (history c) x
    (observations c) (last_actions c) (commands c) (loop_count c)
    (stand_percent c) (init_joint_angles c) (default_joint_angles c) (mode c).

Definition set_observations (x : list Q) (c : Controller) : Controller :=
  mkController (robot_cmd c) (robot_state c) (robot_state_tmp c) (imu_data c)
    (imu_data_tmp c) (gait_command c) (history c) (actions c)
    x (last_actions c) (commands c) (loop_count c)
    (stand_percent c) (init_joint_angles c) (default_joint_angles c) (mode c).

Definition set_last_actions (x : list Q) (c : Controller) : Controller :=
  mkController (robot_cmd c) (robot_state c) (robot_state_tmp c) (imu_data c)
    (imu_data_tmp c) (gait_command c) (history c) (actions c)
    (observations c) x (commands c) (loop_count c)
    (stand_percent c) (init_joint_angles c) (default_joint_angles c) (mode c).

Definition set_commands (x : list Q) (c : Controller) : Controller :=
  mkController (robot_cmd c) (robot_state c) (robot_state_tmp c) (imu_data c)
    (imu_data_tmp c) (gait_command c) (history c) (actions c)
    (observations c) (last_actions c) x (loop_count c)
    (stand_percent c) (init_joint_angles c) (default_joint_angles c) (mode c).

Definition set_loop_count (x : Z) (c : Controller) : Controller :=
  mkController (robot_cmd c) (robot_state c) (robot_state_tmp c) (imu_data c)
    (imu_data_tmp c) (gait_command c) (history c) (actions c)
    (observations c) (last_actions c) (commands c) x
    (stand_percent c) (init_joint_angles c) (default_joint_angles c) (mode c).

Definition set_stand_percent (x : Q) (c : Controller) : Controller :=
  mkController (robot_cmd c) (robot_state c) (robot_state_tmp c) (imu_data c)
    (imu_data_tmp c) (gait_command c) (history c) (actions c)
    (observations c) (last_actions c) (commands c) (loop_count c)
    x (init_joint_angles c) (default_joint_angles c) (mode c).

Definition set_default_joint_angles (x : list Q) (c : Controller) : Controller :=
  mkController (robot_cmd c) (robot_state c) (robot_state_tmp c) (imu_data c)
    (imu_data_tmp c) (gait_command c) (history c) (actions c)
    (observations c) (last_actions c) (commands c) (loop_count c)
    (stand_percent c) (init_joint_angles c) x (mode c).

Definition set_mode (x : Mode) (c : Controller) : Controller :=
  mkController (robot_cmd c) (robot_state c) (robot_state_tmp c) (imu_data c)
    (imu_data_tmp c) (gait_command c) (history c) (actions c)
    (observations c) (last_actions c) (commands c) (loop_count c)
    (stand_percent c) (init_joint_angles c) (default_joint_angles c) x.

(** ** The monad of methods: state threaded through, exceptions leave the
    mutations made so far in place *)

Definition M (A : Type) : Type := Controller → result A * Controller.

#[global] Instance M_ret : MRet M := λ A a c, (Ok a, c).
#[global] Instance M_bind : MBind M := λ A B k m c,
  match m c with
  | (Ok a, c') => k a c'
  | (Raise e, c') => (Raise e, c')
  end.

(** read an attribute *)
Definition get {A} (f : Controller → A) : M A := λ c, (Ok (f c), c).
(** assign an attribute *)
Definition put (g : Controller → Controller) : M unit := λ c, (Ok tt, g c).
(** evaluate an expression that may raise *)
Definition lift {A} (r : result A) : M A := λ c, (r, c).

(** [for i in range(n): body(i)] *)
Fixpoint for_from (start n : nat) (body : nat → M unit) : M unit :=
  match n with
  | O => mret tt
  | S n' => _ ← body start; for_from (S start) n' body
  end.
Definition for_range (n : nat) (body : nat → M unit) : M unit :=
  for_from 0 n body.

(** [while len(self.base_ang_vel_queue) < n: body], cut after [fuel]
    iterations; [prefill_exit] below shows that the cut is never reached with
    the fuel [compute_observation] gives it *)
Fixpoint while_short (fuel n : nat) (body : M unit) : M unit :=
  match fuel with
  | O => mret tt
  | S fuel' =>
      h ← get history;
      if decide (length (base_ang_vel_queue h) < n)
      then _ ← body; while_short fuel' n body
      else mret tt
  end.

(** [x < y] on numbers *)
Definition Qltb (x y : Q) : bool := negb (Qle_bool y x).

(** [queue.append(x)] for each of the eight deques *)
Definition append_base_ang_vel (n : nat) (x : list Q) (h : History) : History :=
  mkHistory (deque_append n (base_ang_vel_queue h) x) (projected_gravity_queue h)
    (joint_positions_queue h) (joint_velocities_queue h) (actions_queue h)
    (scaled_commands_queue h) (gait_phase_queue h) (gait_command_queue h).
Definition append_projected_gravity (n : nat) (x : list Q) (h : History) : History :=
  mkHistory (base_ang_vel_queue h) (deque_append n (projected_gravity_queue h) x)
    (joint_positions_queue h) (joint_velocities_queue h) (actions_queue h)
    (scaled_commands_queue h) (gait_phase_queue h) (gait_command_queue h).
Definition append_joint_positions (n : nat) (x : list Q) (h : History) : History :=
  mkHistory (base_ang_vel_queue h) (projected_gravity_queue h)
    (deque_append n (joint_positions_queue h) x) (joint_velocities_queue h)
    (actions_queue h) (scaled_commands_queue h) (gait_phase_queue h)
    (gait_command_queue h).
Definition append_joint_velocities (n : nat) (x : list Q) (h : History) : History :=
  mkHistory (base_ang_vel_queue h) (projected_gravity_queue h)
    (joint_positions_queue h) (deque_append n (joint_velocities_queue h) x)
    (actions_queue h) (scaled_commands_queue h) (gait_phase_queue h)
    (gait_command_queue h).
Definition append_actions (n : nat) (x : list Q) (h : History) : History :=
  mkHistory (base_ang_vel_queue h) (projected_gravity_queue h)
    (joint_positions_queue h) (joint_velocities_queue h)
    (deque_append n (actions_queue h) x) (scaled_commands_queue h)
    (gait_phase_queue h) (gait_command_queue h).
Definition append_scaled_commands (n : nat) (x : list Q) (h : History) : History :=
  mkHistory (base_ang_vel_queue h) (projected_gravity_queue h)
    (joint_positions_queue h) (joint_velocities_queue h) (actions_queue h)
    (deque_append n (scaled_commands_queue h) x) (gait_phase_queue h)
    (gait_command_queue h).
Definition append_gait_phase (n : nat) (x : list Q) (h : History) : History :=
  mkHistory (base_ang_vel_queue h) (projected_gravity_queue h)
    (joint_positions_queue h) (joint_velocities_queue h) (actions_queue h)
    (scaled_commands_queue h) (deque_append n (gait_phase_queue h) x)
    (gait_command_queue h).
Definition append_gait_command (n : nat) (x : list Q) (h : History) : History :=
  mkHistory (base_ang_vel_queue h) (projected_gravity_queue h)
    (joint_positions_queue h) (joint_velocities_queue h) (actions_queue h)
    (scaled_commands_queue h) (gait_phase_queue h)
    (deque_append n (gait_command_queue h) x).

Definition empty_history : History := mkHistory [] [] [] [] [] [] [] [].

(** ** The methods of [PointfootController] *)

Section Methods.
Variable cfg : Config.
Variable ext : Extern.

Definition joint_num : nat := length (joint_names cfg).
Definition history_length : nat := observations_history_length cfg.

(** [load_config]: [init_joint_angles[i] = init_state[joint_names[i]]]
    for [i] in [range(len(joint_names))], on an array of zeros *)
Fixpoint fill_init_joint_angles (i n : nat) (arr : list Q) : result (list Q) :=
  match n with
  | O => Ok arr
  | S n' =>
      name ← getitem (joint_names cfg) i;
      v ← dict_get (default_joint_angle cfg) name;
      arr' ← setitem arr i v;
      fill_init_joint_angles (S i) n' arr'
  end.

(** [__init__] (with [load_config]); [imu0] is limxsdk's fresh
    [ImuData()].  [default_joint_angles] does not exist before [run]. *)
Definition init (imu0 : ImuData.t) : result Controller :=
  angles ← fill_init_joint_angles 0 joint_num (replicate joint_num 0%Q);
  let cmd := RobotCmd.mk (replicate joint_num 0%Q) (replicate joint_num 0%Q)
               (replicate joint_num 0%Q) (replicate joint_num 0%Q)
               (replicate joint_num (stiffness cfg))
               (replicate joint_num (damping cfg)) in
  let state := RobotState.mk (replicate joint_num 0%Q)
                 (replicate joint_num 0%Q) (replicate joint_num 0%Q) in
  quat ← setitem (ImuData.quat imu0) 0 0%Q;
  quat ← setitem quat 1 0%Q;
  quat ← setitem quat 2 0%Q;
  quat ← setitem quat 3 1%Q;
  let imu := ImuData.mk (ImuData.stamp imu0) (ImuData.acc imu0)
               (ImuData.gyro imu0) quat in
  gait ← setitem (replicate 3 0%Q) 0 2%Q;
  gait ← setitem gait 1 (1 # 2)%Q;
  gait ← setitem gait 2 (1 # 2)%Q;
  Ok {| robot_cmd := cmd;
        robot_state := state;
        robot_state_tmp := state;
        imu_data := imu;
        imu_data_tmp := imu;
        gait_command := gait;
        history := empty_history;
        actions := replicate (actions_size cfg) 0%Q;
        observations :=
          replicate (observations_size cfg * history_length + latent_size cfg) 0%Q;
        last_actions := replicate (actions_size cfg) 0%Q;
        commands := replicate 3 0%Q;
        loop_count := 0;
        stand_percent := 0;
        init_joint_angles := angles;
        default_joint_angles := [];
        mode := STAND |}.

(** [self.robot_cmd.q[i] = position] *)
Definition set_cmd_q (i : nat) (position : Q) : M unit :=
  cmd ← get robot_cmd;
  q' ← lift (setitem (RobotCmd.q cmd) i position);
  put (set_robot_cmd (RobotCmd.set_q q' cmd)).

Definition set_joint_command (joint_index : nat) (position : Q) : M unit :=
  set_cmd_q joint_index position.

Definition set_joint_command_aligned (joint_index : nat) (position : Q) : M unit :=
  if decide (joint_index = 2) then set_cmd_q 1 position
  else if decide (joint_index = 4) then set_cmd_q 2 position
  else if decide (joint_index = 1) then set_cmd_q 3 position
  else if decide (joint_index = 3) then set_cmd_q 4 position
  else set_cmd_q joint_index position.

(** The part of [run] before the loop *)
Definition run_init : M unit :=
  _ ← put (set_default_joint_angles (replicate (length (joint_names cfg)) 0%Q));
  sp ← get stand_percent;
  inc ← lift (py_div 1 (stand_duration cfg * loop_frequency cfg));
  _ ← put (set_stand_percent (sp + inc));
  _ ← put (set_mode STAND);
  put (set_loop_count 0).

Definition stand_joint (j : nat) : M unit :=
  angles ← get default_joint_angles;
  d ← lift (getitem angles j);
  sp ← get stand_percent;
  name ← lift (getitem (joint_names cfg) j);
  target ← lift (dict_get (default_joint_angle cfg) name);
  let pos_des := (d * (1 - sp) + target * sp)%Q in
  set_joint_command_aligned j pos_des.

Definition handle_stand_mode : M unit :=
  sp ← get stand_percent;
  if Qltb sp 1 then
    _ ← for_range (length (joint_names cfg)) stand_joint;
    sp ← get stand_percent;
    inc ← lift (py_div 1 (stand_duration cfg * loop_frequency cfg));
    put (set_stand_percent (sp + inc))
  else put (set_mode WALK).

(** [dst[i] = src[j]] *)
Definition assign_from (dst : list Q) (i : nat) (src : list Q) (j : nat)
  : result (list Q) :=
  x ← getitem src j; setitem dst i x.

Definition align_robot_state (robot_state : RobotState.t) : result RobotState.t :=
  let q := RobotState.q robot_state in
  let dq := RobotState.dq robot_state in
  let tau := RobotState.tau robot_state in
  (* aligned_robot_state = copy.deepcopy(robot_state) *)
  let '(aq, adq, atau) := (q, dq, tau) in
  aq ← assign_from aq 1 q 3;
  adq ← assign_from adq 1 dq 3;
  atau ← assign_from atau 1 tau 3;
  aq ← assign_from aq 2 q 1;
  adq ← assign_from adq 2 dq 1;
  atau ← assign_from atau 2 tau 1;
  aq ← assign_from aq 3 q 4;
  adq ← assign_from adq 3 dq 4;
  atau ← assign_from atau 3 tau 4;
  aq ← assign_from aq 4 q 2;
  adq ← assign_from adq 4 dq 2;
  atau ← assign_from atau 4 tau 2;
  Ok (RobotState.mk aq adq atau).

Definition compute_gait_phase : M (list Q) :=
  count ← get loop_count;
  t ← lift (py_div (inject_Z count) (loop_frequency cfg));
  gait ← get gait_command;
  f ← lift (getitem gait 0);
  let x := (t * f)%Q in
  (* torch.remainder(x, 1.0) *)
  let gait_indices := (x - inject_Z (Qfloor x))%Q in
  mret [sin_2pi ext gait_indices; cos_2pi ext gait_indices].

Definition compute_encoder_latent (current_obs : list Q) : M (list Q) :=
  lift (encoder_run ext current_obs).

(** The eight appends of [compute_observation], written twice there: in
    the pre-fill loop and after it *)
Definition append_all (base_ang_vel projected_gravity joint_positions
    joint_velocities actions scaled_commands gait_phase gait_command : list Q)
  : M unit :=
  h ← get history;
  _ ← put (set_history
            (append_base_ang_vel history_length
               (np_scale base_ang_vel (ang_vel cfg)) h));
  h ← get history;
  _ ← put (set_history
            (append_projected_gravity history_length projected_gravity h));
  angles ← get init_joint_angles;
  delta ← lift (np_broadcast Qminus joint_positions angles);
  h ← get history;
  _ ← put (set_history
            (append_joint_positions history_length
               (np_scale delta (dof_pos cfg)) h));
  h ← get history;
  _ ← put (set_history
            (append_joint_velocities history_length
               (np_scale joint_velocities (dof_vel cfg)) h));
  h ← get history;
  _ ← put (set_history (append_actions history_length actions h));
  h ← get history;
  _ ← put (set_history (append_scaled_commands history_length scaled_commands h));
  h ← get history;
  _ ← put (set_history (append_gait_phase history_length gait_phase h));
  h ← get history;
  put (set_history (append_gait_command history_length gait_command h)).

Definition compute_observation : M unit :=
  imu ← get imu_data_tmp;
  inverse_rot ← lift (quat_inverse_matrix ext (ImuData.quat imu));
  let gravity_vector := [0; 0; -1]%Q in
  projected_gravity ← lift (np_dot inverse_rot gravity_vector);
  imu ← get imu_data_tmp;
  let base_ang_vel := ImuData.gyro imu in
  rot ← lift (euler_zyx_matrix ext (imu_orientation_offset cfg));
  base_ang_vel ← lift (np_dot rot base_ang_vel);
  projected_gravity ← lift (np_dot rot projected_gravity);
  tmp ← get robot_state_tmp;
  let joint_positions := RobotState.q tmp in
  let joint_velocities := RobotState.dq tmp in
  actions ← get last_actions;
  let command_scaler :=
    np_diag [lin_vel_x cfg; lin_vel_y cfg; ang_vel_yaw cfg] in
  cmds ← get commands;
  scaled_commands ← lift (np_dot command_scaler cmds);
  gait_phase ← compute_gait_phase;
  gait_command ← get gait_command;
  let append := append_all base_ang_vel projected_gravity joint_positions
                  joint_velocities actions scaled_commands gait_phase
                  gait_command in
  (* fill the history queue with the current observation if it is empty *)
  _ ← while_short history_length history_length append;
  (* append the current observation to the history queue *)
  _ ← append;
  h ← get history;
  o1 ← lift (np_flatten (base_ang_vel_queue h));
  o2 ← lift (np_flatten (projected_gravity_queue h));
  o3 ← lift (np_flatten (joint_positions_queue h));
  o4 ← lift (np_flatten (joint_velocities_queue h));
  o5 ← lift (np_flatten (actions_queue h));
  o6 ← lift (np_flatten (scaled_commands_queue h));
  o7 ← lift (np_flatten (gait_phase_queue h));
  o8 ← lift (np_flatten (gait_command_queue h));
  let history_obs := o1 ++ o2 ++ o3 ++ o4 ++ o5 ++ o6 ++ o7 ++ o8 in
  let observations :=
    np_clip history_obs (- clip_observations cfg)%Q (clip_observations cfg) in
  encoder_latent ← compute_encoder_latent observations;
  put (set_observations (history_obs ++ encoder_latent)).

Definition compute_actions : M unit :=
  obs ← get observations;
  output ← lift (policy_run ext obs);
  put (set_actions output).

(** The bounds of the action of one joint, and the clamp, as the loop of
    [handle_walk_mode] computes them *)
Definition action_min (q q0 dq : Q) : Q :=
  (q - q0 + (damping cfg * dq - user_torque_limit cfg) / stiffness cfg)%Q.
Definition action_max (q q0 dq : Q) : Q :=
  (q - q0 + (damping cfg * dq + user_torque_limit cfg) / stiffness cfg)%Q.
Definition clamp_action (q q0 dq a : Q) : Q :=
  py_max (action_min q q0 dq / action_scale_pos cfg)%Q
         (py_min (action_max q q0 dq / action_scale_pos cfg)%Q a).
Definition pos_des (a q0 : Q) : Q := (a * action_scale_pos cfg + q0)%Q.

Definition walk_joint (joint_pos joint_vel : list Q) (i : nat) : M unit :=
  (* action_min *)
  q ← lift (getitem joint_pos i);
  angles ← get init_joint_angles;
  q0 ← lift (getitem angles i);
  dq ← lift (getitem joint_vel i);
  t_min ← lift (np_div (damping cfg * dq - user_torque_limit cfg) (stiffness cfg));
  let action_min := (q - q0 + t_min)%Q in
  (* action_max *)
  q ← lift (getitem joint_pos i);
  angles ← get init_joint_angles;
  q0 ← lift (getitem angles i);
  dq ← lift (getitem joint_vel i);
  t_max ← lift (np_div (damping cfg * dq + user_torque_limit cfg) (stiffness cfg));
  let action_max := (q - q0 + t_max)%Q in
  (* clip action within limits *)
  lo ← lift (np_div action_min (action_scale_pos cfg));
  hi ← lift (np_div action_max (action_scale_pos cfg));
  acts ← get actions;
  a ← lift (getitem acts i);
  acts' ← lift (setitem acts i (py_max lo (py_min hi a)));
  _ ← put (set_actions acts');
  (* compute the desired joint position and set it *)
  acts ← get actions;
  a ← lift (getitem acts i);
  angles ← get init_joint_angles;
  q0 ← lift (getitem angles i);
  _ ← set_joint_command_aligned i (a * action_scale_pos cfg + q0)%Q;
  (* save the last action *)
  acts ← get actions;
  a ← lift (getitem acts i);
  last ← get last_actions;
  last' ← lift (setitem last i a);
  put (set_last_actions last').

Definition handle_walk_mode : M unit :=
  state ← get robot_state;
  aligned ← lift (align_robot_state state);
  _ ← put (set_robot_state_tmp aligned);
  imu ← get imu_data;
  _ ← put (set_imu_data_tmp imu);
  count ← get loop_count;
  r ← lift (py_mod count (decimation cfg));
  _ ← (if decide (r = 0%Z) then
         _ ← compute_observation;
         _ ← compute_actions;
         acts ← get actions;
         put (set_actions
                (np_clip acts (- clip_actions cfg)%Q (clip_actions cfg)))
       else mret tt);
  tmp ← get robot_state_tmp;
  let joint_pos := RobotState.q tmp in
  let joint_vel := RobotState.dq tmp in
  for_range (length joint_pos) (walk_joint joint_pos joint_vel).

(** [update] returns the command it hands to [publishRobotCmd] *)
Definition update : M RobotCmd.t :=
  m ← get mode;
  _ ← match m with
      | STAND => handle_stand_mode
      | WALK => handle_walk_mode
      end;
  count ← get loop_count;
  _ ← put (set_loop_count (count + 1));
  get robot_cmd.

Definition robot_state_callback (msg : RobotState.t) : M unit :=
  put (set_robot_state msg).

Definition imu_data_callback (msg : ImuData.t) : M unit :=
  imu ← get imu_data;
  _ ← put (set_imu_data (ImuData.mk (ImuData.stamp msg) (ImuData.acc imu)
                           (ImuData.gyro imu) (ImuData.quat imu)));
  imu ← get imu_data;
  _ ← put (set_imu_data (ImuData.mk (ImuData.stamp imu) (ImuData.acc msg)
                           (ImuData.gyro imu) (ImuData.quat imu)));
  imu ← get imu_data;
  _ ← put (set_imu_data (ImuData.mk (ImuData.stamp imu) (ImuData.acc imu)
                           (ImuData.gyro msg) (ImuData.quat imu)));
  (* rotate quaternion values *)
  imu ← get imu_data;
  quat ← lift (assign_from (ImuData.quat imu) 0 (ImuData.quat msg) 1);
  _ ← put (set_imu_data (ImuData.mk (ImuData.stamp imu) (ImuData.acc imu)
                           (ImuData.gyro imu) quat));
  imu ← get imu_data;
  quat ← lift (assign_from (ImuData.quat imu) 1 (ImuData.quat msg) 2);
  _ ← put (set_imu_data (ImuData.mk (ImuData.stamp imu) (ImuData.acc imu)
                           (ImuData.gyro imu) quat));
  imu ← get imu_data;
  quat ← lift (assign_from (ImuData.quat imu) 2 (ImuData.quat msg) 3);
  _ ← put (set_imu_data (ImuData.mk (ImuData.stamp imu) (ImuData.acc imu)
                           (ImuData.gyro imu) quat));
  imu ← get imu_data;
  quat ← lift (assign_from (ImuData.quat imu) 3 (ImuData.quat msg) 0);
  put (set_imu_data (ImuData.mk (ImuData.stamp imu) (ImuData.acc imu)
                       (ImuData.gyro imu) quat)).

Definition sensor_joy_callback (msg : SensorJoy.t) : M unit :=
  a ← lift (getitem (SensorJoy.axes msg) 1);
  cmds ← get commands;
  cmds ← lift (setitem cmds 0 (a * (1 # 2))%Q);
  _ ← put (set_commands cmds);
  a ← lift (getitem (SensorJoy.axes msg) 0);
  cmds ← get commands;
  cmds ← lift (setitem cmds 1 (a * (1 # 2))%Q);
  _ ← put (set_commands cmds);
  a ← lift (getitem (SensorJoy.axes msg) 2);
  cmds ← get commands;
  cmds ← lift (setitem cmds 2 (a * (1 # 2))%Q);
  put (set_commands cmds).

(** ** The run as a step relation: loop ticks that return, interleaved
    with the callbacks of the transport layer *)
Inductive step : Controller → Controller → Prop :=
| step_update c cmd c' :
    update c = (Ok cmd, c') → step c c'
| step_robot_state msg c r c' :
    robot_state_callback msg c = (r, c') → step c c'
| step_imu_data msg c r c' :
    imu_data_callback msg c = (r, c') → step c c'
| step_sensor_joy msg c r c' :
    sensor_joy_callback msg c = (r, c') → step c c'.

(** [n] loop ticks in a row *)
Fixpoint ticks (n : nat) : M unit :=
  match n with
  | O => mret tt
  | S n' => _ ← update; ticks n'
  end.

(** A run as the list of its events: loop ticks and messages of the
    transport layer.  An exception in a tick ends the run; one in a callback
    leaves the controller as the callback got it so far. *)
Inductive Event : Type :=
| Tick
| OnRobotState (msg : RobotState.t)
| OnImuData (msg : ImuData.t)
| OnSensorJoy (msg : SensorJoy.t).

Fixpoint play (events : list Event) : M unit :=
  match events with
  | [] => mret tt
  | Tick :: rest => _ ← update; play rest
  | OnRobotState msg :: rest => λ c, play rest (robot_state_callback msg c).2
  | OnImuData msg :: rest => λ c, play rest (imu_data_callback msg c).2
  | OnSensorJoy msg :: rest => λ c, play rest (sensor_joy_callback msg c).2
  end.

(** A controller as [run] hands it to its loop *)
Definition started (c : Controller) : Prop :=
  ∃ imu0 c0, init imu0 = Ok c0 ∧ run_init c0 = (Ok tt, c).

Definition reachable (c : Controller) : Prop :=
  ∃ c1, started c1 ∧ rtc step c1 c.

End Methods.

(** ** The joint remapping as index tables *)

(** The command slot that [set_joint_command_aligned] writes for a logical
    joint index (lines of its if-chain, in order) *)
Definition toPhysical (joint_index : nat) : nat :=
  if decide (joint_index = 2) then 1
  else if decide (joint_index = 4) then 2
  else if decide (joint_index = 1) then 3
  else if decide (joint_index = 3) then 4
  else joint_index.

(** The aligned index that [align_robot_state] gives to a raw sensor index:
    [aligned[1] = raw[3]], [aligned[2] = raw[1]], [aligned[3] = raw[4]],
    [aligned[4] = raw[2]] *)
Definition toLogical (raw_index : nat) : nat :=
  if decide (raw_index = 3) then 1
  else if decide (raw_index = 1) then 2
  else if decide (raw_index = 4) then 3
  else if decide (raw_index = 2) then 4
  else raw_index.

(** The outbound table as the specification words it: 1→3, 2→4, 3→1, 4→2,
    identity elsewhere *)
Definition spec_outbound_table (joint_index : nat) : nat :=
  match joint_index with
  | 1 => 3
  | 2 => 4
  | 3 => 1
  | 4 => 2
  | i => i
  end.

(** The torque that the PD law of the actuator gives for a published
    command: gains [Kp = stiffness] and [Kd = damping], target velocity and
    feed-forward torque zero, target position [pos].  The controller does not
    compute it; the clamp of [handle_walk_mode] is built to bound it. *)
Definition pd_torque (cfg : Config) (pos q dq : Q) : Q :=
  (stiffness cfg * (pos - q) - damping cfg * dq)%Q.

(** ** Notions used in the statements *)

(** [keeps f m]: the method [m] does not change the view [f] of the
    controller, whether it returns or raises *)
Definition keeps {A B} (f : Controller → B) (m : M A) : Prop :=
  ∀ c r c', m c = (r, c') → f c' = f c.

(** The fields of the command other than the target positions *)
Definition cmd_gains (c : Controller) : list Q * list Q * list Q * list Q * list Q :=
  let cmd := robot_cmd c in
  (RobotCmd.mode cmd, RobotCmd.dq cmd, RobotCmd.tau cmd,
   RobotCmd.Kp cmd, RobotCmd.Kd cmd).

(** The command fields that are set once by [__init__] *)
Definition gains_as_configured (cfg : Config) (cmd : RobotCmd.t) : Prop :=
  RobotCmd.mode cmd = replicate (joint_num cfg) 0%Q ∧
  RobotCmd.dq cmd = replicate (joint_num cfg) 0%Q ∧
  RobotCmd.tau cmd = replicate (joint_num cfg) 0%Q ∧
  RobotCmd.Kp cmd = replicate (joint_num cfg) (stiffness cfg) ∧
  RobotCmd.Kd cmd = replicate (joint_num cfg) (damping cfg).

(** The eight deques in the order [compute_observation] concatenates them *)
Definition queues (h : History) : list (list (list Q)) :=
  [base_ang_vel_queue h; projected_gravity_queue h; joint_positions_queue h;
   joint_velocities_queue h; actions_queue h; scaled_commands_queue h;
   gait_phase_queue h; gait_command_queue h].

(** Every one of the eight deques holds exactly [n] entries *)
Definition queues_hold (n : nat) (h : History) : Prop :=
  Forall (λ d, length d = n) (queues h).

(** Every one of the eight deques holds [n] copies of one sample *)
Definition queues_repeat (n : nat) (h : History) : Prop :=
  Forall (λ d, ∃ s, d = replicate n s) (queues h).

(** The history after the eight appends of one sample *)
Definition appended (cfg : Config) (s1 s2 s3 s4 s5 s6 s7 s8 : list Q)
    (h : History) : History :=
  let n := history_length cfg in
  mkHistory (deque_append n (base_ang_vel_queue h) s1)
    (deque_append n (projected_gravity_queue h) s2)
    (deque_append n (joint_positions_queue h) s3)
    (deque_append n (joint_velocities_queue h) s4)
    (deque_append n (actions_queue h) s5)
    (deque_append n (scaled_commands_queue h) s6)
    (deque_append n (gait_phase_queue h) s7)
    (deque_append n (gait_command_queue h) s8).

(** [load_config] has found the default angle of every joint *)
Definition angles_known (cfg : Config) : Prop :=
  ∀ j, j < joint_num cfg →
       ∃ name v, joint_names cfg !! j = Some name ∧
                 default_joint_angle cfg !! name = Some v.

(** The part of the state that the STAND loop relies on *)
Definition ready_to_stand (cfg : Config) (c : Controller) : Prop :=
  length (RobotCmd.q (robot_cmd c)) = joint_num cfg ∧
  length (default_joint_angles c) = joint_num cfg.

(** The state after the loop body for joint [i], given the clamped action
    [a'] and the neutral angle [q0] *)
Definition walk_joint_effect (cfg : Config) (i : nat) (a' q0 : Q)
    (c : Controller) : Controller :=
  set_last_actions (<[i:=a']> (last_actions c))
    (set_robot_cmd
       (RobotCmd.set_q
          (<[toPhysical i:=pos_des cfg a' q0]> (RobotCmd.q (robot_cmd c)))
          (robot_cmd c))
       (set_actions (<[i:=a']> (actions c)) c)).

(** What the inference part of a tick leaves alone *)
Definition walk_inputs (c : Controller) : RobotState.t * list Q :=
  (robot_state_tmp c, init_joint_angles c).

(** What the loop over the joints leaves alone *)
Definition inference_state (c : Controller) : list Q * History * Mode :=
  (observations c, history c, mode c).

(** ** A six-joint robot for the worked examples *)

Module Demo.
Definition I3 : list (list Q) := [[1; 0; 0]; [0; 1; 0]; [0; 0; 1]]%Q.

(** The joints in the order of the policy; the sensor state and the command
    have them in the order abad_L, hip_L, knee_L, abad_R, hip_R, knee_R *)
Definition config (stand_duration : Q) (decimation : Z) : Config :=
  {| joint_names :=
       ["abad_L_Joint"; "abad_R_Joint"; "hip_L_Joint";
        "hip_R_Joint"; "knee_L_Joint"; "knee_R_Joint"]%string;
     default_joint_angle :=
       list_to_map
         [("abad_L_Joint", 0); ("hip_L_Joint", 1 # 10); ("knee_L_Joint", 2 # 10);
          ("abad_R_Joint", 0); ("hip_R_Joint", 1 # 10); ("knee_R_Joint", 2 # 10)]%Q%string;
     stand_duration := stand_duration;
     stiffness := 30;
     damping := 1;
     decimation := decimation;
     action_scale_pos := 1 # 2;
     user_torque_limit := 20;
     ang_vel := 1 # 4;
     dof_pos := 1;
     dof_vel := 1 # 20;
     clip_actions := 100;
     clip_observations := 100;
     actions_size := 6;
     observations_history_length := 2;
     latent_size := 1;
     observations_size := 32;
     imu_orientation_offset := [0; 0; 0]%Q;
     lin_vel_x := 1;
     lin_vel_y := 1;
     ang_vel_yaw := 1;
     loop_frequency := 500 |}.

(** Two seconds to stand up, inference on every fourth tick *)
Definition cfg : Config := config 2 4.

(** The same robot standing up in two ticks (the increment is 1/2), with
    inference on every second tick *)
Definition quick : Config := config (1 # 250) 2.

(** Stand-ins for the inference engine and the rotations: a policy that
    asks for action 5 on every joint, an encoder whose latent vector is
    the largest of its inputs, no rotation *)
Definition ext : Extern :=
  {| policy_run := λ _, Ok (replicate 6 5%Q);
     encoder_run := λ obs, Ok [foldr py_max 0%Q obs];
     quat_inverse_matrix := λ _, Ok I3;
     euler_zyx_matrix := λ _, Ok I3;
     sin_2pi := λ _, 0%Q;
     cos_2pi := λ _, 1%Q |}.

Definition imu0 : ImuData.t :=
  ImuData.mk 0 [0; 0; 0]%Q [0; 0; 0]%Q [0; 0; 0; 0]%Q.

Definition zeros6 : list Q := replicate 6 0%Q.

(** The controller after [__init__], for both configurations *)
Definition fresh : Controller :=
  {| robot_cmd := RobotCmd.mk zeros6 zeros6 zeros6 zeros6
                    (replicate 6 30%Q) (replicate 6 1%Q);
     robot_state := RobotState.mk zeros6 zeros6 zeros6;
     robot_state_tmp := RobotState.mk zeros6 zeros6 zeros6;
     imu_data := ImuData.mk 0 [0; 0; 0]%Q [0; 0; 0]%Q [0; 0; 0; 1]%Q;
     imu_data_tmp := ImuData.mk 0 [0; 0; 0]%Q [0; 0; 0]%Q [0; 0; 0; 1]%Q;
     gait_command := [2; 1 # 2; 1 # 2]%Q;
     history := empty_history;
     actions := zeros6;
     observations := replicate 65 0%Q;
     last_actions := zeros6;
     commands := [0; 0; 0]%Q;
     loop_count := 0;
     stand_percent := 0;
     init_joint_angles := [0; 0; 1 # 10; 1 # 10; 2 # 10; 2 # 10]%Q;
     default_joint_angles := [];
     mode := STAND |}.

(** The controller as [run] hands it to its loop *)
Definition at_start : Controller := (run_init cfg fresh).2.
Definition quick_start : Controller := (run_init quick fresh).2.

(** The sensor state of Scenario A *)
Definition scenario_A : RobotState.t :=
  let v := [1 # 10; 2 # 10; 3 # 10; 4 # 10; 5 # 10; 6 # 10]%Q in
  RobotState.mk v v v.

(** Sensor messages: the robot at rest in its neutral pose, the same with
    the first joint one radian below it, and at rest with velocity 3000 on
    the first joint *)
Definition at_rest : RobotState.t :=
  RobotState.mk [0; 1 # 10; 2 # 10; 0; 1 # 10; 2 # 10]%Q zeros6 zeros6.
Definition moved : RobotState.t :=
  RobotState.mk [-1; 1 # 10; 2 # 10; 0; 1 # 10; 2 # 10]%Q zeros6 zeros6.
Definition fast : RobotState.t :=
  RobotState.mk [0; 1 # 10; 2 # 10; 0; 1 # 10; 2 # 10]%Q
    (3000%Q :: replicate 5 0%Q) zeros6.

(** The run up to a tick between two inference ticks: two ticks to stand
    up, an inference tick at rest (loop count 2), then the first joint
    moves *)
Definition walking_events : list Event :=
  [Tick; Tick; OnRobotState at_rest; Tick; OnRobotState moved].
Definition walking : Controller := (play quick ext walking_events quick_start).2.

(** The run up to an inference tick (loop count 2) with the fast joint *)
Definition spinning_events : list Event := [Tick; Tick; OnRobotState fast].
Definition spinning : Controller := (play quick ext spinning_events quick_start).2.
End Demo.

(** ** More notions and inputs for the further properties *)

(** The number of loop ticks among the events of a run *)
Fixpoint count_ticks (events : list Event) : Z :=
  match events with
  | [] => 0
  | Tick :: rest => 1 + count_ticks rest
  | _ :: rest => count_ticks rest
  end.

(** What no callback of the transport layer writes *)
Definition loop_state (c : Controller)
  : RobotCmd.t * RobotState.t * ImuData.t * History * list Q * list Q * list Q
    * Z * Q * Mode :=
  (robot_cmd c, robot_state_tmp c, imu_data_tmp c, history c, actions c,
   observations c, last_actions c, loop_count c, stand_percent c, mode c).

(** What a STAND tick leaves alone: the state of the inference pipeline and
    the sensor inputs *)
Definition walk_state (c : Controller)
  : RobotState.t * RobotState.t * ImuData.t * ImuData.t * History * list Q
    * list Q * list Q * list Q :=
  (robot_state c, robot_state_tmp c, imu_data c, imu_data_tmp c, history c,
   actions c, observations c, last_actions c, commands c).

(** The number of entries of the command positions *)
Definition cmd_q_length (c : Controller) : nat :=
  length (RobotCmd.q (robot_cmd c)).

(** Every entry of a vector lies within the symmetric bound *)
Definition within (bound : Q) (v : list Q) : Prop :=
  Forall (λ x, (- bound <= x)%Q ∧ (x <= bound)%Q) v.

Module Cases.
(** The robot of [Demo.quick] with other joints *)
Definition robot (names : list string) (angles : list (string * Q)) : Config :=
  {| joint_names := names;
     default_joint_angle := list_to_map angles;
     stand_duration := stand_duration Demo.quick;
     stiffness := stiffness Demo.quick;
     damping := damping Demo.quick;
     decimation := decimation Demo.quick;
     action_scale_pos := action_scale_pos Demo.quick;
     user_torque_limit := user_torque_limit Demo.quick;
     ang_vel := ang_vel Demo.quick;
     dof_pos := dof_pos Demo.quick;
     dof_vel := dof_vel Demo.quick;
     clip_actions := clip_actions Demo.quick;
     clip_observations := clip_observations Demo.quick;
     actions_size := length names;
     observations_history_length := observations_history_length Demo.quick;
     latent_size := latent_size Demo.quick;
     observations_size := observations_size Demo.quick;
     imu_orientation_offset := imu_orientation_offset Demo.quick;
     lin_vel_x := lin_vel_x Demo.quick;
     lin_vel_y := lin_vel_y Demo.quick;
     ang_vel_yaw := ang_vel_yaw Demo.quick;
     loop_frequency := loop_frequency Demo.quick |}.

(** A configuration whose second joint has no default angle *)
Definition no_angle : Config :=
  robot ["abad_L_Joint"; "abad_R_Joint"]%string [("abad_L_Joint", 0%Q)]%string.

(** A leg of three joints *)
Definition three : Config :=
  robot ["abad_L_Joint"; "hip_L_Joint"; "knee_L_Joint"]%string
    [("abad_L_Joint", 0%Q); ("hip_L_Joint", (1 # 10)%Q);
     ("knee_L_Joint", (2 # 10)%Q)]%string.

(** The three-joint controller as [run] hands it to its loop *)
Definition three_start : Controller :=
  match init three Demo.imu0 with
  | Ok c => (run_init three c).2
  | Raise _ => Demo.fresh
  end.

(** The robot of [Demo.quick] with decimation 0 *)
Definition no_decimation : Config := Demo.config (1 # 250) 0.

(** [Demo.quick] after standing up, in WALK mode at loop count 2 *)
Definition stood : Controller :=
  (play Demo.quick Demo.ext [Tick; Tick] Demo.quick_start).2.

(** The same with a sensor message of three joints *)
Definition short_state : Controller :=
  (play Demo.quick Demo.ext
     [Tick; Tick;
      OnRobotState (RobotState.mk [0; 0; 0]%Q [0; 0; 0]%Q [0; 0; 0]%Q)]
     Demo.quick_start).2.

(** IMU messages: a unit quaternion with the scalar first, and one with a
    quaternion of a single entry *)
Definition imu_msg : ImuData.t :=
  ImuData.mk 7 [0; 0; 98 # 10]%Q [1 # 10; 0; 0]%Q [1; 0; 0; 0]%Q.
Definition imu_short : ImuData.t :=
  ImuData.mk 8 [0; 0; 98 # 10]%Q [1 # 10; 0; 0]%Q [1]%Q.

(** Joystick messages with four and with two axes *)
Definition joy_msg : SensorJoy.t := SensorJoy.mk [1 # 2; 1; - (1); 0]%Q.
Definition joy_short : SensorJoy.t := SensorJoy.mk [1 # 2; 1]%Q.
End Cases.

(** The sample of the current tick, one entry per deque in the order of
    [queues], as [compute_observation] computes it before it touches the
    deques and scales it in the appends *)
Definition current_sample (cfg : Config) (ext : Extern) (c : Controller)
    (smp : list (list Q)) : Prop :=
  ∃ inverse_rot rot g0 b g delta s ph,
    quat_inverse_matrix ext (ImuData.quat (imu_data_tmp c)) = Ok inverse_rot ∧
    np_dot inverse_rot [0; 0; -1]%Q = Ok g0 ∧
    euler_zyx_matrix ext (imu_orientation_offset cfg) = Ok rot ∧
    np_dot rot (ImuData.gyro (imu_data_tmp c)) = Ok b ∧
    np_dot rot g0 = Ok g ∧
    np_broadcast Qminus (RobotState.q (robot_state_tmp c))
      (init_joint_angles c) = Ok delta ∧
    np_dot (np_diag [lin_vel_x cfg; lin_vel_y cfg; ang_vel_yaw cfg])
      (commands c) = Ok s ∧
    compute_gait_phase cfg ext c = (Ok ph, c) ∧
    smp = [np_scale b (ang_vel cfg); g; np_scale delta (dof_pos cfg);
           np_scale (RobotState.dq (robot_state_tmp c)) (dof_vel cfg);
           last_actions c; s; ph; gait_command c].

(** ** The loop over the joints in floating point

    The body of the loop of [handle_walk_mode] for one joint, in the
    arithmetic the interpreter runs it in.  The sensor state, the neutral
    angles and the bounds are numpy float64 values and the configuration
    values are Python floats, so every operation is a binary64 operation
    with rounding to nearest, ties to even.  The action is an element of
    [self.actions]: a float64 array as [load_config] creates it, a float32
    array once [compute_actions] has replaced it by the output of the
    policy.  The assignment [self.actions[i] = ...] rounds the clamped
    value to the element type; the comparisons of [max] and [min] are
    exact. *)

Module Ieee.
(** The element type of [self.actions] *)
Inductive dtype : Set := float32 | float64.

Definition add64 : spec_float → spec_float → spec_float := SFadd 53 1024.
Definition sub64 : spec_float → spec_float → spec_float := SFsub 53 1024.
Definition mul64 : spec_float → spec_float → spec_float := SFmul 53 1024.
Definition div64 : spec_float → spec_float → spec_float := SFdiv 53 1024.

(** The binary64 value nearest to a rational: the float that a number of
    the configuration or of a message denotes (numerator and denominator
    below 2^53) *)
Definition of_Q (x : Q) : spec_float :=
  div64 (binary_normalize 53 1024 (Qnum x) 0 false)
        (binary_normalize 53 1024 (Zpos (Qden x)) 0 false).

(** The rational that a finite float is *)
Definition value (x : spec_float) : Q :=
  match x with
  | S754_finite s m e => (inject_Z (cond_Zopp s (Zpos m)) * 2 ^ e)%Q
  | _ => 0%Q
  end.

(** [arr[i] = x] on an array of element type [t] *)
Definition astype (t : dtype) (x : spec_float) : spec_float :=
  match t, x with
  | float32, S754_finite s m e => binary_round 24 128 s m e
  | _, _ => x
  end.

(** Python's [max(x, y)] and [min(x, y)] *)
Definition py_max (x y : spec_float) : spec_float := if SFltb x y then y else x.
Definition py_min (x y : spec_float) : spec_float := if SFltb y x then y else x.

Section Joint.
Variable cfg : Config.
Let kp := of_Q (stiffness cfg).
Let kd := of_Q (damping cfg).
Let limit := of_Q (user_torque_limit cfg).
Let scale := of_Q (action_scale_pos cfg).

Definition action_min (q q0 dq : spec_float) : spec_float :=
  add64 (sub64 q q0) (div64 (sub64 (mul64 kd dq) limit) kp).
Definition action_max (q q0 dq : spec_float) : spec_float :=
  add64 (sub64 q q0) (div64 (add64 (mul64 kd dq) limit) kp).

(** The value that [self.actions[i]] holds after the clamp *)
Definition clamp_action (t : dtype) (q q0 dq a : spec_float) : spec_float :=
  astype t (py_max (div64 (action_min q q0 dq) scale)
                   (py_min (div64 (action_max q q0 dq) scale) a)).

(** The product is a binary64 product, as numpy takes it for a float32
    scalar and a Python float before version 2; for a scale that is a
    power of two it is exact in either format *)
Definition pos_des (a q0 : spec_float) : spec_float :=
  add64 (mul64 a scale) q0.

(** The position that the loop body hands to [set_joint_command_aligned],
    from the numbers that the state, the neutral angle and the raw action
    denote *)
Definition published (t : dtype) (q q0 dq a : Q) : Q :=
  value (pos_des (clamp_action t (of_Q q) (of_Q q0) (of_Q dq) (of_Q a))
           (of_Q q0)).
End Joint.
End Ieee.

(** * Properties *)

(** ** Results and the monad *)

Lemma getitem_Ok {A} (l : list A) i x : getitem l i = Ok x ↔ l !! i = Some x.
Proof.
  unfold getitem. destruct (l !! i); split; intros H; congruence.
Qed.

Lemma setitem_Ok {A} (l : list A) i x l' :
  setitem l i x = Ok l' ↔ i < length l ∧ l' = <[i:=x]> l.
Proof.
  unfold setitem. destruct (decide (i < length l)); split.
  - intros [= <-]. auto.
  - intros [_ ->]. reflexivity.
  - discriminate.
  - intros [? _]. lia.
Qed.

Lemma setitem_lt {A} (l : list A) i x :
  i < length l → setitem l i x = Ok (<[i:=x]> l).
Proof. intros. apply setitem_Ok. auto. Qed.

Lemma assign_from_Ok dst i src j l' :
  assign_from dst i src j = Ok l' ↔
  ∃ x, src !! j = Some x ∧ i < length dst ∧ l' = <[i:=x]> dst.
Proof.
  unfold assign_from, getitem. cbn. destruct (src !! j) as [x|]; cbn.
  - rewrite setitem_Ok. split.
    + intros [? ?]. eauto.
    + intros (? & [= <-] & ? & ?). auto.
  - split; [discriminate | intros (? & ? & _); discriminate].
Qed.

Lemma bind_Ok {A B} (m : M A) (k : A → M B) c b c' :
  (m ≫= k) c = (Ok b, c') ↔ ∃ a c1, m c = (Ok a, c1) ∧ k a c1 = (Ok b, c').
Proof.
  unfold mbind, M_bind. destruct (m c) as [[a|e] c1]; split.
  - eauto.
  - intros (? & ? & [= <- <-] & ?). assumption.
  - discriminate.
  - intros (? & ? & [=] & _).
Qed.

Lemma get_Ok {A} (f : Controller → A) c a c' :
  get f c = (Ok a, c') ↔ a = f c ∧ c' = c.
Proof. unfold get. split; [intros [= <- <-] | intros [-> ->]]; auto. Qed.

Lemma put_Ok g c u c' : put g c = (Ok u, c') ↔ c' = g c.
Proof. unfold put. destruct u. split; [intros [= <-] | intros ->]; auto. Qed.

Lemma lift_Ok {A} (r : result A) c a c' :
  lift r c = (Ok a, c') ↔ r = Ok a ∧ c' = c.
Proof. unfold lift. split; [intros [= <- <-] | intros [-> ->]]; auto. Qed.

Lemma ret_Ok {A} (x : A) c a c' :
  (mret x : M A) c = (Ok a, c') ↔ a = x ∧ c' = c.
Proof.
  unfold mret, M_ret. split; [intros [= <- <-] | intros [-> ->]]; auto.
Qed.

(** Take a successful run of a method apart, statement by statement *)
Ltac inv_run H :=
  repeat first
    [ apply bind_Ok in H; destruct H as (? & ? & ? & H)
    | apply get_Ok in H; destruct H as [? ?]
    | apply put_Ok in H
    | apply lift_Ok in H; destruct H as [H ?]
    | apply ret_Ok in H; destruct H as [? ?] ];
  repeat match goal with
    | [ E : get _ _ = (Ok _, _) |- _ ] => apply get_Ok in E; destruct E as [? ?]
    | [ E : put _ _ = (Ok _, _) |- _ ] => apply put_Ok in E
    | [ E : lift _ _ = (Ok _, _) |- _ ] => apply lift_Ok in E; destruct E as [E ?]
    | [ E : mret _ _ = (Ok _, _) |- _ ] => apply ret_Ok in E; destruct E as [? ?]
    end;
  subst;
  repeat match goal with
    | [ E : getitem _ _ = Ok _ |- _ ] => apply getitem_Ok in E
    | [ E : setitem _ _ _ = Ok _ |- _ ] =>
        apply setitem_Ok in E; destruct E as [? ?]
    end;
  subst.

(** ** The joint remapping *)

Lemma set_cmd_q_Ok i p c u c' :
  set_cmd_q i p c = (Ok u, c') ↔
  i < length (RobotCmd.q (robot_cmd c)) ∧
  c' = set_robot_cmd
         (RobotCmd.set_q (<[i:=p]> (RobotCmd.q (robot_cmd c))) (robot_cmd c)) c.
Proof.
  unfold set_cmd_q. split.
  - intros H. inv_run H. auto.
  - intros [Hlt ->]. destruct u.
    apply bind_Ok. eexists _, _. split; [reflexivity|].
    apply bind_Ok. eexists _, _. split; [|reflexivity].
    unfold lift. rewrite setitem_lt by assumption. reflexivity.
Qed.

Lemma set_joint_command_aligned_slot i p :
  set_joint_command_aligned i p = set_cmd_q (toPhysical i) p.
Proof.
  unfold set_joint_command_aligned, toPhysical.
  repeat case_decide; reflexivity.
Qed.

Lemma toPhysical_table i :
  toPhysical i = match i with 1 => 3 | 2 => 1 | 3 => 4 | 4 => 2 | _ => i end.
Proof. do 5 (destruct i as [|i]; [reflexivity|]). reflexivity. Qed.

Lemma toLogical_table p :
  toLogical p = match p with 1 => 2 | 2 => 4 | 3 => 1 | 4 => 3 | _ => p end.
Proof. do 5 (destruct p as [|p]; [reflexivity|]). reflexivity. Qed.

Lemma toPhysical_inj i j : toPhysical i = toPhysical j → i = j.
Proof. unfold toPhysical. repeat case_decide; lia. Qed.

Lemma toPhysical_lt i n : 5 ≤ n → i < n → toPhysical i < n.
Proof. unfold toPhysical. repeat case_decide; lia. Qed.

Lemma rbind_Ok {A B} (r : result A) (k : A → result B) b :
  r ≫= k = Ok b ↔ ∃ a, r = Ok a ∧ k a = Ok b.
Proof.
  destruct r as [a|e]; cbn; split.
  - eauto.
  - intros (? & [= <-] & ?). assumption.
  - discriminate.
  - intros (? & [=] & _).
Qed.

Lemma assign_from_cons dst i src j x :
  src !! j = Some x → i < length dst →
  assign_from dst i src j = Ok (<[i:=x]> dst).
Proof. intros. apply assign_from_Ok. eauto. Qed.

(** Alignment of a state of five or more joints: the five leading entries of
    [q], [dq] and [tau] are permuted, the rest stays in place *)
Lemma align_robot_state_cons q0 q1 q2 q3 q4 qs d0 d1 d2 d3 d4 ds t0 t1 t2 t3 t4 ts :
  align_robot_state
    (RobotState.mk (q0 :: q1 :: q2 :: q3 :: q4 :: qs)
                   (d0 :: d1 :: d2 :: d3 :: d4 :: ds)
                   (t0 :: t1 :: t2 :: t3 :: t4 :: ts))
  = Ok (RobotState.mk (q0 :: q3 :: q1 :: q4 :: q2 :: qs)
                      (d0 :: d3 :: d1 :: d4 :: d2 :: ds)
                      (t0 :: t3 :: t1 :: t4 :: t2 :: ts)).
Proof.
  unfold align_robot_state. cbn [RobotState.q RobotState.dq RobotState.tau].
  repeat (erewrite assign_from_cons; [cbn [mbind result_bind] | reflexivity | cbn; lia]).
  reflexivity.
Qed.

(** Alignment raises [IndexError] on fewer than five joints *)
Lemma align_robot_state_Ok_length rs a :
  align_robot_state rs = Ok a →
  5 ≤ length (RobotState.q rs) ∧ 5 ≤ length (RobotState.dq rs) ∧
  5 ≤ length (RobotState.tau rs).
Proof.
  unfold align_robot_state. intros H.
  repeat (apply rbind_Ok in H; destruct H as (? & ? & H)).
  repeat match goal with
    | [ E : assign_from _ _ _ _ = Ok _ |- _ ] =>
        apply assign_from_Ok in E; destruct E as (? & E & ? & ?)
    end.
  repeat match goal with
    | [ E : _ !! _ = Some _ |- _ ] => apply lookup_lt_Some in E
    end.
  lia.
Qed.

Lemma list_ge_5 {A} (l : list A) :
  5 ≤ length l → ∃ x0 x1 x2 x3 x4 rest, l = x0 :: x1 :: x2 :: x3 :: x4 :: rest.
Proof.
  destruct l as [|x0 [|x1 [|x2 [|x3 [|x4 rest]]]]]; cbn; try lia.
  intros _. eauto 10.
Qed.

Lemma align_robot_state_lookup rs a :
  align_robot_state rs = Ok a →
  length (RobotState.q a) = length (RobotState.q rs) ∧
  length (RobotState.dq a) = length (RobotState.dq rs) ∧
  (∀ p, RobotState.q a !! toLogical p = RobotState.q rs !! p) ∧
  (∀ p, RobotState.dq a !! toLogical p = RobotState.dq rs !! p) ∧
  (∀ p, RobotState.tau a !! toLogical p = RobotState.tau rs !! p).
Proof.
  intros H. destruct (align_robot_state_Ok_length _ _ H) as (Hq & Hd & Ht).
  destruct rs as [q dq tau]. cbn in Hq, Hd, Ht.
  apply list_ge_5 in Hq as (q0 & q1 & q2 & q3 & q4 & qs & ->).
  apply list_ge_5 in Hd as (d0 & d1 & d2 & d3 & d4 & ds & ->).
  apply list_ge_5 in Ht as (t0 & t1 & t2 & t3 & t4 & ts & ->).
  rewrite align_robot_state_cons in H. injection H as <-. cbn.
  repeat split; try reflexivity;
    intros p; rewrite toLogical_table;
    do 5 (destruct p as [|p]; [reflexivity|]); reflexivity.
Qed.

Lemma demo_init : init Demo.cfg Demo.imu0 = Ok Demo.fresh.
Proof. vm_compute. reflexivity. Qed.

(** C5 (as amended).  The outbound remapping of [set_joint_command_aligned]
    sends logical joint 1 to command slot 3, 2 to 1, 3 to 4 and 4 to 2, and
    writes every other index (0 and 5 upwards) to the slot of the same
    number. *)
Theorem outbound_table_of_code (i : nat) (p : Q) :
  set_joint_command_aligned i p
  = set_cmd_q (match i with 1 => 3 | 2 => 1 | 3 => 4 | 4 => 2 | _ => i end) p.
Proof.
  rewrite set_joint_command_aligned_slot, toPhysical_table. reflexivity.
Qed.

(** C5 as the specification states it fails: the position of logical joint 2
    goes to slot 1 of the command, not to slot 4 (and that of joint 3 to slot
    4, not to slot 1). *)
Lemma outbound_table_counterexample :
  ¬ (∀ (i : nat) (p : Q),
       set_joint_command_aligned i p = set_cmd_q (spec_outbound_table i) p).
Proof.
  intros H.
  pose proof (f_equal (λ m : M unit, RobotCmd.q (robot_cmd (m Demo.fresh).2))
                (H 2 7%Q)) as E.
  vm_compute in E. discriminate E.
Qed.

(** C6.  Inbound alignment gives aligned[1] = raw[3], aligned[2] = raw[1],
    aligned[3] = raw[4], aligned[4] = raw[2] for each of q, dq and tau and
    leaves index 0 and the indices from 5 on in place; on the six joints of
    Scenario A, q = [0.1,0.2,0.3,0.4,0.5,0.6] becomes
    [0.1,0.4,0.2,0.5,0.3,0.6]. *)
Theorem align_robot_state_scenario_A :
  (∀ q0 q1 q2 q3 q4 qs d0 d1 d2 d3 d4 ds t0 t1 t2 t3 t4 ts,
     align_robot_state
       (RobotState.mk (q0 :: q1 :: q2 :: q3 :: q4 :: qs)
                      (d0 :: d1 :: d2 :: d3 :: d4 :: ds)
                      (t0 :: t1 :: t2 :: t3 :: t4 :: ts))
     = Ok (RobotState.mk (q0 :: q3 :: q1 :: q4 :: q2 :: qs)
                         (d0 :: d3 :: d1 :: d4 :: d2 :: ds)
                         (t0 :: t3 :: t1 :: t4 :: t2 :: ts)))
  ∧ (let expected := [1 # 10; 4 # 10; 2 # 10; 5 # 10; 3 # 10; 6 # 10]%Q in
     align_robot_state Demo.scenario_A
     = Ok (RobotState.mk expected expected expected)).
Proof.
  split.
  - intros. apply align_robot_state_cons.
  - apply align_robot_state_cons.
Qed.

(** C4.  The outbound table is the inverse of the inbound one:
    toLogical (toPhysical i) = i for every index i, and a value written for
    logical joint i through [set_joint_command_aligned] is found at index i
    again when the command positions are read back through
    [align_robot_state]. *)
Theorem remap_round_trip :
  (∀ i, toLogical (toPhysical i) = i)
  ∧ (∀ i v c c' rs aligned,
       set_joint_command_aligned i v c = (Ok tt, c') →
       RobotState.q rs = RobotCmd.q (robot_cmd c') →
       align_robot_state rs = Ok aligned →
       RobotState.q aligned !! i = Some v).
Proof.
  split.
  - intros i. unfold toLogical, toPhysical. repeat case_decide; lia.
  - intros i v c c' rs aligned Hset Hq Hal.
    rewrite set_joint_command_aligned_slot in Hset.
    apply set_cmd_q_Ok in Hset as [Hlt ->].
    apply align_robot_state_lookup in Hal as (_ & _ & Hl & _).
    replace i with (toLogical (toPhysical i)) at 1
      by (unfold toLogical, toPhysical; repeat case_decide; lia).
    rewrite Hl, Hq. cbn. apply list_lookup_insert_eq. assumption.
Qed.

Lemma remap_round_trip_witness :
  RobotState.q
    (RobotState.mk [0; 0; 7; 0; 0; 0]%Q Demo.zeros6 Demo.zeros6) !! 2 = Some 7%Q.
Proof.
  eapply (proj2 remap_round_trip 2 7%Q Demo.fresh _
            (RobotState.mk [0; 7; 0; 0; 0; 0]%Q Demo.zeros6 Demo.zeros6)).
  - vm_compute. reflexivity.
  - vm_compute. reflexivity.
  - vm_compute. reflexivity.
Defined.

(** ** The action safety clamp *)

Section Clamp.
Local Open Scope Q_scope.

Lemma py_max_ge x y : x <= py_max x y ∧ y <= py_max x y.
Proof.
  unfold py_max. destruct (Qle_bool y x) eqn:E.
  - apply Qle_bool_iff in E. split; [apply Qle_refl | assumption].
  - split; [|apply Qle_refl].
    destruct (Qlt_le_dec x y) as [Hlt|Hle]; [apply Qlt_le_weak, Hlt|].
    apply Qle_bool_iff in Hle. congruence.
Qed.

Lemma py_max_cases x y : py_max x y = x ∨ py_max x y = y.
Proof. unfold py_max. destruct (Qle_bool y x); auto. Qed.

Lemma py_min_le x y : py_min x y <= x ∧ py_min x y <= y.
Proof.
  unfold py_min. destruct (Qle_bool x y) eqn:E.
  - apply Qle_bool_iff in E. split; [apply Qle_refl | assumption].
  - split; [|apply Qle_refl].
    destruct (Qlt_le_dec y x) as [Hlt|Hle]; [apply Qlt_le_weak, Hlt|].
    apply Qle_bool_iff in Hle. congruence.
Qed.

(** [max(lo, min(hi, a))] lies between the bounds when they are ordered *)
Lemma clamp_between lo hi a :
  lo <= hi → lo <= py_max lo (py_min hi a) ∧ py_max lo (py_min hi a) <= hi.
Proof.
  intros Hle. split; [apply py_max_ge|].
  destruct (py_max_cases lo (py_min hi a)) as [-> | ->];
    [assumption | apply py_min_le].
Qed.

(** ... and leaves an action inside the bounds at its value *)
Lemma clamp_inside lo hi a :
  lo <= a → a <= hi → py_max lo (py_min hi a) == a.
Proof.
  intros H1 H2.
  assert (Hm : py_min hi a == a).
  { unfold py_min. destruct (Qle_bool hi a) eqn:E; [|reflexivity].
    apply Qle_bool_iff in E. apply Qle_antisym; assumption. }
  unfold py_max. destruct (Qle_bool (py_min hi a) lo) eqn:E; [|assumption].
  apply Qle_bool_iff in E. rewrite Hm in E. apply Qle_antisym; assumption.
Qed.

Variable cfg : Config.
Hypothesis stiffness_pos : 0 < stiffness cfg.
Hypothesis limit_nonneg : 0 <= user_torque_limit cfg.
Hypothesis scale_pos : 0 < action_scale_pos cfg.

Lemma action_bounds_ordered q q0 dq :
  action_min cfg q q0 dq / action_scale_pos cfg
  <= action_max cfg q q0 dq / action_scale_pos cfg.
Proof.
  unfold action_min, action_max.
  set (k := stiffness cfg) in *. set (T := user_torque_limit cfg) in *.
  set (s := action_scale_pos cfg) in *. set (d := damping cfg).
  assert (Hk : ~ k == 0) by lra. assert (Hs : ~ s == 0) by lra.
  assert (E1 : k * ((d * dq - T) / k) == d * dq - T) by (field; assumption).
  assert (E2 : k * ((d * dq + T) / k) == d * dq + T) by (field; assumption).
  set (u := (d * dq - T) / k) in *. set (v := (d * dq + T) / k) in *.
  apply Qle_shift_div_l; [assumption|].
  assert (E : (q - q0 + u) / s * s == q - q0 + u) by (field; assumption).
  rewrite E. nra.
Qed.

(** The torque of the PD law at the clamped action lies in the torque
    envelope *)
Lemma clamp_torque_between q q0 dq a :
  let t := pd_torque cfg (pos_des cfg (clamp_action cfg q q0 dq a) q0) q dq in
  - user_torque_limit cfg <= t ∧ t <= user_torque_limit cfg.
Proof.
  intros t. subst t.
  destruct (clamp_between _ _ a (action_bounds_ordered q q0 dq)) as [Hlo Hhi].
  fold (clamp_action cfg q q0 dq a) in Hlo, Hhi.
  set (a' := clamp_action cfg q q0 dq a) in *.
  unfold pd_torque, pos_des. unfold action_min, action_max in Hlo, Hhi.
  set (k := stiffness cfg) in *. set (T := user_torque_limit cfg) in *.
  set (s := action_scale_pos cfg) in *. set (d := damping cfg) in *.
  assert (Hk : ~ k == 0) by lra. assert (Hs : ~ s == 0) by lra.
  assert (E1 : k * ((d * dq - T) / k) == d * dq - T) by (field; assumption).
  assert (E2 : k * ((d * dq + T) / k) == d * dq + T) by (field; assumption).
  set (u := (d * dq - T) / k) in *. set (v := (d * dq + T) / k) in *.
  assert (Ea : (q - q0 + u) / s * s == q - q0 + u) by (field; assumption).
  assert (Eb : (q - q0 + v) / s * s == q - q0 + v) by (field; assumption).
  set (lo := (q - q0 + u) / s) in *. set (hi := (q - q0 + v) / s) in *.
  assert (L1 : q - q0 + u <= a' * s) by nra.
  assert (L2 : a' * s <= q - q0 + v) by nra.
  set (z := a' * s) in *.
  split; nra.
Qed.
End Clamp.

(** ** Frame conditions: what a method leaves alone *)

Section Keeps.
Context {B : Type} (f : Controller → B).

Lemma keeps_ret {A} (x : A) : keeps f (mret x).
Proof. intros c r c' [= _ <-]. reflexivity. Qed.

Lemma keeps_get {A} (g : Controller → A) : keeps f (get g).
Proof. intros c r c' [= _ <-]. reflexivity. Qed.

Lemma keeps_lift {A} (x : result A) : keeps f (lift x).
Proof. intros c r c' [= _ <-]. reflexivity. Qed.

Lemma keeps_put g : (∀ c, f (g c) = f c) → keeps f (put g).
Proof. intros H c r c' [= _ <-]. apply H. Qed.

Lemma keeps_bind {A A'} (m : M A) (k : A → M A') :
  keeps f m → (∀ a, keeps f (k a)) → keeps f (m ≫= k).
Proof.
  intros Hm Hk c r c'. unfold mbind, M_bind.
  destruct (m c) as [[a|e] c1] eqn:E.
  - intros H. rewrite (Hk _ _ _ _ H). eapply Hm, E.
  - intros [= _ <-]. eapply Hm, E.
Qed.

Lemma keeps_for_from body start n :
  (∀ i, keeps f (body i)) → keeps f (for_from start n body).
Proof.
  intros Hb. revert start.
  induction n as [|n IH]; intros start; cbn [for_from].
  - apply keeps_ret.
  - apply keeps_bind; [apply Hb | intros _; apply IH].
Qed.

Lemma keeps_while_short body fuel n :
  keeps f body → keeps f (while_short fuel n body).
Proof.
  intros Hb. induction fuel as [|fuel IH]; cbn [while_short].
  - apply keeps_ret.
  - apply keeps_bind; [apply keeps_get | intros h].
    case_decide; [|apply keeps_ret].
    apply keeps_bind; [apply Hb | intros _; apply IH].
Qed.
End Keeps.

Create HintDb keeps discriminated.

Ltac keeps_step :=
  first
    [ solve [auto with keeps]
    | apply keeps_get | apply keeps_lift | apply keeps_ret
    | apply keeps_put; intros ?; reflexivity
    | apply keeps_bind; [| intros ?]
    | apply keeps_for_from; intros ?
    | apply keeps_while_short
    | match goal with
      | [ |- keeps _ (if ?b then _ else _) ] => destruct b
      | [ |- keeps _ (match ?m with STAND => _ | WALK => _ end) ] => destruct m
      end ].

(** Unfold the methods down to reads, writes and loops, and check every
    write *)
Ltac solve_keeps :=
  unfold update, handle_walk_mode, handle_stand_mode, for_range;
  repeat first
    [ keeps_step
    | progress unfold walk_joint, stand_joint, compute_observation,
        compute_actions, compute_encoder_latent, compute_gait_phase,
        append_all, set_joint_command_aligned, set_joint_command,
        robot_state_callback, imu_data_callback, sensor_joy_callback,
        run_init
    | progress unfold set_cmd_q ].

Lemma handle_walk_mode_keeps_mode cfg ext : keeps mode (handle_walk_mode cfg ext).
Proof. solve_keeps. Qed.

Lemma callbacks_keep_mode :
  (∀ msg, keeps mode (robot_state_callback msg)) ∧
  (∀ msg, keeps mode (imu_data_callback msg)) ∧
  (∀ msg, keeps mode (sensor_joy_callback msg)).
Proof. repeat split; intros; solve_keeps. Qed.

Lemma set_cmd_q_keeps_cmd_gains i p : keeps cmd_gains (set_cmd_q i p).
Proof.
  intros c r c'. unfold set_cmd_q, mbind, M_bind, get, lift, put.
  destruct (setitem _ _ _); intros [= _ <-]; reflexivity.
Qed.
#[export] Hint Resolve set_cmd_q_keeps_cmd_gains : keeps.

Lemma update_keeps_cmd_gains cfg ext : keeps cmd_gains (update cfg ext).
Proof. solve_keeps. Qed.

Lemma run_init_keeps_cmd_gains cfg : keeps cmd_gains (run_init cfg).
Proof. solve_keeps. Qed.

Lemma callbacks_keep_cmd_gains :
  (∀ msg, keeps cmd_gains (robot_state_callback msg)) ∧
  (∀ msg, keeps cmd_gains (imu_data_callback msg)) ∧
  (∀ msg, keeps cmd_gains (sensor_joy_callback msg)).
Proof. repeat split; intros; solve_keeps. Qed.

(** ** The run *)

Lemma init_Ok cfg imu0 c0 :
  init cfg imu0 = Ok c0 →
  ∃ angles quat,
    fill_init_joint_angles cfg 0 (joint_num cfg) (replicate (joint_num cfg) 0%Q)
    = Ok angles ∧
    c0 = {| robot_cmd :=
              RobotCmd.mk (replicate (joint_num cfg) 0%Q)
                (replicate (joint_num cfg) 0%Q) (replicate (joint_num cfg) 0%Q)
                (replicate (joint_num cfg) 0%Q)
                (replicate (joint_num cfg) (stiffness cfg))
                (replicate (joint_num cfg) (damping cfg));
            robot_state :=
              RobotState.mk (replicate (joint_num cfg) 0%Q)
                (replicate (joint_num cfg) 0%Q) (replicate (joint_num cfg) 0%Q);
            robot_state_tmp :=
              RobotState.mk (replicate (joint_num cfg) 0%Q)
                (replicate (joint_num cfg) 0%Q) (replicate (joint_num cfg) 0%Q);
            imu_data := ImuData.mk (ImuData.stamp imu0) (ImuData.acc imu0)
                          (ImuData.gyro imu0) quat;
            imu_data_tmp := ImuData.mk (ImuData.stamp imu0) (ImuData.acc imu0)
                              (ImuData.gyro imu0) quat;
            gait_command := [2; 1 # 2; 1 # 2]%Q;
            history := empty_history;
            actions := replicate (actions_size cfg) 0%Q;
            observations :=
              replicate (observations_size cfg * history_length cfg
                         + latent_size cfg) 0%Q;
            last_actions := replicate (actions_size cfg) 0%Q;
            commands := replicate 3 0%Q;
            loop_count := 0;
            stand_percent := 0;
            init_joint_angles := angles;
            default_joint_angles := [];
            mode := STAND |}.
Proof.
  unfold init. intros H.
  apply rbind_Ok in H as (angles & Hangles & H).
  do 4 (apply rbind_Ok in H; destruct H as (? & ? & H)).
  cbn in H. injection H as <-.
  eexists _, _. split; [exact Hangles | reflexivity].
Qed.

Lemma ticks_rtc cfg ext n c c' :
  ticks cfg ext n c = (Ok tt, c') → rtc (step cfg ext) c c'.
Proof.
  revert c. induction n as [|n IH]; intros c H; cbn [ticks] in H.
  - apply ret_Ok in H as [_ ->]. reflexivity.
  - apply bind_Ok in H as (cmd & c1 & Hu & H).
    eapply rtc_l; [eapply step_update, Hu | apply IH, H].
Qed.

Lemma play_rtc cfg ext events : ∀ c c',
  play cfg ext events c = (Ok tt, c') → rtc (step cfg ext) c c'.
Proof.
  induction events as [|[|msg|msg|msg] rest IH]; intros c c' H;
    cbn [play] in H.
  - apply ret_Ok in H as [_ ->]. reflexivity.
  - apply bind_Ok in H as (cmd & c1 & Hu & H).
    eapply rtc_l; [eapply step_update, Hu | apply IH, H].
  - eapply rtc_l; [|apply IH, H].
    eapply step_robot_state. apply surjective_pairing.
  - eapply rtc_l; [|apply IH, H].
    eapply step_imu_data. apply surjective_pairing.
  - eapply rtc_l; [|apply IH, H].
    eapply step_sensor_joy. apply surjective_pairing.
Qed.

(** A tick in WALK mode is a call of [handle_walk_mode] followed by the
    increment of the loop counter *)
Lemma update_WALK cfg ext c :
  mode c = WALK →
  update cfg ext c
  = (_ ← handle_walk_mode cfg ext;
     count ← get loop_count;
     _ ← put (set_loop_count (count + 1));
     get robot_cmd) c.
Proof.
  intros H. unfold update. unfold mbind at 1, M_bind at 1, get at 1.
  rewrite H. reflexivity.
Qed.

Lemma update_STAND cfg ext c :
  mode c = STAND →
  update cfg ext c
  = (_ ← handle_stand_mode cfg;
     count ← get loop_count;
     _ ← put (set_loop_count (count + 1));
     get robot_cmd) c.
Proof.
  intros H. unfold update. unfold mbind at 1, M_bind at 1, get at 1.
  rewrite H. reflexivity.
Qed.

Lemma update_keeps_WALK cfg ext c r c' :
  mode c = WALK → update cfg ext c = (r, c') → mode c' = WALK.
Proof.
  intros Hm H. rewrite update_WALK in H by assumption.
  rewrite <- Hm. revert H. generalize c r c'. change (keeps mode
    (_ ← handle_walk_mode cfg ext;
     count ← get loop_count;
     _ ← put (set_loop_count (count + 1));
     get robot_cmd)).
  pose proof (handle_walk_mode_keeps_mode cfg ext).
  repeat keeps_step.
Qed.

Lemma step_keeps_WALK cfg ext c c' :
  step cfg ext c c' → mode c = WALK → mode c' = WALK.
Proof.
  destruct callbacks_keep_mode as (Hs & Hi & Hj).
  intros [c0 cmd c1 H | msg c0 r c1 H | msg c0 r c1 H | msg c0 r c1 H] Hm.
  - eapply update_keeps_WALK; eassumption.
  - rewrite <- Hm. eapply Hs, H.
  - rewrite <- Hm. eapply Hi, H.
  - rewrite <- Hm. eapply Hj, H.
Qed.

(** C8.  Once the mode is WALK it stays WALK: no step of the run, loop tick
    or callback, leads from WALK back to STAND, so the mode is WALK in every
    state that the run reaches from a state in WALK mode. *)
Theorem walk_mode_is_final cfg ext c c' :
  mode c = WALK → rtc (step cfg ext) c c' → mode c' = WALK.
Proof.
  intros Hm Hrtc. induction Hrtc as [|c c1 c' Hstep _ IH]; [assumption|].
  apply IH. eapply step_keeps_WALK; eassumption.
Qed.

Lemma walk_mode_is_final_witness :
  mode (ticks Demo.quick Demo.ext 5 Demo.walking).2 = WALK.
Proof.
  refine (walk_mode_is_final Demo.quick Demo.ext Demo.walking
            (ticks Demo.quick Demo.ext 5 Demo.walking).2 _ _).
  - vm_compute. reflexivity.
  - apply (ticks_rtc Demo.quick Demo.ext 5). vm_compute. reflexivity.
Defined.

Lemma gains_as_configured_eq cfg c c' :
  cmd_gains c' = cmd_gains c →
  gains_as_configured cfg (robot_cmd c) → gains_as_configured cfg (robot_cmd c').
Proof.
  unfold cmd_gains, gains_as_configured.
  intros [= -> -> -> -> ->]. trivial.
Qed.

Lemma step_keeps_cmd_gains cfg ext c c' :
  step cfg ext c c' → cmd_gains c' = cmd_gains c.
Proof.
  destruct callbacks_keep_cmd_gains as (Hs & Hi & Hj).
  intros [c0 cmd c1 H | msg c0 r c1 H | msg c0 r c1 H | msg c0 r c1 H].
  - eapply update_keeps_cmd_gains, H.
  - eapply Hs, H.
  - eapply Hi, H.
  - eapply Hj, H.
Qed.

Lemma started_gains cfg c :
  started cfg c → gains_as_configured cfg (robot_cmd c).
Proof.
  intros (imu0 & c0 & Hinit & Hrun).
  apply (gains_as_configured_eq cfg c0); [eapply run_init_keeps_cmd_gains, Hrun|].
  apply init_Ok in Hinit as (angles & quat & _ & ->).
  repeat split.
Qed.

Lemma update_returns_cmd cfg ext c cmd c' :
  update cfg ext c = (Ok cmd, c') → cmd = robot_cmd c'.
Proof. unfold update. intros H. inv_run H. reflexivity. Qed.

(** C10.  During the whole run only the target positions [q] of the command
    change: in every state the run reaches, and so in every command a tick
    publishes, in STAND and in WALK mode, the fields mode, dq and tau are 0
    for every joint and Kp and Kd are the configured stiffness and damping
    that [__init__] wrote. *)
Theorem only_q_is_updated cfg ext c :
  reachable cfg ext c →
  gains_as_configured cfg (robot_cmd c)
  ∧ (∀ cmd c', update cfg ext c = (Ok cmd, c') →
       gains_as_configured cfg cmd ∧ cmd_gains c' = cmd_gains c).
Proof.
  intros (c1 & Hstart & Hrtc).
  assert (Hc : gains_as_configured cfg (robot_cmd c)).
  { apply started_gains in Hstart.
    induction Hrtc as [|c1 c2 c Hstep _ IH]; [exact Hstart|].
    apply IH. apply (gains_as_configured_eq cfg c1); [|exact Hstart].
    eapply step_keeps_cmd_gains, Hstep. }
  split; [exact Hc|].
  intros cmd c' Hu.
  pose proof (update_keeps_cmd_gains cfg ext _ _ _ Hu) as Hk.
  split; [|exact Hk].
  rewrite (update_returns_cmd _ _ _ _ _ Hu).
  eapply gains_as_configured_eq; eassumption.
Qed.

Lemma demo_started : started Demo.cfg Demo.at_start.
Proof.
  exists Demo.imu0, Demo.fresh. split; [exact demo_init|].
  vm_compute. reflexivity.
Qed.

Lemma demo_play_reachable events :
  play Demo.quick Demo.ext events Demo.quick_start
  = (Ok tt, (play Demo.quick Demo.ext events Demo.quick_start).2) →
  reachable Demo.quick Demo.ext
    (play Demo.quick Demo.ext events Demo.quick_start).2.
Proof.
  intros H. exists Demo.quick_start. split; [|exact (play_rtc _ _ _ _ _ H)].
  exists Demo.imu0, Demo.fresh. split; vm_compute; reflexivity.
Qed.

Lemma demo_walking_reachable : reachable Demo.quick Demo.ext Demo.walking.
Proof.
  apply (demo_play_reachable Demo.walking_events). vm_compute. reflexivity.
Qed.

Lemma demo_spinning_reachable : reachable Demo.quick Demo.ext Demo.spinning.
Proof.
  apply (demo_play_reachable Demo.spinning_events). vm_compute. reflexivity.
Qed.

Lemma only_q_is_updated_witness :
  gains_as_configured Demo.cfg
    (robot_cmd (ticks Demo.cfg Demo.ext 3 Demo.at_start).2).
Proof.
  refine (proj1 (only_q_is_updated Demo.cfg Demo.ext
                   (ticks Demo.cfg Demo.ext 3 Demo.at_start).2 _)).
  exists Demo.at_start. split; [exact demo_started|].
  apply (ticks_rtc Demo.cfg Demo.ext 3). vm_compute. reflexivity.
Defined.

(** ** The observation history *)

Lemma deque_append_length {A} n (d : list A) x :
  length (deque_append n d x)
  = if decide (length d < n) then S (length d) else length d.
Proof.
  unfold deque_append. rewrite length_app. cbn [length].
  repeat case_decide; try lia.
  - rewrite length_drop, length_app. cbn. lia.
  - rewrite length_app. cbn. lia.
Qed.

Lemma deque_append_replicate {A} n k (s : A) :
  k ≤ n →
  deque_append n (replicate k s) s
  = if decide (k < n) then replicate (S k) s else replicate k s.
Proof.
  intros Hk. unfold deque_append.
  assert (E : replicate k s ++ [s] = replicate (S k) s).
  { change [s] with (replicate 1 s). rewrite <- replicate_add.
    f_equal. lia. }
  rewrite E, length_replicate.
  repeat case_decide; try lia; reflexivity.
Qed.

Lemma append_all_Ok cfg b g p v a s ph gc c c' :
  append_all cfg b g p v a s ph gc c = (Ok tt, c') →
  ∃ delta,
    np_broadcast Qminus p (init_joint_angles c) = Ok delta ∧
    c' = set_history
           (appended cfg (np_scale b (ang_vel cfg)) g
              (np_scale delta (dof_pos cfg)) (np_scale v (dof_vel cfg))
              a s ph gc (history c)) c.
Proof.
  unfold append_all. intros H. inv_run H.
  eexists. split; [eassumption|]. destruct c. reflexivity.
Qed.

Lemma appended_hold cfg s1 s2 s3 s4 s5 s6 s7 s8 h k :
  queues_hold k h →
  queues_hold (if decide (k < history_length cfg) then S k else k)
    (appended cfg s1 s2 s3 s4 s5 s6 s7 s8 h).
Proof.
  unfold queues_hold, queues, appended. cbn.
  rewrite !Forall_cons. intros H.
  repeat match type of H with
    | _ ∧ _ => let E := fresh "E" in destruct H as [E H]
    end.
  rewrite !deque_append_length.
  repeat split; trivial;
    match goal with [ E : length ?d = k |- context [length ?d] ] => rewrite E end;
    reflexivity.
Qed.

Lemma appended_repeat cfg s1 s2 s3 s4 s5 s6 s7 s8 k :
  k ≤ history_length cfg →
  appended cfg s1 s2 s3 s4 s5 s6 s7 s8
    (mkHistory (replicate k s1) (replicate k s2) (replicate k s3)
       (replicate k s4) (replicate k s5) (replicate k s6) (replicate k s7)
       (replicate k s8))
  = let k' := if decide (k < history_length cfg) then S k else k in
    mkHistory (replicate k' s1) (replicate k' s2) (replicate k' s3)
      (replicate k' s4) (replicate k' s5) (replicate k' s6) (replicate k' s7)
      (replicate k' s8).
Proof.
  intros Hk. unfold appended. cbn [base_ang_vel_queue projected_gravity_queue
    joint_positions_queue joint_velocities_queue actions_queue
    scaled_commands_queue gait_phase_queue gait_command_queue].
  rewrite !deque_append_replicate by assumption.
  case_decide; reflexivity.
Qed.

Section Prefill.
Variable cfg : Config.
Variables b g p v a s ph gc : list Q.
Let n := history_length cfg.
Let body := append_all cfg b g p v a s ph gc.

(** The pre-fill loop runs until the deques are full: from deques of one
    length [k] it leaves them with [n] entries, and the fuel is enough *)
Lemma prefill_hold fuel c c' k :
  queues_hold k (history c) → k ≤ n → n - k ≤ fuel →
  while_short fuel n body c = (Ok tt, c') →
  queues_hold n (history c') ∧ ∃ h, c' = set_history h c.
Proof.
  revert c k. induction fuel as [|fuel IH]; intros c k Hk Hle Hfuel H;
    cbn [while_short] in H.
  - apply ret_Ok in H as [_ ->]. replace n with k by lia.
    split; [assumption|]. exists (history c). destruct c; reflexivity.
  - apply bind_Ok in H as (h & c1 & Hget & H).
    apply get_Ok in Hget as [-> ->].
    assert (Elen : length (base_ang_vel_queue (history c)) = k).
    { unfold queues_hold, queues in Hk. apply Forall_cons in Hk as [E _].
      exact E. }
    rewrite Elen in H. case_decide as Hlt.
    + apply bind_Ok in H as ([] & c1 & Hbody & H).
      apply append_all_Ok in Hbody as (delta & _ & ->).
      apply (IH _ (S k)) in H; [| |lia|lia].
      * destruct H as [Hn [h ->]]. split; [exact Hn|].
        eexists. destruct c; reflexivity.
      * cbn [history set_history].
        eapply (appended_hold cfg) in Hk. fold n in Hk.
        rewrite decide_True in Hk by assumption. exact Hk.
    + apply ret_Ok in H as [_ ->]. replace n with k by lia.
      split; [assumption|]. exists (history c). destruct c; reflexivity.
Qed.

(** The loop of the model stops because its condition fails, not because
    the fuel is used up *)
Lemma prefill_exit c c' :
  while_short n n body c = (Ok tt, c') →
  ¬ length (base_ang_vel_queue (history c')) < n.
Proof.
  assert (G : ∀ fuel c c',
             n - length (base_ang_vel_queue (history c)) ≤ fuel →
             while_short fuel n body c = (Ok tt, c') →
             ¬ length (base_ang_vel_queue (history c')) < n).
  { clear c c'. induction fuel as [|fuel IH]; intros c c' Hfuel H;
      cbn [while_short] in H.
    - apply ret_Ok in H as [_ ->]. lia.
    - apply bind_Ok in H as (h & c1 & Hget & H).
      apply get_Ok in Hget as [-> ->].
      case_decide as Hlt.
      + apply bind_Ok in H as ([] & c1 & Hbody & H).
        apply append_all_Ok in Hbody as (delta & _ & ->).
        apply IH in H; [exact H|].
        cbn [history set_history appended base_ang_vel_queue].
        rewrite deque_append_length. fold n.
        rewrite decide_True by assumption. lia.
      + apply ret_Ok in H as [_ ->]. exact Hlt. }
  apply G. lia.
Qed.

(** Started on empty deques, the loop fills each of them with [n] copies
    of the sample of this tick *)
Lemma prefill_repeat fuel c c' k delta :
  let rep k :=
    mkHistory (replicate k (np_scale b (ang_vel cfg))) (replicate k g)
      (replicate k (np_scale delta (dof_pos cfg)))
      (replicate k (np_scale v (dof_vel cfg))) (replicate k a)
      (replicate k s) (replicate k ph) (replicate k gc) in
  np_broadcast Qminus p (init_joint_angles c) = Ok delta →
  history c = rep k → k ≤ n → n - k ≤ fuel →
  while_short fuel n body c = (Ok tt, c') →
  history c' = rep n.
Proof.
  intros rep. revert c k.
  induction fuel as [|fuel IH]; intros c k Hd Hk Hle Hfuel H;
    cbn [while_short] in H.
  - apply ret_Ok in H as [_ ->]. replace n with k by lia. exact Hk.
  - apply bind_Ok in H as (h & c1 & Hget & H).
    apply get_Ok in Hget as [-> ->].
    assert (Elen : length (base_ang_vel_queue (history c)) = k).
    { rewrite Hk. cbn. apply length_replicate. }
    rewrite Elen in H. case_decide as Hlt.
    + apply bind_Ok in H as ([] & c1 & Hbody & H).
      apply append_all_Ok in Hbody as (delta' & Hd' & ->).
      assert (delta' = delta) as -> by congruence.
      apply (IH _ (S k)) in H; [exact H|destruct c; exact Hd| |lia|lia].
      cbn [history set_history]. rewrite Hk. unfold rep.
      rewrite appended_repeat by assumption. fold n. cbn zeta.
      rewrite decide_True by assumption. reflexivity.
    + apply ret_Ok in H as [_ ->]. replace n with k by lia. exact Hk.
Qed.

Lemma prefill_frame fuel c c' :
  while_short fuel n body c = (Ok tt, c') → ∃ h, c' = set_history h c.
Proof.
  revert c. induction fuel as [|fuel IH]; intros c H; cbn [while_short] in H.
  - apply ret_Ok in H as [_ ->]. exists (history c). destruct c; reflexivity.
  - apply bind_Ok in H as (h & c1 & Hget & H).
    apply get_Ok in Hget as [-> ->].
    case_decide.
    + apply bind_Ok in H as ([] & c1 & Hbody & H).
      apply append_all_Ok in Hbody as (delta & _ & ->).
      apply IH in H as [h ->]. eexists. destruct c; reflexivity.
    + apply ret_Ok in H as [_ ->]. exists (history c). destruct c; reflexivity.
Qed.

(** Pre-fill followed by the append of the tick *)
Lemma prefill_then_append c c1 c2 :
  while_short n n body c = (Ok tt, c1) →
  body c1 = (Ok tt, c2) →
  ∃ h', c2 = set_history h' c ∧
        (∀ k, queues_hold k (history c) → k ≤ n → queues_hold n h') ∧
        (history c = empty_history → queues_repeat n h').
Proof.
  intros Hloop Happ.
  destruct (prefill_frame _ _ _ Hloop) as [h1 E1]. subst c1.
  apply append_all_Ok in Happ as (delta & Hdelta & ->).
  eexists. split; [|split].
  - destruct c; reflexivity.
  - intros k Hk Hle.
    eapply prefill_hold in Hloop as [Hn _]; [|exact Hk|exact Hle|lia].
    eapply (appended_hold cfg) in Hn. fold n in Hn.
    rewrite decide_False in Hn by lia. exact Hn.
  - intros He.
    assert (Hd : np_broadcast Qminus p (init_joint_angles c) = Ok delta).
    { destruct c; exact Hdelta. }
    eapply (prefill_repeat _ _ _ 0 delta) in Hloop;
      [|exact Hd|rewrite He; reflexivity|lia|lia].
    rewrite Hloop, appended_repeat by reflexivity. fold n. cbn zeta.
    rewrite decide_False by lia.
    unfold queues_repeat, queues. cbn.
    repeat constructor; eexists; reflexivity.
Qed.
End Prefill.


(** What a call of [compute_observation] that returns has done: the history
    is the one after pre-fill and append, and the observation is the
    concatenation of the flattened deques, not clipped, followed by the
    latent vector that the encoder returns for the clipped concatenation *)
Lemma compute_observation_Ok cfg ext c c' :
  compute_observation cfg ext c = (Ok tt, c') →
  ∃ h' parts latent,
    c' = set_observations (concat parts ++ latent) (set_history h' c) ∧
    Forall2 (λ d o, np_flatten d = Ok o) (queues h') parts ∧
    encoder_run ext
      (np_clip (concat parts) (- clip_observations cfg)%Q (clip_observations cfg))
    = Ok latent ∧
    (∀ k, queues_hold k (history c) → k ≤ history_length cfg →
          queues_hold (history_length cfg) h') ∧
    (history c = empty_history → queues_repeat (history_length cfg) h').
Proof.
  unfold compute_observation, compute_gait_phase, compute_encoder_latent.
  intros H. inv_run H.
  repeat match goal with
    | [ E : mbind _ _ _ = (Ok _, _) |- _ ] => inv_run E
    end.
  match goal with
  | [ Hw : while_short _ _ _ _ = (Ok ?u, _),
      Ha : append_all _ _ _ _ _ _ _ _ _ _ = (Ok ?u', _) |- _ ] =>
      destruct u, u';
      destruct (prefill_then_append _ _ _ _ _ _ _ _ _ _ _ _ Hw Ha)
        as (h' & E & Hhold & Hrep)
  end.
  rewrite E in *. cbn [history set_history] in *.
  exists h'. eexists [_; _; _; _; _; _; _; _], _.
  split; [|split; [|split; [|split; [exact Hhold | exact Hrep]]]].
  2: { repeat constructor; eassumption. }
  2: { cbn [concat]. rewrite app_nil_r. eassumption. }
  cbn [concat]. rewrite app_nil_r. reflexivity.
Qed.

Lemma walk_loop_keeps_history cfg n jp jv :
  keeps history (for_range n (walk_joint cfg jp jv)).
Proof. solve_keeps. Qed.

Lemma compute_actions_keeps_history ext : keeps history (compute_actions ext).
Proof. solve_keeps. Qed.

Lemma handle_stand_mode_keeps_history cfg : keeps history (handle_stand_mode cfg).
Proof. solve_keeps. Qed.

Lemma callbacks_keep_history :
  (∀ msg, keeps history (robot_state_callback msg)) ∧
  (∀ msg, keeps history (imu_data_callback msg)) ∧
  (∀ msg, keeps history (sensor_joy_callback msg)).
Proof. repeat split; intros; solve_keeps. Qed.

Lemma run_init_keeps_history cfg : keeps history (run_init cfg).
Proof. solve_keeps. Qed.

Lemma py_mod_Ok a b r : py_mod a b = Ok r ↔ b ≠ 0%Z ∧ r = (a mod b)%Z.
Proof.
  unfold py_mod. case_decide; split.
  - discriminate.
  - intros [? _]. contradiction.
  - intros [= <-]. auto.
  - intros [_ ->]. reflexivity.
Qed.

(** In a WALK tick the history changes only through [compute_observation],
    which runs when the loop count is a multiple of the decimation *)
Lemma handle_walk_mode_history cfg ext c c' :
  handle_walk_mode cfg ext c = (Ok tt, c') →
  ((loop_count c mod decimation cfg)%Z ≠ 0%Z ∧ history c' = history c)
  ∨ ((loop_count c mod decimation cfg)%Z = 0%Z ∧
     ∃ c1 c2, history c1 = history c ∧
              compute_observation cfg ext c1 = (Ok tt, c2) ∧
              history c' = history c2).
Proof.
  unfold handle_walk_mode. intros H. inv_run H.
  apply walk_loop_keeps_history in H.
  match goal with
  | [ Hm : py_mod _ _ = Ok _ |- _ ] =>
      apply py_mod_Ok in Hm as [_ Hm]; cbn in Hm; subst
  end.
  match goal with
  | [ Hif : (if decide (?r = 0%Z) then _ else _) _ = (Ok _, _) |- _ ] =>
      destruct (decide (r = 0%Z)) as [Hr|Hr]; inv_run Hif
  end.
  - right. split; [exact Hr|].
    match goal with
    | [ Ho : compute_observation _ _ ?c1 = (Ok ?u, ?c2),
        Ha : compute_actions _ _ = (Ok _, _) |- _ ] =>
        destruct u; exists c1, c2;
        apply compute_actions_keeps_history in Ha
    end.
    split; [reflexivity|]. split; [eassumption|].
    rewrite H. cbn [history set_actions]. assumption.
  - left. split; [exact Hr|]. rewrite H. reflexivity.
Qed.

Lemma update_history cfg ext c cmd c' :
  update cfg ext c = (Ok cmd, c') →
  history c' = history c
  ∨ ∃ c1 c2, history c1 = history c ∧
             compute_observation cfg ext c1 = (Ok tt, c2) ∧
             history c' = history c2.
Proof.
  intros H. destruct (mode c) eqn:Hm.
  - left. rewrite update_STAND in H by assumption.
    apply bind_Ok in H as (u & c1 & Hs & H). inv_run H.
    cbn [history set_loop_count].
    eapply handle_stand_mode_keeps_history, Hs.
  - rewrite update_WALK in H by assumption.
    apply bind_Ok in H as ([] & c1 & Hw & H). inv_run H.
    cbn [history set_loop_count].
    apply handle_walk_mode_history in Hw as [[_ Hw]|[_ Hw]]; auto.
Qed.

Lemma step_history cfg ext c c' :
  step cfg ext c c' →
  history c' = history c
  ∨ ∃ c1 c2, history c1 = history c ∧
             compute_observation cfg ext c1 = (Ok tt, c2) ∧
             history c' = history c2.
Proof.
  destruct callbacks_keep_history as (Hs & Hi & Hj).
  intros [c0 cmd c1 H | msg c0 r c1 H | msg c0 r c1 H | msg c0 r c1 H].
  - eapply update_history, H.
  - left. eapply Hs, H.
  - left. eapply Hi, H.
  - left. eapply Hj, H.
Qed.

Lemma compute_observation_fills cfg ext c c' k :
  queues_hold k (history c) → k ≤ history_length cfg →
  compute_observation cfg ext c = (Ok tt, c') →
  queues_hold (history_length cfg) (history c').
Proof.
  intros Hk Hle H.
  apply compute_observation_Ok in H as (h' & parts & latent & -> & _ & _ & Hh & _).
  cbn [history set_observations set_history]. eapply Hh; eassumption.
Qed.

Lemma step_keeps_full cfg ext c c' :
  queues_hold (history_length cfg) (history c) → step cfg ext c c' →
  queues_hold (history_length cfg) (history c').
Proof.
  intros Hfull Hstep.
  destruct (step_history _ _ _ _ Hstep) as [-> | (c1 & c2 & E1 & Hobs & ->)];
    [assumption|].
  rewrite <- E1 in Hfull.
  eapply compute_observation_fills; [exact Hfull | lia | exact Hobs].
Qed.

Lemma reachable_history cfg ext c :
  reachable cfg ext c →
  history c = empty_history ∨ queues_hold (history_length cfg) (history c).
Proof.
  intros (c1 & (imu0 & c0 & Hinit & Hrun) & Hrtc).
  assert (H1 : history c1 = empty_history).
  { rewrite (run_init_keeps_history _ _ _ _ Hrun).
    apply init_Ok in Hinit as (? & ? & _ & ->). reflexivity. }
  clear Hinit Hrun.
  assert (G : history c1 = empty_history
              ∨ queues_hold (history_length cfg) (history c1)) by auto.
  clear H1. induction Hrtc as [|c1 c2 c Hstep _ IH]; [exact G|].
  apply IH.
  destruct (step_history _ _ _ _ Hstep) as [-> | (c3 & c4 & E1 & Hobs & ->)];
    [exact G|].
  right. rewrite <- E1 in G. destruct G as [G|G].
  - eapply (compute_observation_fills _ _ _ _ 0); [|lia|exact Hobs].
    rewrite G. unfold queues_hold, queues. cbn. repeat constructor.
  - eapply compute_observation_fills; [exact G|lia|exact Hobs].
Qed.

Lemma compute_gait_phase_same cfg ext c r c' :
  compute_gait_phase cfg ext c = (r, c') → c' = c.
Proof.
  assert (K : keeps (λ c, c) (compute_gait_phase cfg ext))
    by (unfold compute_gait_phase; solve_keeps).
  apply K.
Qed.

(** Pre-fill and append on empty deques: every deque ends up with
    [history_length] copies of the sample that was appended *)
Lemma first_fill cfg b g p v a s ph gc c c1 c2 :
  history c = empty_history →
  while_short (history_length cfg) (history_length cfg)
    (append_all cfg b g p v a s ph gc) c = (Ok tt, c1) →
  append_all cfg b g p v a s ph gc c1 = (Ok tt, c2) →
  ∃ delta,
    np_broadcast Qminus p (init_joint_angles c) = Ok delta ∧
    queues (history c2)
    = map (replicate (history_length cfg))
        [np_scale b (ang_vel cfg); g; np_scale delta (dof_pos cfg);
         np_scale v (dof_vel cfg); a; s; ph; gc].
Proof.
  intros He Hloop Happ.
  destruct (prefill_frame _ _ _ _ _ _ _ _ _ _ _ _ Hloop) as [h1 E1]. subst c1.
  apply append_all_Ok in Happ as (delta & Hdelta & ->).
  assert (Hd : np_broadcast Qminus p (init_joint_angles c) = Ok delta).
  { destruct c; exact Hdelta. }
  exists delta. split; [exact Hd|].
  eapply (prefill_repeat _ _ _ _ _ _ _ _ _ _ _ _ 0 delta) in Hloop;
    [|exact Hd|rewrite He; reflexivity|lia|lia].
  cbn [history set_history] in Hloop |- *. rewrite Hloop.
  rewrite appended_repeat by reflexivity. cbn zeta.
  rewrite decide_False by lia. reflexivity.
Qed.

(** The first call of [compute_observation]: every deque holds
    [history_length] copies of the sample of this tick *)
Lemma compute_observation_first cfg ext c c' :
  history c = empty_history →
  compute_observation cfg ext c = (Ok tt, c') →
  ∃ smp, current_sample cfg ext c smp ∧
         queues (history c') = map (replicate (history_length cfg)) smp.
Proof.
  unfold compute_observation. intros He H.
  apply bind_Ok in H as (imu & c1 & E & H). apply get_Ok in E as [-> ->].
  apply bind_Ok in H as (inverse_rot & c1 & E & H).
  apply lift_Ok in E as [Hinv ->].
  apply bind_Ok in H as (g0 & c1 & E & H). apply lift_Ok in E as [Hg0 ->].
  apply bind_Ok in H as (imu & c1 & E & H). apply get_Ok in E as [-> ->].
  apply bind_Ok in H as (rot & c1 & E & H). apply lift_Ok in E as [Hrot ->].
  apply bind_Ok in H as (b & c1 & E & H). apply lift_Ok in E as [Hb ->].
  apply bind_Ok in H as (g & c1 & E & H). apply lift_Ok in E as [Hg ->].
  apply bind_Ok in H as (tmp & c1 & E & H). apply get_Ok in E as [-> ->].
  apply bind_Ok in H as (la & c1 & E & H). apply get_Ok in E as [-> ->].
  apply bind_Ok in H as (cmds & c1 & E & H). apply get_Ok in E as [-> ->].
  apply bind_Ok in H as (s & c1 & E & H). apply lift_Ok in E as [Hs ->].
  apply bind_Ok in H as (ph & c1 & Hph & H).
  pose proof (compute_gait_phase_same _ _ _ _ _ Hph) as ->.
  apply bind_Ok in H as (gc & c1 & E & H). apply get_Ok in E as [-> ->].
  apply bind_Ok in H as ([] & c1 & Hloop & H).
  apply bind_Ok in H as ([] & c2 & Happ & H).
  destruct (first_fill _ _ _ _ _ _ _ _ _ _ _ _ He Hloop Happ)
    as (delta & Hdelta & Hq).
  assert (Hh : history c' = history c2).
  { unfold compute_encoder_latent in H. inv_run H. reflexivity. }
  rewrite Hh, Hq.
  eexists. split; [|reflexivity].
  exists inverse_rot, rot, g0, b, g, delta, s, ph.
  repeat (split; [assumption|]). reflexivity.
Qed.

(** C7.  The pre-fill invariant.  Before [compute_observation] has run the
    eight deques are empty.  A call of [compute_observation] in any state of
    the run leaves every one of the eight with exactly [history_length]
    entries.  On the first call, on empty deques, these are
    [history_length] copies of the current sample: the angular velocity of
    the IMU snapshot, rotated and scaled, the projected gravity, the scaled
    joint positions relative to the neutral pose and the scaled joint
    velocities of the aligned state, the last actions, the scaled joystick
    commands, the gait phase and the gait command of this tick (the sample
    is appended until the deque is full and then once more, which evicts
    the oldest copy).  Every later step of the run, tick or callback, keeps
    the eight deques at exactly [history_length] entries. *)
Theorem history_prefill_invariant cfg ext :
  let n := history_length cfg in
  (∀ c, reachable cfg ext c →
        history c = empty_history ∨ queues_hold n (history c))
  ∧ (∀ c c', reachable cfg ext c →
             compute_observation cfg ext c = (Ok tt, c') →
             queues_hold n (history c'))
  ∧ (∀ c c', history c = empty_history →
             compute_observation cfg ext c = (Ok tt, c') →
             ∃ smp, current_sample cfg ext c smp ∧
                    queues (history c') = map (replicate n) smp)
  ∧ (∀ c cmd c', reachable cfg ext c → mode c = WALK →
                 (loop_count c mod decimation cfg)%Z = 0%Z →
                 update cfg ext c = (Ok cmd, c') →
                 queues_hold n (history c'))
  ∧ (∀ c c', queues_hold n (history c) → step cfg ext c c' →
             queues_hold n (history c')).
Proof.
  intros n. split; [|split; [|split; [|split]]].
  - apply reachable_history.
  - intros c c' Hr Hobs.
    destruct (reachable_history _ _ _ Hr) as [G|G].
    + eapply (compute_observation_fills _ _ _ _ 0); [|lia|exact Hobs].
      rewrite G. unfold queues_hold, queues. cbn. repeat constructor.
    + eapply compute_observation_fills; [exact G|lia|exact Hobs].
  - intros c c' He Hobs. apply compute_observation_first; assumption.
  - intros c cmd c' Hr Hm Hdec Hu.
    rewrite update_WALK in Hu by assumption.
    apply bind_Ok in Hu as ([] & c1 & Hw & Hu). inv_run Hu.
    cbn [history set_loop_count].
    apply handle_walk_mode_history in Hw
      as [[Hne _]|[_ (c2 & c3 & E & Hobs & ->)]]; [contradiction|].
    destruct (reachable_history _ _ _ Hr) as [G|G]; rewrite <- E in G.
    + eapply (compute_observation_fills _ _ _ _ 0); [|lia|exact Hobs].
      rewrite G. unfold queues_hold, queues. cbn. repeat constructor.
    + eapply compute_observation_fills; [exact G|lia|exact Hobs].
  - apply step_keeps_full.
Qed.

Lemma demo_first_observation :
  history Demo.at_start = empty_history ∧
  compute_observation Demo.cfg Demo.ext Demo.at_start
  = (Ok tt, (compute_observation Demo.cfg Demo.ext Demo.at_start).2).
Proof. split; vm_compute; reflexivity. Qed.

Lemma history_prefill_invariant_witness :
  ∃ smp, current_sample Demo.cfg Demo.ext Demo.at_start smp ∧
         queues (history (compute_observation Demo.cfg Demo.ext
                            Demo.at_start).2)
         = map (replicate 2) smp.
Proof.
  exact (proj1 (proj2 (proj2 (history_prefill_invariant Demo.cfg Demo.ext)))
           Demo.at_start _ (proj1 demo_first_observation)
           (proj2 demo_first_observation)).
Defined.

(** ** Standing up *)

Lemma bind_get {A B} (f : Controller → A) (k : A → M B) c :
  (get f ≫= k) c = k (f c) c.
Proof. reflexivity. Qed.

Lemma bind_put {B} g (k : unit → M B) c : (put g ≫= k) c = k tt (g c).
Proof. reflexivity. Qed.

Lemma bind_lift_Ok {A B} (r : result A) a (k : A → M B) c :
  r = Ok a → (lift r ≫= k) c = k a c.
Proof. intros ->. reflexivity. Qed.

Lemma bind_run_Ok {A B} (m : M A) a c1 (k : A → M B) c :
  m c = (Ok a, c1) → (m ≫= k) c = k a c1.
Proof. intros H. unfold mbind, M_bind. rewrite H. reflexivity. Qed.

Lemma Qltb_true x y : Qltb x y = true ↔ (x < y)%Q.
Proof.
  unfold Qltb. rewrite negb_true_iff. split.
  - intros H. apply Qnot_le_lt. intros Hle.
    apply Qle_bool_iff in Hle. congruence.
  - intros H. destruct (Qle_bool y x) eqn:E; [|reflexivity].
    apply Qle_bool_iff in E. apply Qlt_not_le in H. contradiction.
Qed.

Lemma Qltb_false x y : Qltb x y = false ↔ (y <= x)%Q.
Proof.
  unfold Qltb. rewrite negb_false_iff. apply Qle_bool_iff.
Qed.

Lemma fill_init_joint_angles_known cfg i n arr arr' :
  fill_init_joint_angles cfg i n arr = Ok arr' →
  ∀ j, i ≤ j < i + n →
       ∃ name v, joint_names cfg !! j = Some name ∧
                 default_joint_angle cfg !! name = Some v.
Proof.
  revert i arr. induction n as [|n IH]; intros i arr H j Hj; [lia|].
  cbn [fill_init_joint_angles] in H.
  apply rbind_Ok in H as (name & Hname & H).
  apply rbind_Ok in H as (v & Hv & H).
  apply rbind_Ok in H as (arr1 & _ & H).
  destruct (decide (j = i)) as [->|Hne].
  - exists name, v. apply getitem_Ok in Hname. split; [exact Hname|].
    unfold dict_get in Hv. destruct (default_joint_angle cfg !! name);
      congruence.
  - eapply IH; [exact H | lia].
Qed.

Lemma stand_joint_Ok cfg c j :
  angles_known cfg → 5 ≤ joint_num cfg → ready_to_stand cfg c →
  j < joint_num cfg →
  ∃ q', length q' = joint_num cfg ∧
        stand_joint cfg j c
        = (Ok tt, set_robot_cmd (RobotCmd.set_q q' (robot_cmd c)) c).
Proof.
  intros Hknown H5 [Hq Hd] Hj.
  destruct (Hknown j Hj) as (name & v & Hname & Hv).
  destruct (lookup_lt_is_Some_2 (default_joint_angles c) j) as [d Hdj]; [lia|].
  unfold stand_joint.
  rewrite bind_get.
  rewrite (bind_lift_Ok _ d) by (apply getitem_Ok; exact Hdj).
  rewrite bind_get.
  rewrite (bind_lift_Ok _ name) by (apply getitem_Ok; exact Hname).
  rewrite (bind_lift_Ok _ v) by (unfold dict_get; rewrite Hv; reflexivity).
  cbn zeta. rewrite set_joint_command_aligned_slot.
  eexists. split; [|apply set_cmd_q_Ok; split; [|reflexivity]].
  - rewrite length_insert. exact Hq.
  - rewrite Hq. apply toPhysical_lt; assumption.
Qed.

Lemma stand_loop_Ok cfg :
  angles_known cfg → 5 ≤ joint_num cfg →
  ∀ n start c,
    ready_to_stand cfg c → start + n ≤ joint_num cfg →
    ∃ q', length q' = joint_num cfg ∧
          for_from start n (stand_joint cfg) c
          = (Ok tt, set_robot_cmd (RobotCmd.set_q q' (robot_cmd c)) c).
Proof.
  intros Hknown H5. induction n as [|n IH]; intros start c Hready Hle.
  - exists (RobotCmd.q (robot_cmd c)). split; [apply Hready|].
    cbn. destruct c as [[] ]; reflexivity.
  - destruct (stand_joint_Ok cfg c start Hknown H5 Hready) as (q1 & Hq1 & E1);
      [lia|].
    cbn [for_from]. rewrite (bind_run_Ok _ _ _ _ _ E1).
    edestruct (IH (S start)) as (q2 & Hq2 & E2); [| |rewrite E2].
    + destruct Hready as [_ Hd]. split; [exact Hq1 | exact Hd].
    + lia.
    + exists q2. split; [exact Hq2|]. destruct c as [[] ]; reflexivity.
Qed.

Lemma ticks_snoc cfg ext n c c1 cmd c2 :
  ticks cfg ext n c = (Ok tt, c1) → update cfg ext c1 = (Ok cmd, c2) →
  ticks cfg ext (S n) c = (Ok tt, c2).
Proof.
  revert c. induction n as [|n IH]; intros c H Hu.
  - apply ret_Ok in H as [_ ->]. cbn [ticks].
    rewrite (bind_run_Ok _ _ _ _ _ Hu). reflexivity.
  - cbn [ticks] in H. apply bind_Ok in H as (cmd' & c' & Hu' & H).
    change (ticks cfg ext (S (S n)) c)
      with ((update cfg ext ≫= λ _, ticks cfg ext (S n)) c).
    rewrite (bind_run_Ok _ _ _ _ _ Hu'). apply IH; assumption.
Qed.

Section Stand.
Variable cfg : Config.
Variable ext : Extern.
Variable N : nat.
Hypothesis N_pos : 0 < N.
Hypothesis period :
  (stand_duration cfg * loop_frequency cfg == inject_Z (Z.of_nat N))%Q.

Let inc : Q := (1 / (stand_duration cfg * loop_frequency cfg))%Q.

Lemma increment_Ok :
  py_div 1 (stand_duration cfg * loop_frequency cfg) = Ok inc.
Proof.
  unfold py_div. destruct (Qeq_bool _ 0) eqn:E; [|reflexivity].
  apply Qeq_bool_iff in E. rewrite period in E.
  exfalso. revert E. unfold Qeq. cbn. lia.
Qed.

Lemma increment_value m :
  (inject_Z (Z.of_nat m) / inject_Z (Z.of_nat N) + inc
   == inject_Z (Z.of_nat (S m)) / inject_Z (Z.of_nat N))%Q.
Proof.
  unfold inc. rewrite period.
  rewrite Nat2Z.inj_succ. unfold Z.succ. rewrite inject_Z_plus.
  field. intros E. revert E. unfold Qeq. cbn. lia.
Qed.

Lemma fraction_lt_1 m :
  m < N → (inject_Z (Z.of_nat m) / inject_Z (Z.of_nat N) < 1)%Q.
Proof.
  intros Hm. apply Qlt_shift_div_r.
  - change 0%Q with (inject_Z 0). rewrite <- Zlt_Qlt. lia.
  - rewrite Qmult_1_l. rewrite <- Zlt_Qlt. lia.
Qed.

Lemma fraction_eq_1 :
  (inject_Z (Z.of_nat N) / inject_Z (Z.of_nat N) == 1)%Q.
Proof. field. intros E. revert E. unfold Qeq. cbn. lia. Qed.

Hypothesis known : angles_known cfg.
Hypothesis five : 5 ≤ joint_num cfg.

(** A STAND tick below 100 percent: every joint gets its interpolated
    target, and [stand_percent] grows by the increment *)
Lemma update_standing c :
  mode c = STAND → ready_to_stand cfg c → (stand_percent c < 1)%Q →
  ∃ cmd c', update cfg ext c = (Ok cmd, c') ∧
            mode c' = STAND ∧ ready_to_stand cfg c' ∧
            stand_percent c' = (stand_percent c + inc)%Q.
Proof.
  intros Hm Hready Hlt.
  destruct (stand_loop_Ok cfg known five (joint_num cfg) 0 c Hready)
    as (q' & Hq' & Eloop); [lia|].
  assert (Hs : handle_stand_mode cfg c
               = (Ok tt, set_stand_percent (stand_percent c + inc)
                           (set_robot_cmd (RobotCmd.set_q q' (robot_cmd c)) c))).
  { unfold handle_stand_mode. rewrite bind_get.
    rewrite (proj2 (Qltb_true _ _) Hlt).
    unfold for_range. fold (joint_num cfg).
    rewrite (bind_run_Ok _ _ _ _ _ Eloop), bind_get.
    rewrite (bind_lift_Ok _ _ _ _ increment_Ok). reflexivity. }
  eexists _, _. split.
  - rewrite update_STAND by assumption.
    rewrite (bind_run_Ok _ _ _ _ _ Hs). reflexivity.
  - cbn. split; [exact Hm|]. split; [|reflexivity].
    destruct Hready as [_ Hd]. split; assumption.
Qed.

(** A STAND tick at 100 percent only switches the mode *)
Lemma update_stood_up c :
  mode c = STAND → (1 <= stand_percent c)%Q →
  update cfg ext c
  = (Ok (robot_cmd c), set_loop_count (loop_count c + 1) (set_mode WALK c)).
Proof.
  intros Hm Hle.
  assert (Hs : handle_stand_mode cfg c = (Ok tt, set_mode WALK c)).
  { unfold handle_stand_mode. rewrite bind_get.
    rewrite (proj2 (Qltb_false _ _) Hle). reflexivity. }
  rewrite update_STAND by assumption.
  rewrite (bind_run_Ok _ _ _ _ _ Hs). reflexivity.
Qed.

Lemma stand_run k : ∀ c m,
  mode c = STAND → ready_to_stand cfg c →
  (stand_percent c == inject_Z (Z.of_nat m) / inject_Z (Z.of_nat N))%Q →
  m + k ≤ N →
  ∃ c', ticks cfg ext k c = (Ok tt, c') ∧
        mode c' = STAND ∧ ready_to_stand cfg c' ∧
        (stand_percent c'
         == inject_Z (Z.of_nat (m + k)) / inject_Z (Z.of_nat N))%Q.
Proof.
  induction k as [|k IH]; intros c m Hm Hready Hsp Hle.
  - exists c. rewrite Nat.add_0_r. auto.
  - destruct (update_standing c Hm Hready) as (cmd & c1 & Hu & Hm1 & Hr1 & Hsp1).
    { rewrite Hsp. apply fraction_lt_1. lia. }
    destruct (IH c1 (S m) Hm1 Hr1) as (c' & Ht & Hm' & Hr' & Hsp'); [|lia|].
    { rewrite Hsp1, Hsp. apply increment_value. }
    exists c'. split; [|split; [exact Hm'|split; [exact Hr'|]]].
    + cbn [ticks]. rewrite (bind_run_Ok _ _ _ _ _ Hu). exact Ht.
    + rewrite Hsp'. replace (S m + k) with (m + S k) by lia. reflexivity.
Qed.
End Stand.

Lemma started_facts cfg c :
  started cfg c →
  angles_known cfg ∧ mode c = STAND ∧ ready_to_stand cfg c ∧
  loop_count c = 0%Z ∧ history c = empty_history ∧
  ∃ inc, py_div 1 (stand_duration cfg * loop_frequency cfg) = Ok inc ∧
         stand_percent c = (0 + inc)%Q.
Proof.
  intros (imu0 & c0 & Hinit & Hrun).
  apply init_Ok in Hinit as (angles & quat & Hfill & ->).
  unfold run_init in Hrun. inv_run Hrun. cbn.
  split; [|split; [reflexivity|split; [|split; [reflexivity|split; [reflexivity|]]]]].
  - intros j Hj. eapply fill_init_joint_angles_known; [exact Hfill | lia].
  - split; cbn; rewrite length_replicate; reflexivity.
  - eexists. split; [eassumption | reflexivity].
Qed.

(** C9.  With standDuration = 2 and loopFrequency = 500 (and a leg of five
    or more joints, which the remapping needs), counted from the start of
    the loop of [run]: after k < 1000 ticks the mode is still STAND and
    standPercent is (k+1)/1000, the increment made by [run] before the loop
    included, so that standPercent is 1 after tick 999; tick 1000 is the
    one that switches to WALK.  The run reaches WALK after exactly 1000
    ticks, with standPercent = 1. *)
Theorem stand_takes_1000_ticks cfg ext c :
  (stand_duration cfg == 2)%Q → (loop_frequency cfg == 500)%Q →
  5 ≤ joint_num cfg → started cfg c →
  (∀ k, k < 1000 →
        ∃ ck, ticks cfg ext k c = (Ok tt, ck) ∧ mode ck = STAND ∧
              (stand_percent ck == Z.of_nat (k + 1) # 1000)%Q)
  ∧ (∃ c', ticks cfg ext 1000 c = (Ok tt, c') ∧ mode c' = WALK ∧
           (stand_percent c' == 1)%Q).
Proof.
  intros Hsd Hlf H5 Hstart.
  destruct (started_facts _ _ Hstart)
    as (Hknown & Hm & Hready & _ & _ & inc & Hinc & Hsp).
  assert (Hperiod : (stand_duration cfg * loop_frequency cfg
                     == inject_Z (Z.of_nat 1000))%Q).
  { rewrite Hsd, Hlf. reflexivity. }
  assert (Hpos : 0 < 1000) by lia.
  assert (Hsp1 : (stand_percent c
                  == inject_Z (Z.of_nat 1) / inject_Z (Z.of_nat 1000))%Q).
  { rewrite Hsp.
    rewrite (increment_Ok cfg 1000 Hpos Hperiod) in Hinc.
    injection Hinc as <-. rewrite Hperiod. reflexivity. }
  assert (Hrun : ∀ k, k < 1000 →
            ∃ ck, ticks cfg ext k c = (Ok tt, ck) ∧ mode ck = STAND ∧
                  ready_to_stand cfg ck ∧
                  (stand_percent ck == Z.of_nat (k + 1) # 1000)%Q).
  { intros k Hk.
    destruct (stand_run cfg ext 1000 Hpos Hperiod Hknown H5 k c 1 Hm Hready Hsp1)
      as (ck & Ht & Hmk & Hrk & Hspk); [lia|].
    exists ck. split; [exact Ht|]. split; [exact Hmk|]. split; [exact Hrk|].
    rewrite Hspk, Qmake_Qdiv. replace (k + 1) with (1 + k) by lia.
    reflexivity. }
  split.
  - intros k Hk. destruct (Hrun k Hk) as (ck & Ht & Hmk & _ & Hspk). eauto.
  - destruct (Hrun 999) as (ck & Ht & Hmk & _ & Hspk); [lia|].
    assert (Hone : (stand_percent ck == 1)%Q) by (rewrite Hspk; reflexivity).
    eexists. split; [|split].
    + eapply ticks_snoc; [exact Ht|].
      apply update_stood_up; [exact Hmk|]. rewrite Hone. apply Qle_refl.
    + reflexivity.
    + exact Hone.
Qed.

Lemma stand_takes_1000_ticks_witness :
  ∃ c', ticks Demo.cfg Demo.ext 1000 Demo.at_start = (Ok tt, c') ∧
        mode c' = WALK ∧ (stand_percent c' == 1)%Q.
Proof.
  refine (proj2 (stand_takes_1000_ticks Demo.cfg Demo.ext Demo.at_start
                   _ _ _ demo_started)).
  - reflexivity.
  - reflexivity.
  - cbn. lia.
Defined.

(** ** The WALK loop over the joints *)

Lemma np_div_Ok x y z : np_div x y = Ok z ↔ ¬ (y == 0)%Q ∧ z = (x / y)%Q.
Proof.
  unfold np_div. destruct (Qeq_bool y 0) eqn:E; split.
  - discriminate.
  - intros [Hn _]. apply Qeq_bool_iff in E. contradiction.
  - intros [= <-]. split; [|reflexivity]. apply Qeq_bool_neq, E.
  - intros [_ ->]. reflexivity.
Qed.

Ltac same_lookup :=
  repeat match goal with
    | [ E1 : ?l !! ?i = Some ?a, E2 : ?l !! ?i = Some ?b |- _ ] =>
        assert (b = a) by congruence; subst b; clear E2
    end.

Lemma walk_joint_Ok cfg jp jv i c c' :
  walk_joint cfg jp jv i c = (Ok tt, c') →
  ∃ q q0 dq a,
    jp !! i = Some q ∧ init_joint_angles c !! i = Some q0 ∧
    jv !! i = Some dq ∧ actions c !! i = Some a ∧
    toPhysical i < length (RobotCmd.q (robot_cmd c)) ∧
    i < length (last_actions c) ∧
    c' = walk_joint_effect cfg i (clamp_action cfg q q0 dq a) q0 c.
Proof.
  unfold walk_joint. intros H. inv_run H.
  repeat match goal with
    | [ E : np_div _ _ = Ok _ |- _ ] => apply np_div_Ok in E; destruct E as [? ?]
    end.
  subst.
  cbn [actions set_actions init_joint_angles last_actions set_robot_cmd] in *.
  same_lookup.
  match goal with
  | [ E : set_joint_command_aligned _ _ _ = (Ok _, _) |- _ ] =>
      rewrite set_joint_command_aligned_slot in E;
      apply set_cmd_q_Ok in E; destruct E as [Hlt ->]
  end.
  cbn [actions set_actions init_joint_angles last_actions set_robot_cmd
       robot_cmd] in *.
  repeat match goal with
    | [ E : <[i:=_]> _ !! i = Some _ |- _ ] =>
        rewrite list_lookup_insert_eq in E by assumption;
        injection E as <-
    end.
  eexists _, _, _, _.
  repeat (split; [eassumption|]). reflexivity.
Qed.

Lemma walk_loop_keeps_angles cfg jp jv start n :
  keeps init_joint_angles (for_from start n (walk_joint cfg jp jv)).
Proof. solve_keeps. Qed.

(** The loop over the joints [start, start + n): each of them gets its
    clamped action and its position command; nothing else is touched in
    the action vector and in the command *)
Lemma walk_loop_Ok cfg jp jv n : ∀ start c c',
  for_from start n (walk_joint cfg jp jv) c = (Ok tt, c') →
  (∀ i, start ≤ i < start + n →
        ∃ q q0 dq a,
          jp !! i = Some q ∧ init_joint_angles c !! i = Some q0 ∧
          jv !! i = Some dq ∧ actions c !! i = Some a ∧
          actions c' !! i = Some (clamp_action cfg q q0 dq a) ∧
          RobotCmd.q (robot_cmd c') !! toPhysical i
          = Some (pos_des cfg (clamp_action cfg q q0 dq a) q0))
  ∧ (∀ i, ¬ (start ≤ i < start + n) → actions c' !! i = actions c !! i)
  ∧ (∀ p, (∀ i, start ≤ i < start + n → toPhysical i ≠ p) →
          RobotCmd.q (robot_cmd c') !! p = RobotCmd.q (robot_cmd c) !! p).
Proof.
  induction n as [|n IH]; intros start c c' H; cbn [for_from] in H.
  - apply ret_Ok in H as [_ ->]. repeat split; auto. intros i Hi. lia.
  - apply bind_Ok in H as ([] & c1 & Hbody & H).
    pose proof (walk_loop_keeps_angles _ _ _ _ _ _ _ _ H) as Hangles.
    apply IH in H as (P1 & P2 & P3).
    apply walk_joint_Ok in Hbody
      as (q & q0 & dq & a & Hq & Hq0 & Hdq & Ha & Hslot & Hlast & ->).
    assert (Hlen : start < length (actions c)) by (eapply lookup_lt_Some, Ha).
    unfold walk_joint_effect in *.
    cbn [actions init_joint_angles robot_cmd set_last_actions set_robot_cmd
         set_actions RobotCmd.q RobotCmd.set_q] in *.
    split; [|split].
    + intros i Hi. destruct (decide (i = start)) as [->|Hne].
      * exists q, q0, dq, a. repeat (split; [assumption|]). split.
        -- rewrite P2 by lia. apply list_lookup_insert_eq. assumption.
        -- rewrite P3.
           ++ apply list_lookup_insert_eq. assumption.
           ++ intros j Hj E. apply toPhysical_inj in E. lia.
      * destruct (P1 i) as (qi & q0i & dqi & ai & ? & ? & ? & Hai & ? & ?);
          [lia|].
        rewrite list_lookup_insert_ne in Hai by congruence.
        exists qi, q0i, dqi, ai. repeat (split; [assumption|]). assumption.
    + intros i Hi. rewrite P2 by lia.
      apply list_lookup_insert_ne. lia.
    + intros p Hp. rewrite P3.
      * apply list_lookup_insert_ne. apply Hp. lia.
      * intros i Hi. apply Hp. lia.
Qed.

Lemma inference_keeps_walk_inputs cfg ext :
  keeps walk_inputs (_ ← compute_observation cfg ext; compute_actions ext).
Proof. solve_keeps. Qed.

Lemma walk_loop_keeps_inference_state cfg jp jv n :
  keeps inference_state (for_range n (walk_joint cfg jp jv)).
Proof. solve_keeps. Qed.

(** A WALK tick: the sensor state is aligned, on inference ticks the
    actions are recomputed, and then the loop over the joints runs on the
    aligned state *)
Lemma handle_walk_mode_Ok cfg ext c c' :
  handle_walk_mode cfg ext c = (Ok tt, c') →
  ∃ aligned c0,
    align_robot_state (robot_state c) = Ok aligned ∧
    robot_state_tmp c0 = aligned ∧
    init_joint_angles c0 = init_joint_angles c ∧
    for_range (length (RobotState.q aligned))
      (walk_joint cfg (RobotState.q aligned) (RobotState.dq aligned)) c0
    = (Ok tt, c') ∧
    ((loop_count c mod decimation cfg)%Z ≠ 0%Z →
     c0 = set_imu_data_tmp (imu_data c) (set_robot_state_tmp aligned c)).
Proof.
  unfold handle_walk_mode. intros H. rewrite bind_get in H.
  apply bind_Ok in H as (aligned & c1 & Hal & H).
  apply lift_Ok in Hal as [Hal ->].
  rewrite bind_put, bind_get, bind_put, bind_get in H.
  apply bind_Ok in H as (r & c1 & Hmod & H).
  apply lift_Ok in Hmod as [Hmod ->].
  apply py_mod_Ok in Hmod as [_ ->]. cbn [loop_count set_imu_data_tmp
    set_robot_state_tmp] in H.
  apply bind_Ok in H as ([] & c0 & Hif & H). rewrite bind_get in H.
  set (c1 := set_imu_data_tmp _ _) in *.
  assert (Hk : (loop_count c mod decimation cfg)%Z ≠ 0%Z ∧ c0 = c1
               ∨ (loop_count c mod decimation cfg)%Z = 0%Z ∧
                 walk_inputs c0 = walk_inputs c1).
  { case_decide as Hr.
    - right. split; [exact Hr|].
      apply bind_Ok in Hif as ([] & c2 & Hobs & Hif).
      apply bind_Ok in Hif as ([] & c3 & Hact & Hif). inv_run Hif.
      change (walk_inputs c3 = walk_inputs c1).
      eapply (inference_keeps_walk_inputs cfg ext).
      rewrite (bind_run_Ok _ _ _ _ _ Hobs). exact Hact.
    - left. apply ret_Ok in Hif as [_ ->]. auto. }
  assert (Hw : walk_inputs c0 = walk_inputs c1)
    by (destruct Hk as [[_ ->]|[_ Hk]]; [reflexivity | exact Hk]).
  injection Hw as Htmp Hang. subst c1. cbn in Htmp, Hang.
  rewrite Htmp in H.
  exists aligned, c0. repeat (split; [assumption|]).
  intros Hne. destruct Hk as [[_ ->]|[Hz _]]; [reflexivity|contradiction].
Qed.

(** Every WALK tick that returns: [c0] is the controller when the loop over
    the joints starts, with the actions of this tick's inference or, between
    inference ticks, the stored ones *)
Lemma walk_tick_joints cfg ext c cmd c' :
  mode c = WALK → update cfg ext c = (Ok cmd, c') →
  ∃ aligned c0,
    align_robot_state (robot_state c) = Ok aligned ∧
    robot_state_tmp c' = aligned ∧
    init_joint_angles c0 = init_joint_angles c ∧
    ((loop_count c mod decimation cfg)%Z ≠ 0%Z →
     c0 = set_imu_data_tmp (imu_data c) (set_robot_state_tmp aligned c)) ∧
    inference_state c' = inference_state c0 ∧
    (∀ i, i < length (RobotState.q aligned) →
          ∃ q q0 dq a,
            RobotState.q aligned !! i = Some q ∧
            RobotState.dq aligned !! i = Some dq ∧
            init_joint_angles c !! i = Some q0 ∧
            actions c0 !! i = Some a ∧
            actions c' !! i = Some (clamp_action cfg q q0 dq a) ∧
            RobotCmd.q cmd !! toPhysical i
            = Some (pos_des cfg (clamp_action cfg q q0 dq a) q0)) ∧
    (∀ i, length (RobotState.q aligned) ≤ i → actions c' !! i = actions c0 !! i).
Proof.
  intros Hm Hu.
  rewrite update_WALK in Hu by assumption.
  apply bind_Ok in Hu as ([] & c1 & Hw & Hu). inv_run Hu.
  apply handle_walk_mode_Ok in Hw
    as (aligned & c0 & Hal & Htmp & Hang & Hloop & Hc0).
  pose proof (walk_loop_keeps_inference_state _ _ _ _ _ _ _ Hloop) as Hinf.
  assert (Htmp' : robot_state_tmp c1 = aligned).
  { assert (K : keeps robot_state_tmp
                  (for_range (length (RobotState.q aligned))
                     (walk_joint cfg (RobotState.q aligned)
                        (RobotState.dq aligned)))) by solve_keeps.
    rewrite (K _ _ _ Hloop). exact Htmp. }
  apply walk_loop_Ok in Hloop as (P1 & P2 & _).
  rewrite Hang in P1.
  exists aligned, c0. cbn.
  repeat (split; [assumption|]). split.
  - intros i Hi.
    destruct (P1 i) as (q & q0 & dq & a & ? & ? & ? & ? & ? & ?); [lia|].
    exists q, q0, dq, a. repeat (split; [assumption|]). assumption.
  - intros i Hi. apply P2. lia.
Qed.

(** The run of [Demo.walking]: the inference tick at rest has stored
    action 4/3 for the first joint, the upper bound of the clamp there; with
    the joint one radian lower the bounds are -10/3 and -2/3, and the next
    tick, at loop count 3 with decimation 2, stores -2/3 *)
Lemma demo_walking_tick :
  let r := update Demo.quick Demo.ext Demo.walking in
  r = (Ok (robot_cmd r.2), r.2) ∧
  mode Demo.walking = WALK ∧
  (loop_count Demo.walking mod decimation Demo.quick)%Z ≠ 0%Z ∧
  ∃ a a', actions Demo.walking !! 0 = Some a ∧ (a == 4 # 3)%Q ∧
          actions r.2 !! 0 = Some a' ∧ (a' == - (2 # 3))%Q.
Proof.
  vm_compute. split; [reflexivity|]. split; [reflexivity|].
  split; [discriminate|]. eexists _, _. repeat split; reflexivity.
Qed.

(** C3 as stated fails: a tick between two inference ticks rewrites the
    stored action vector when the measured state has moved the bounds of the
    clamp past the stored action.  In the run of [Demo.walking] the action
    stored for the first joint goes from 4/3 to -2/3 on such a tick. *)
Lemma held_action_counterexample :
  ¬ (∀ cfg ext c cmd c',
       reachable cfg ext c →
       mode c = WALK → (loop_count c mod decimation cfg)%Z ≠ 0%Z →
       update cfg ext c = (Ok cmd, c') → actions c' = actions c).
Proof.
  intros H.
  destruct demo_walking_tick as (E & Hm & Hmod & a & a' & Ha & Hv & Ha' & Hv').
  rewrite (H Demo.quick Demo.ext Demo.walking _ _
             demo_walking_reachable Hm Hmod E) in Ha'.
  assert (a' = a) as -> by congruence.
  rewrite Hv in Hv'. revert Hv'. unfold Qeq. cbn. lia.
Qed.

(** C3 (as amended).  In WALK mode, on a tick whose loop count is not a
    multiple of the decimation, no inference runs: the observation and the
    history deques stay as they are.  The sensor state is aligned, and for
    every joint i of the aligned state the stored action a_i is replaced by
    its clamp to the bounds computed from the q_i and dq_i of this tick, so
    that it keeps its value when it lies within the bounds, and the
    position command of the joint is recomputed from the clamped action as
    a_i * actionScalePos + q0_i and written to the command slot of the
    joint.  The actions beyond the joints of the sensor state are left
    alone. *)
Theorem hold_tick_reclamps_actions cfg ext c cmd c' :
  mode c = WALK → (loop_count c mod decimation cfg)%Z ≠ 0%Z →
  update cfg ext c = (Ok cmd, c') →
  ∃ aligned,
    align_robot_state (robot_state c) = Ok aligned ∧
    robot_state_tmp c' = aligned ∧
    observations c' = observations c ∧ history c' = history c ∧
    (∀ i, i < length (RobotState.q aligned) →
          ∃ q q0 dq a,
            RobotState.q aligned !! i = Some q ∧
            RobotState.dq aligned !! i = Some dq ∧
            init_joint_angles c !! i = Some q0 ∧
            actions c !! i = Some a ∧
            actions c' !! i = Some (clamp_action cfg q q0 dq a) ∧
            RobotCmd.q cmd !! toPhysical i
            = Some (pos_des cfg (clamp_action cfg q q0 dq a) q0) ∧
            ((action_min cfg q q0 dq / action_scale_pos cfg <= a)%Q →
             (a <= action_max cfg q q0 dq / action_scale_pos cfg)%Q →
             (clamp_action cfg q q0 dq a == a)%Q)) ∧
    (∀ i, length (RobotState.q aligned) ≤ i → actions c' !! i = actions c !! i).
Proof.
  intros Hm Hne Hu.
  destruct (walk_tick_joints _ _ _ _ _ Hm Hu)
    as (aligned & c0 & Hal & Htmp & _ & Hc0 & Hinf & P1 & P2).
  specialize (Hc0 Hne). subst c0.
  injection Hinf as Hobs Hhist _. cbn in Hobs, Hhist, P1, P2.
  exists aligned. repeat (split; [assumption|]). split.
  - intros i Hi.
    destruct (P1 i Hi) as (q & q0 & dq & a & ? & ? & ? & ? & ? & ?).
    exists q, q0, dq, a. repeat (split; [assumption|]).
    intros Hlo Hhi. apply clamp_inside; assumption.
  - exact P2.
Qed.

Lemma hold_tick_reclamps_actions_witness :
  ∃ aligned,
    align_robot_state (robot_state Demo.walking) = Ok aligned ∧
    history (update Demo.quick Demo.ext Demo.walking).2 = history Demo.walking ∧
    ∃ a, actions Demo.walking !! 0 = Some a ∧
         actions (update Demo.quick Demo.ext Demo.walking).2 !! 0
         = Some (clamp_action Demo.quick (-1) 0 0 a).
Proof.
  destruct demo_walking_tick as (E & Hm & Hmod & _).
  destruct (hold_tick_reclamps_actions Demo.quick Demo.ext Demo.walking _ _
              Hm Hmod E)
    as (aligned & Hal & _ & _ & Hh & Hi & _).
  exists aligned. split; [exact Hal|]. split; [exact Hh|].
  assert (Ea : aligned
               = RobotState.mk [-1; 0; 1 # 10; 1 # 10; 2 # 10; 2 # 10]%Q
                   Demo.zeros6 Demo.zeros6).
  { vm_compute in Hal. injection Hal as <-. reflexivity. }
  subst aligned.
  destruct (Hi 0) as (q & q0 & dq & a & Hq & Hdq & Hq0 & Ha & Ha' & _);
    [cbn; lia|].
  exists a. split; [exact Ha|].
  vm_compute in Hq, Hdq, Hq0.
  injection Hq as <-. injection Hdq as <-. injection Hq0 as <-.
  exact Ha'.
Defined.

(** ** The observation handed to the policy *)

(** C2 fails on the code: the observation is built from the history vector
    before clipping.  In the run of [Demo.spinning], on the inference tick
    at loop count 2 with clip_observations = 100, a velocity scale of 1/20
    and a measured velocity of 3000 on the first joint, entry 24 of the
    observation (the first scaled joint velocity) is 150, outside the bound,
    while the encoder has seen the clipped vector: its latent entry, the
    largest input, is 100. *)
Theorem observation_history_not_clipped :
  reachable Demo.quick Demo.ext Demo.spinning ∧
  ∃ cmd c',
    update Demo.quick Demo.ext Demo.spinning = (Ok cmd, c') ∧
    mode Demo.spinning = WALK ∧
    (loop_count Demo.spinning mod decimation Demo.quick)%Z = 0%Z ∧
    clip_observations Demo.quick = 100%Q ∧
    length (observations c') = 65 ∧
    observations c' !! 24 = Some (3000 * (1 # 20))%Q ∧
    ¬ (3000 * (1 # 20) <= clip_observations Demo.quick)%Q ∧
    observations c' !! 64 = Some 100%Q.
Proof.
  split; [exact demo_spinning_reachable|].
  eexists _, _. split; [vm_compute; reflexivity|].
  vm_compute. repeat split; try reflexivity. intros H. apply H. reflexivity.
Qed.

(** ** The torque envelope *)

(** C1 as the claim states it, for all values, fails in the arithmetic of
    the code.  The demo robot has stiffness 30, damping 1, torque limit 20
    and action scale 0.5; take a joint at q = 1.5 with velocity 1, neutral
    angle 0 and raw action 5, all of them binary floats.  The upper bound
    1.5 + 21/30 is rounded up to the float next to 2.2, and the position
    published for the clamped action, fed through the PD law with the same
    q and dq, gives a torque above the limit: 20 + 3 * 2^-21 when the
    action is stored in a float32 array, 20 + 3 * 2^-49 when it is stored
    in a float64 array.  In exact arithmetic the same input meets the
    limit with equality. *)
Lemma clamp_rounding_counterexample :
  (0 < stiffness Demo.cfg)%Q ∧ (0 <= user_torque_limit Demo.cfg)%Q ∧
  (0 < action_scale_pos Demo.cfg)%Q ∧
  (pd_torque Demo.cfg
     (Ieee.published Demo.cfg Ieee.float32 (3 # 2) 0 1 5) (3 # 2) 1
   == 41943043 # 2097152)%Q ∧
  ¬ (Qabs (pd_torque Demo.cfg
             (Ieee.published Demo.cfg Ieee.float32 (3 # 2) 0 1 5) (3 # 2) 1)
     <= user_torque_limit Demo.cfg)%Q ∧
  (pd_torque Demo.cfg
     (Ieee.published Demo.cfg Ieee.float64 (3 # 2) 0 1 5) (3 # 2) 1
   == 11258999068426243 # 562949953421312)%Q ∧
  ¬ (Qabs (pd_torque Demo.cfg
             (Ieee.published Demo.cfg Ieee.float64 (3 # 2) 0 1 5) (3 # 2) 1)
     <= user_torque_limit Demo.cfg)%Q ∧
  (pd_torque Demo.cfg
     (pos_des Demo.cfg (clamp_action Demo.cfg (3 # 2) 0 1 5) 0) (3 # 2) 1
   == user_torque_limit Demo.cfg)%Q.
Proof.
  vm_compute.
  repeat split; try reflexivity; try discriminate;
    intros H; apply H; reflexivity.
Qed.

(** C1 (as amended).  Over exact rational arithmetic: with stiffness > 0,
    userTorqueLimit >= 0 and actionScalePos > 0, the position command
    a * actionScalePos + q0 of the clamped action, fed through the PD law
    with the measured q and dq the clamp used, gives a torque
    stiffness * (pos_des - q) - damping * dq of magnitude at most
    userTorqueLimit, whatever the raw action and the state are.  This holds
    for the clamp as a function, and for every joint of every WALK tick:
    the position in the command slot of joint i and the aligned q_i and
    dq_i of the tick keep the torque within the limit.  The bound is met
    with equality whenever the clamp is active, so that the rounding of the
    floating-point operations of the code can put the torque above it. *)
Theorem clamp_bounds_pd_torque (cfg : Config) :
  (0 < stiffness cfg)%Q →
  (0 <= user_torque_limit cfg)%Q →
  (0 < action_scale_pos cfg)%Q →
  (∀ q q0 dq a,
     (Qabs (pd_torque cfg (pos_des cfg (clamp_action cfg q q0 dq a) q0) q dq)
      <= user_torque_limit cfg)%Q)
  ∧ (∀ ext c cmd c',
       mode c = WALK → update cfg ext c = (Ok cmd, c') →
       ∀ i, i < length (RobotState.q (robot_state_tmp c')) →
            ∃ q dq pos,
              RobotState.q (robot_state_tmp c') !! i = Some q ∧
              RobotState.dq (robot_state_tmp c') !! i = Some dq ∧
              RobotCmd.q cmd !! toPhysical i = Some pos ∧
              (Qabs (pd_torque cfg pos q dq) <= user_torque_limit cfg)%Q).
Proof.
  intros Hk HT Hs.
  assert (G : ∀ q q0 dq a,
            (Qabs (pd_torque cfg
                     (pos_des cfg (clamp_action cfg q q0 dq a) q0) q dq)
             <= user_torque_limit cfg)%Q).
  { intros. apply Qabs_Qle_condition.
    apply clamp_torque_between; assumption. }
  split; [exact G|].
  intros ext c cmd c' Hm Hu i Hi.
  destruct (walk_tick_joints _ _ _ _ _ Hm Hu)
    as (aligned & c0 & _ & Htmp & _ & _ & _ & P1 & _).
  rewrite Htmp in *.
  destruct (P1 i Hi) as (q & q0 & dq & a & Hq & Hdq & _ & _ & _ & Hpos).
  exists q, dq, (pos_des cfg (clamp_action cfg q q0 dq a) q0).
  repeat (split; [assumption|]). apply G.
Qed.

Lemma clamp_bounds_pd_torque_witness :
  (Qabs (pd_torque Demo.cfg
           (pos_des Demo.cfg (clamp_action Demo.cfg 0 0 0 5) 0) 0 0) <= 20)%Q.
Proof.
  refine (proj1 (clamp_bounds_pd_torque Demo.cfg _ _ _) 0 0 0 5)%Q;
    [reflexivity | unfold Qle; cbn; lia | reflexivity].
Defined.

(** * Further properties of the controller *)

(** ** Loading the configuration *)

Lemma fill_init_joint_angles_Ok cfg n : ∀ i arr arr',
  fill_init_joint_angles cfg i n arr = Ok arr' →
  length arr' = length arr ∧
  (∀ j, j < i → arr' !! j = arr !! j) ∧
  (∀ j, i ≤ j < i + n →
        ∃ name v, joint_names cfg !! j = Some name ∧
                  default_joint_angle cfg !! name = Some v ∧
                  arr' !! j = Some v).
Proof.
  induction n as [|n IH]; intros i arr arr' H; cbn [fill_init_joint_angles] in H.
  - injection H as <-. repeat split; auto. intros j Hj. lia.
  - apply rbind_Ok in H as (name & Hname & H).
    apply rbind_Ok in H as (v & Hv & H).
    apply rbind_Ok in H as (arr1 & Hset & H).
    apply getitem_Ok in Hname. apply setitem_Ok in Hset as [Hlt ->].
    assert (Hd : default_joint_angle cfg !! name = Some v).
    { unfold dict_get in Hv.
      destruct (default_joint_angle cfg !! name); congruence. }
    apply IH in H as (Hlen & Hlow & Hhigh).
    rewrite length_insert in Hlen.
    split; [exact Hlen|]. split.
    + intros j Hj. rewrite Hlow by lia. apply list_lookup_insert_ne. lia.
    + intros j Hj. destruct (decide (j = i)) as [->|Hne].
      * exists name, v. repeat split; try assumption.
        rewrite Hlow by lia. apply list_lookup_insert_eq. assumption.
      * apply Hhigh. lia.
Qed.

(** [load_config] copies the default angle of every joint, looked up by the
    name of the joint, into [init_joint_angles], in the order of
    [joint_names]. *)
Theorem init_loads_default_angles cfg imu0 c :
  init cfg imu0 = Ok c →
  length (init_joint_angles c) = joint_num cfg ∧
  ∀ j name, joint_names cfg !! j = Some name →
            ∃ v, default_joint_angle cfg !! name = Some v ∧
                 init_joint_angles c !! j = Some v.
Proof.
  intros H. apply init_Ok in H as (angles & quat & Hfill & ->). cbn.
  apply fill_init_joint_angles_Ok in Hfill as (Hlen & _ & Hhigh).
  rewrite length_replicate in Hlen. split; [exact Hlen|].
  intros j name Hj.
  destruct (Hhigh j) as (name' & v & Hn & Hv & Ha).
  { apply lookup_lt_Some in Hj. unfold joint_num. lia. }
  assert (name' = name) as -> by congruence. eauto.
Qed.

Lemma init_loads_default_angles_witness :
  length (init_joint_angles Demo.fresh) = 6 ∧
  ∀ j name, joint_names Demo.cfg !! j = Some name →
            ∃ v, default_joint_angle Demo.cfg !! name = Some v ∧
                 init_joint_angles Demo.fresh !! j = Some v.
Proof.
  exact (init_loads_default_angles Demo.cfg Demo.imu0 Demo.fresh demo_init).
Defined.

Lemma fill_init_joint_angles_KeyError cfg n : ∀ i arr,
  i + n ≤ length (joint_names cfg) → i + n ≤ length arr →
  (∃ j name, i ≤ j < i + n ∧ joint_names cfg !! j = Some name ∧
             default_joint_angle cfg !! name = None) →
  fill_init_joint_angles cfg i n arr = Raise KeyError.
Proof.
  induction n as [|n IH]; intros i arr Hnames Harr (j & name & Hj & Hn & Hd);
    [lia|].
  cbn [fill_init_joint_angles].
  destruct (lookup_lt_is_Some_2 (joint_names cfg) i) as [name_i Hi]; [lia|].
  unfold getitem at 1. rewrite Hi. cbn [mbind result_bind].
  unfold dict_get at 1.
  destruct (default_joint_angle cfg !! name_i) as [v|] eqn:Hv;
    cbn [mbind result_bind]; [|reflexivity].
  rewrite setitem_lt by lia. cbn [mbind result_bind].
  apply IH.
  - lia.
  - rewrite length_insert. lia.
  - exists j, name. repeat split; try assumption; try lia.
    destruct (decide (j = i)) as [->|]; [congruence | lia].
Qed.

(** A joint whose name has no entry among the default angles makes
    [load_config], and with it the construction of the controller, raise
    [KeyError]. *)
Theorem init_missing_angle cfg imu0 j name :
  joint_names cfg !! j = Some name →
  default_joint_angle cfg !! name = None →
  init cfg imu0 = Raise KeyError.
Proof.
  intros Hj Hd. unfold init.
  rewrite (fill_init_joint_angles_KeyError cfg (joint_num cfg) 0).
  - reflexivity.
  - unfold joint_num. lia.
  - rewrite length_replicate. lia.
  - exists j, name. apply lookup_lt_Some in Hj as Hlt.
    unfold joint_num. repeat split; try assumption; lia.
Qed.

Lemma init_missing_angle_witness :
  init Cases.no_angle Demo.imu0 = Raise KeyError.
Proof.
  refine (init_missing_angle Cases.no_angle Demo.imu0 1 "abad_R_Joint" _ _);
    vm_compute; reflexivity.
Defined.

(** ** Errors of the alignment and of a WALK tick *)

Lemma assign_from_Raise dst i src j e :
  assign_from dst i src j = Raise e → e = IndexError.
Proof.
  unfold assign_from, getitem, setitem. destruct (src !! j); cbn;
    [case_decide|]; congruence.
Qed.

Lemma align_robot_state_Raise rs e :
  align_robot_state rs = Raise e → e = IndexError.
Proof.
  unfold align_robot_state.
  repeat match goal with
    | [ |- context [assign_from ?a ?b ?c ?d] ] =>
        let E := fresh "E" in
        destruct (assign_from a b c d) eqn:E; cbn [mbind result_bind];
        [|apply assign_from_Raise in E; congruence]
    end.
  discriminate.
Qed.

Lemma align_robot_state_short rs :
  length (RobotState.q rs) < 5 ∨ length (RobotState.dq rs) < 5 ∨
  length (RobotState.tau rs) < 5 →
  align_robot_state rs = Raise IndexError.
Proof.
  intros H. destruct (align_robot_state rs) as [a|e] eqn:E.
  - apply align_robot_state_Ok_length in E. lia.
  - apply align_robot_state_Raise in E. congruence.
Qed.

(** [align_robot_state] raises [IndexError] exactly when the sensor state has
    fewer than five entries in q, dq or tau. *)
Theorem align_robot_state_IndexError rs :
  align_robot_state rs = Raise IndexError ↔
  length (RobotState.q rs) < 5 ∨ length (RobotState.dq rs) < 5 ∨
  length (RobotState.tau rs) < 5.
Proof.
  split.
  - intros H.
    destruct (decide (5 ≤ length (RobotState.q rs))) as [Hq|]; [|lia].
    destruct (decide (5 ≤ length (RobotState.dq rs))) as [Hd|]; [|lia].
    destruct (decide (5 ≤ length (RobotState.tau rs))) as [Ht|]; [|lia].
    exfalso. destruct rs as [q dq tau]. cbn in Hq, Hd, Ht.
    apply list_ge_5 in Hq as (q0 & q1 & q2 & q3 & q4 & qs & ->).
    apply list_ge_5 in Hd as (d0 & d1 & d2 & d3 & d4 & ds & ->).
    apply list_ge_5 in Ht as (t0 & t1 & t2 & t3 & t4 & ts & ->).
    rewrite align_robot_state_cons in H. discriminate H.
  - apply align_robot_state_short.
Qed.

Lemma bind_lift_Raise {A B} (r : result A) e (k : A → M B) c :
  r = Raise e → (lift r ≫= k) c = (Raise e, c).
Proof. intros ->. reflexivity. Qed.

Lemma bind_run_Raise {A B} (m : M A) e c1 (k : A → M B) c :
  m c = (Raise e, c1) → (m ≫= k) c = (Raise e, c1).
Proof. intros H. unfold mbind, M_bind. rewrite H. reflexivity. Qed.

(** A WALK tick on a sensor state of fewer than five joints raises
    [IndexError] before anything is written: the controller is as before
    and no command is published. *)
Theorem walk_tick_short_state cfg ext c :
  mode c = WALK →
  length (RobotState.q (robot_state c)) < 5 ∨
  length (RobotState.dq (robot_state c)) < 5 ∨
  length (RobotState.tau (robot_state c)) < 5 →
  update cfg ext c = (Raise IndexError, c).
Proof.
  intros Hm Hlen. apply align_robot_state_short in Hlen.
  rewrite update_WALK by assumption.
  apply bind_run_Raise. unfold handle_walk_mode. rewrite bind_get.
  apply bind_lift_Raise, Hlen.
Qed.

Lemma short_state_facts :
  mode Cases.short_state = WALK ∧
  length (RobotState.q (robot_state Cases.short_state)) < 5.
Proof. vm_compute. split; [reflexivity | lia]. Qed.

Lemma walk_tick_short_state_witness :
  update Demo.quick Demo.ext Cases.short_state
  = (Raise IndexError, Cases.short_state).
Proof.
  exact (walk_tick_short_state Demo.quick Demo.ext Cases.short_state
           (proj1 short_state_facts) (or_introl (proj2 short_state_facts))).
Defined.

(** With decimation 0 a WALK tick raises [ZeroDivisionError] after it has
    stored the aligned sensor state and the IMU snapshot: no command is
    published and the loop counter stays. *)
Theorem walk_tick_zero_decimation cfg ext c aligned :
  mode c = WALK → decimation cfg = 0%Z →
  align_robot_state (robot_state c) = Ok aligned →
  update cfg ext c
  = (Raise ZeroDivisionError,
     set_imu_data_tmp (imu_data c) (set_robot_state_tmp aligned c)).
Proof.
  intros Hm Hdec Hal. rewrite update_WALK by assumption.
  apply bind_run_Raise. unfold handle_walk_mode. rewrite bind_get.
  rewrite (bind_lift_Ok _ _ _ _ Hal).
  rewrite bind_put, bind_get, bind_put, bind_get.
  apply bind_lift_Raise. unfold py_mod. rewrite Hdec. reflexivity.
Qed.

Lemma stood_facts :
  mode Cases.stood = WALK ∧ loop_count Cases.stood = 2%Z ∧
  robot_state Cases.stood = RobotState.mk Demo.zeros6 Demo.zeros6 Demo.zeros6 ∧
  align_robot_state (robot_state Cases.stood)
  = Ok (RobotState.mk Demo.zeros6 Demo.zeros6 Demo.zeros6).
Proof. vm_compute. repeat split; reflexivity. Qed.

Lemma walk_tick_zero_decimation_witness :
  update Cases.no_decimation Demo.ext Cases.stood
  = (Raise ZeroDivisionError,
     set_imu_data_tmp (imu_data Cases.stood)
       (set_robot_state_tmp
          (RobotState.mk Demo.zeros6 Demo.zeros6 Demo.zeros6) Cases.stood)).
Proof.
  exact (walk_tick_zero_decimation Cases.no_decimation Demo.ext Cases.stood _
           (proj1 stood_facts) eq_refl (proj2 (proj2 (proj2 stood_facts)))).
Defined.

(** ** Counters and invariants of the run *)

Lemma handlers_keep_loop_count cfg ext :
  keeps loop_count (handle_stand_mode cfg) ∧
  keeps loop_count (handle_walk_mode cfg ext).
Proof. split; solve_keeps. Qed.

Lemma update_loop_count cfg ext c cmd c' :
  update cfg ext c = (Ok cmd, c') → loop_count c' = (loop_count c + 1)%Z.
Proof.
  destruct (handlers_keep_loop_count cfg ext) as [Hs Hw].
  intros H. destruct (mode c) eqn:Hm.
  - rewrite update_STAND in H by assumption.
    apply bind_Ok in H as (u & c1 & Hh & H). inv_run H.
    cbn [loop_count set_loop_count]. rewrite (Hs _ _ _ Hh). reflexivity.
  - rewrite update_WALK in H by assumption.
    apply bind_Ok in H as (u & c1 & Hh & H). inv_run H.
    cbn [loop_count set_loop_count]. rewrite (Hw _ _ _ Hh). reflexivity.
Qed.

Lemma callbacks_keep_loop_state :
  (∀ msg, keeps loop_state (robot_state_callback msg)) ∧
  (∀ msg, keeps loop_state (imu_data_callback msg)) ∧
  (∀ msg, keeps loop_state (sensor_joy_callback msg)).
Proof. repeat split; intros; solve_keeps. Qed.

(** The loop counter counts the ticks: every tick that returns adds one to
    it, and no callback changes it, so that after a run it has grown by the
    number of ticks of the run. *)
Theorem loop_count_counts_ticks cfg ext events : ∀ c c',
  play cfg ext events c = (Ok tt, c') →
  loop_count c' = (loop_count c + count_ticks events)%Z.
Proof.
  destruct callbacks_keep_loop_state as (Hs & Hi & Hj).
  assert (L : ∀ c c' : Controller, loop_state c' = loop_state c →
                                  loop_count c' = loop_count c).
  { intros c c' E. unfold loop_state in E. congruence. }
  induction events as [|[|msg|msg|msg] rest IH]; intros c c' H;
    cbn [play count_ticks] in *.
  - apply ret_Ok in H as [_ ->]. lia.
  - apply bind_Ok in H as (cmd & c1 & Hu & H).
    apply IH in H. apply update_loop_count in Hu. lia.
  - apply IH in H. rewrite H. f_equal; eapply L, Hs, surjective_pairing.
  - apply IH in H. rewrite H. f_equal; eapply L, Hi, surjective_pairing.
  - apply IH in H. rewrite H. f_equal; eapply L, Hj, surjective_pairing.
Qed.

Lemma walking_run_returns :
  play Demo.quick Demo.ext Demo.walking_events Demo.quick_start
  = (Ok tt, Demo.walking).
Proof. vm_compute. reflexivity. Qed.

Lemma loop_count_counts_ticks_witness :
  loop_count Demo.walking
  = (loop_count Demo.quick_start + count_ticks Demo.walking_events)%Z.
Proof.
  exact (loop_count_counts_ticks Demo.quick Demo.ext Demo.walking_events
           Demo.quick_start Demo.walking walking_run_returns).
Defined.

(** No callback of the transport layer writes the command, the snapshots
    that the loop works on, the history, the actions, the observation, the
    loop counter, the stand percentage or the mode, whether it returns or
    raises. *)
Theorem callbacks_leave_loop_state :
  (∀ msg, keeps loop_state (robot_state_callback msg)) ∧
  (∀ msg, keeps loop_state (imu_data_callback msg)) ∧
  (∀ msg, keeps loop_state (sensor_joy_callback msg)).
Proof. exact callbacks_keep_loop_state. Qed.

(** A tick in STAND mode runs no part of the inference pipeline: it leaves
    the sensor state and its snapshots, the history, the actions, the
    observation and the commands of the joystick as they are, whether it
    returns or raises. *)
Theorem stand_tick_leaves_walk_state cfg ext c r c' :
  mode c = STAND → update cfg ext c = (r, c') → walk_state c' = walk_state c.
Proof.
  intros Hm H. rewrite update_STAND in H by assumption.
  revert H. generalize c r c'.
  change (keeps walk_state
            (_ ← handle_stand_mode cfg;
             count ← get loop_count;
             _ ← put (set_loop_count (count + 1));
             get robot_cmd)).
  assert (K : ∀ i p, keeps walk_state (set_cmd_q i p)).
  { intros i p c0 r0 c0'. unfold set_cmd_q, mbind, M_bind, get, lift, put.
    destruct (setitem _ _ _); intros [= _ <-]; reflexivity. }
  unfold handle_stand_mode, for_range.
  repeat first
    [ apply K
    | keeps_step
    | progress unfold stand_joint, set_joint_command_aligned ].
Qed.

Lemma stand_tick_leaves_walk_state_witness :
  walk_state (update Demo.cfg Demo.ext Demo.at_start).2
  = walk_state Demo.at_start.
Proof.
  exact (stand_tick_leaves_walk_state Demo.cfg Demo.ext Demo.at_start _ _
           eq_refl (surjective_pairing _)).
Defined.

Lemma set_cmd_q_keeps_length i p : keeps cmd_q_length (set_cmd_q i p).
Proof.
  intros c r c'. unfold set_cmd_q, mbind, M_bind, get, lift, put.
  destruct (setitem _ _ _) as [l|e] eqn:E; intros [= _ <-]; [|reflexivity].
  apply setitem_Ok in E as [_ ->]. unfold cmd_q_length. cbn.
  apply length_insert.
Qed.
#[export] Hint Resolve set_cmd_q_keeps_length : keeps.

Lemma methods_keep_cmd_q_length cfg ext :
  keeps cmd_q_length (update cfg ext) ∧
  keeps cmd_q_length (run_init cfg) ∧
  (∀ msg, keeps cmd_q_length (robot_state_callback msg)) ∧
  (∀ msg, keeps cmd_q_length (imu_data_callback msg)) ∧
  (∀ msg, keeps cmd_q_length (sensor_joy_callback msg)).
Proof. repeat split; intros; solve_keeps. Qed.

(** The position vector of the command keeps the length that [__init__]
    gave it, the number of joints, in every state the run reaches: the loop
    only assigns entries that exist. *)
Theorem command_length_is_joint_num cfg ext c :
  reachable cfg ext c → length (RobotCmd.q (robot_cmd c)) = joint_num cfg.
Proof.
  destruct (methods_keep_cmd_q_length cfg ext) as (Hu & Hr & Hs & Hi & Hj).
  intros (c1 & (imu0 & c0 & Hinit & Hrun) & Hrtc).
  change (cmd_q_length c = joint_num cfg).
  assert (H1 : cmd_q_length c1 = joint_num cfg).
  { rewrite (Hr _ _ _ Hrun).
    apply init_Ok in Hinit as (? & ? & _ & ->).
    unfold cmd_q_length. cbn. apply length_replicate. }
  clear Hinit Hrun. induction Hrtc as [|c1 c2 c Hstep _ IH]; [exact H1|].
  apply IH. rewrite <- H1.
  destruct Hstep as [c1 cmd c2 H | msg c1 r c2 H | msg c1 r c2 H | msg c1 r c2 H].
  - eapply Hu, H.
  - eapply Hs, H.
  - eapply Hi, H.
  - eapply Hj, H.
Qed.

Lemma command_length_is_joint_num_witness :
  length (RobotCmd.q (robot_cmd Demo.walking)) = joint_num Demo.quick.
Proof.
  exact (command_length_is_joint_num Demo.quick Demo.ext Demo.walking
           demo_walking_reachable).
Defined.

(** ** Standing up, joint by joint *)

Lemma stand_rest_keeps_mode cfg :
  keeps mode
    (_ ← for_range (length (joint_names cfg)) (stand_joint cfg);
     sp ← get stand_percent;
     inc ← lift (py_div 1 (stand_duration cfg * loop_frequency cfg));
     put (set_stand_percent (sp + inc)%Q)).
Proof. solve_keeps. Qed.

Lemma handle_stand_mode_cases cfg c r c' :
  handle_stand_mode cfg c = (r, c') →
  ((stand_percent c < 1)%Q ∧ mode c' = mode c)
  ∨ ((1 <= stand_percent c)%Q ∧ r = Ok tt ∧ c' = set_mode WALK c).
Proof.
  unfold handle_stand_mode. rewrite bind_get.
  destruct (Qltb (stand_percent c) 1) eqn:E; intros H.
  - left. split; [apply Qltb_true, E|].
    eapply (stand_rest_keeps_mode cfg), H.
  - right. split; [apply Qltb_false, E|]. injection H as <- <-. auto.
Qed.

Lemma handle_walk_mode_keeps_stand_percent cfg ext :
  keeps stand_percent (handle_walk_mode cfg ext).
Proof. solve_keeps. Qed.

Lemma step_walk_after_standing cfg ext c c' :
  step cfg ext c c' →
  (mode c = WALK → (1 <= stand_percent c)%Q) →
  mode c' = WALK → (1 <= stand_percent c')%Q.
Proof.
  destruct callbacks_keep_loop_state as (Hs & Hi & Hj).
  assert (L : ∀ c c' : Controller, loop_state c' = loop_state c →
                mode c' = mode c ∧ stand_percent c' = stand_percent c).
  { intros c0 c0' E. unfold loop_state in E. split; congruence. }
  intros [c0 cmd c1 H | msg c0 r c1 H | msg c0 r c1 H | msg c0 r c1 H] IH Hm.
  - destruct (mode c0) eqn:Hm0.
    + rewrite update_STAND in H by assumption.
      apply bind_Ok in H as (u & c2 & Hh & H). inv_run H.
      cbn [mode stand_percent set_loop_count] in *.
      apply handle_stand_mode_cases in Hh as [[_ E]|(Hle & _ & ->)].
      * congruence.
      * exact Hle.
    + rewrite update_WALK in H by assumption.
      apply bind_Ok in H as (u & c2 & Hh & H). inv_run H.
      cbn [mode stand_percent set_loop_count] in *.
      rewrite (handle_walk_mode_keeps_stand_percent _ _ _ _ _ Hh). auto.
  - destruct (L _ _ (Hs _ _ _ _ H)) as [E1 E2]. rewrite E2. apply IH. congruence.
  - destruct (L _ _ (Hi _ _ _ _ H)) as [E1 E2]. rewrite E2. apply IH. congruence.
  - destruct (L _ _ (Hj _ _ _ _ H)) as [E1 E2]. rewrite E2. apply IH. congruence.
Qed.

(** The controller is in WALK mode only after it has stood up: in every
    state the run reaches in WALK mode, the stand percentage is at least 1. *)
Theorem walk_only_after_standing cfg ext c :
  reachable cfg ext c → mode c = WALK → (1 <= stand_percent c)%Q.
Proof.
  intros (c1 & Hstart & Hrtc).
  destruct (started_facts _ _ Hstart) as (_ & Hm & _).
  assert (H1 : mode c1 = WALK → (1 <= stand_percent c1)%Q) by congruence.
  clear Hstart Hm. induction Hrtc as [|c1 c2 c Hstep _ IH]; [exact H1|].
  apply IH. eapply step_walk_after_standing; eassumption.
Qed.

Lemma demo_walking_mode : mode Demo.walking = WALK.
Proof. vm_compute. reflexivity. Qed.

Lemma walk_only_after_standing_witness : (1 <= stand_percent Demo.walking)%Q.
Proof.
  exact (walk_only_after_standing Demo.quick Demo.ext Demo.walking
           demo_walking_reachable demo_walking_mode).
Defined.

(** The outcome of the loop body of STAND mode for one joint: it writes the
    command slot of the joint if the command has that slot, and raises
    [IndexError] with nothing written if not *)
Lemma stand_joint_outcome cfg c j :
  angles_known cfg → ready_to_stand cfg c → j < joint_num cfg →
  ∃ d name target,
    default_joint_angles c !! j = Some d ∧
    joint_names cfg !! j = Some name ∧
    default_joint_angle cfg !! name = Some target ∧
    stand_joint cfg j c
    = if decide (toPhysical j < joint_num cfg)
      then (Ok tt,
            set_robot_cmd
              (RobotCmd.set_q
                 (<[toPhysical j:=(d * (1 - stand_percent c)
                                   + target * stand_percent c)%Q]>
                    (RobotCmd.q (robot_cmd c)))
                 (robot_cmd c)) c)
      else (Raise IndexError, c).
Proof.
  intros Hknown [Hq Hd] Hj.
  destruct (Hknown j Hj) as (name & v & Hname & Hv).
  destruct (lookup_lt_is_Some_2 (default_joint_angles c) j) as [d Hdj]; [lia|].
  exists d, name, v. repeat (split; [assumption|]).
  unfold stand_joint.
  rewrite bind_get.
  rewrite (bind_lift_Ok _ d) by (apply getitem_Ok; exact Hdj).
  rewrite bind_get.
  rewrite (bind_lift_Ok _ name) by (apply getitem_Ok; exact Hname).
  rewrite (bind_lift_Ok _ v) by (unfold dict_get; rewrite Hv; reflexivity).
  cbn zeta. rewrite set_joint_command_aligned_slot.
  case_decide as Hslot.
  - apply set_cmd_q_Ok. split; [lia | reflexivity].
  - unfold set_cmd_q. rewrite bind_get. apply bind_lift_Raise.
    unfold setitem. rewrite decide_False by lia. reflexivity.
Qed.

Lemma ready_to_stand_set_q cfg c q' :
  ready_to_stand cfg c → length q' = joint_num cfg →
  ready_to_stand cfg (set_robot_cmd (RobotCmd.set_q q' (robot_cmd c)) c).
Proof. intros [_ Hd] Hq. split; assumption. Qed.

(** The loop of STAND mode over the joints [start, start + n) *)
Lemma stand_loop_outcome cfg :
  angles_known cfg →
  ∀ n start c,
    ready_to_stand cfg c → start + n ≤ joint_num cfg →
    (∃ j, start ≤ j < start + n ∧ joint_num cfg ≤ toPhysical j) ∧
    (∃ c', for_from start n (stand_joint cfg) c = (Raise IndexError, c'))
    ∨
    (∀ j, start ≤ j < start + n → toPhysical j < joint_num cfg) ∧
    ∃ c', for_from start n (stand_joint cfg) c = (Ok tt, c') ∧
          ready_to_stand cfg c' ∧
          stand_percent c' = stand_percent c ∧
          default_joint_angles c' = default_joint_angles c ∧
          (∀ j, start ≤ j < start + n →
                ∃ d name target,
                  default_joint_angles c !! j = Some d ∧
                  joint_names cfg !! j = Some name ∧
                  default_joint_angle cfg !! name = Some target ∧
                  RobotCmd.q (robot_cmd c') !! toPhysical j
                  = Some (d * (1 - stand_percent c)
                          + target * stand_percent c)%Q) ∧
          (∀ p, (∀ j, start ≤ j < start + n → toPhysical j ≠ p) →
                RobotCmd.q (robot_cmd c') !! p = RobotCmd.q (robot_cmd c) !! p).
Proof.
  intros Hknown. induction n as [|n IH]; intros start c Hready Hle.
  - right. split; [intros j Hj; lia|]. exists c.
    split; [reflexivity|]. split; [exact Hready|].
    split; [reflexivity|]. split; [reflexivity|].
    split; [intros j Hj; lia | reflexivity].
  - destruct (stand_joint_outcome cfg c start Hknown Hready)
      as (d & name & target & Hd & Hname & Htarget & Ebody); [lia|].
    cbn [for_from]. case_decide as Hslot.
    + rewrite (bind_run_Ok _ _ _ _ _ Ebody).
      set (c1 := set_robot_cmd _ c) in *.
      assert (Hready1 : ready_to_stand cfg c1).
      { apply ready_to_stand_set_q; [exact Hready|].
        rewrite length_insert. apply Hready. }
      destruct (IH (S start) c1 Hready1) as
        [[(j & Hj & Hbad) [c' E]] | [Hall (c' & E & Hr' & Hsp & Hdef & P1 & P2)]];
        [lia| |].
      * left. split; [exists j; split; [lia | exact Hbad]|]. eauto.
      * right. split.
        { intros j Hj. destruct (decide (j = start)) as [->|];
            [exact Hslot | apply Hall; lia]. }
        exists c'. split; [exact E|]. split; [exact Hr'|].
        split; [rewrite Hsp; reflexivity|]. split; [rewrite Hdef; reflexivity|].
        assert (Hlt : toPhysical start < length (RobotCmd.q (robot_cmd c)))
          by (destruct Hready as [-> _]; exact Hslot).
        split.
        -- intros j Hj. destruct (decide (j = start)) as [->|Hne].
           ++ exists d, name, target. repeat (split; [assumption|]).
              rewrite P2.
              ** subst c1. cbn. apply list_lookup_insert_eq. exact Hlt.
              ** intros i Hi E'. apply toPhysical_inj in E'. lia.
           ++ destruct (P1 j) as (dj & nj & tj & ? & ? & ? & Hpos); [lia|].
              exists dj, nj, tj. repeat (split; [assumption|]). exact Hpos.
        -- intros p Hp. rewrite P2 by (intros i Hi; apply Hp; lia).
           subst c1. cbn. apply list_lookup_insert_ne. apply Hp. lia.
    + left. split; [exists start; split; lia|].
      exists c. apply bind_run_Raise. exact Ebody.
Qed.

Lemma toPhysical_closed n :
  (∀ j, j < n → toPhysical j < n) ↔ n ≤ 1 ∨ 5 ≤ n.
Proof.
  split.
  - intros H. destruct (decide (n ≤ 1)); [auto|].
    destruct (decide (5 ≤ n)); [auto|]. exfalso.
    destruct (decide (n = 4)) as [->|].
    + specialize (H 3). rewrite toPhysical_table in H. lia.
    + specialize (H 1). rewrite toPhysical_table in H. lia.
  - intros H j Hj. unfold toPhysical. repeat case_decide; lia.
Qed.

Lemma methods_keep_default_joint_angles cfg ext :
  keeps default_joint_angles (update cfg ext) ∧
  (∀ msg, keeps default_joint_angles (robot_state_callback msg)) ∧
  (∀ msg, keeps default_joint_angles (imu_data_callback msg)) ∧
  (∀ msg, keeps default_joint_angles (sensor_joy_callback msg)).
Proof. repeat split; intros; solve_keeps. Qed.

(** What STAND mode relies on holds in every state of the run *)
Lemma reachable_stand_facts cfg ext c :
  reachable cfg ext c →
  angles_known cfg ∧ ready_to_stand cfg c ∧
  default_joint_angles c = replicate (joint_num cfg) 0%Q ∧
  ∃ inc, py_div 1 (stand_duration cfg * loop_frequency cfg) = Ok inc.
Proof.
  intros Hr.
  destruct (methods_keep_default_joint_angles cfg ext) as (Hu & Hs & Hi & Hj).
  destruct (methods_keep_cmd_q_length cfg ext) as (Lu & _ & Ls & Li & Lj).
  destruct Hr as (c1 & Hstart & Hrtc).
  destruct (started_facts _ _ Hstart) as (Hknown & _ & Hready & _ & _ & inc & Hinc & _).
  assert (Hdef : default_joint_angles c1 = replicate (joint_num cfg) 0%Q).
  { destruct Hstart as (imu0 & c0 & _ & Hrun). unfold run_init in Hrun.
    inv_run Hrun. reflexivity. }
  split; [exact Hknown|].
  assert (G : ready_to_stand cfg c ∧
              default_joint_angles c = replicate (joint_num cfg) 0%Q).
  { clear Hstart Hinc. induction Hrtc as [|c1 c2 c Hstep _ IH]; [auto|].
    apply IH.
    - destruct Hready as [Hq Hd].
      assert (E : cmd_q_length c2 = cmd_q_length c1 ∧
                  default_joint_angles c2 = default_joint_angles c1).
      { destruct Hstep as [? ? ? H | ? ? ? ? H | ? ? ? ? H | ? ? ? ? H];
          split;
          first [ eapply Lu, H | eapply Ls, H | eapply Li, H | eapply Lj, H
                | eapply Hu, H | eapply Hs, H | eapply Hi, H | eapply Hj, H ]. }
      destruct E as [E1 E2]. unfold cmd_q_length in E1.
      split; congruence.
    - rewrite <- Hdef.
      destruct Hstep as [? ? ? H | ? ? ? ? H | ? ? ? ? H | ? ? ? ? H];
        first [ eapply Hu, H | eapply Hs, H | eapply Hi, H | eapply Hj, H ]. }
  destruct G as [G1 G2]. split; [exact G1|]. split; [exact G2|]. eauto.
Qed.

Lemma stand_tick_values cfg ext c cmd c' :
  reachable cfg ext c → mode c = STAND → (stand_percent c < 1)%Q →
  update cfg ext c = (Ok cmd, c') →
  mode c' = STAND ∧
  stand_percent c'
  = (stand_percent c + 1 / (stand_duration cfg * loop_frequency cfg))%Q ∧
  ∀ j name target,
    joint_names cfg !! j = Some name →
    default_joint_angle cfg !! name = Some target →
    RobotCmd.q cmd !! toPhysical j
    = Some (0 * (1 - stand_percent c) + target * stand_percent c)%Q.
Proof.
  intros Hr Hm Hlt Hu.
  destruct (reachable_stand_facts _ _ _ Hr) as (Hknown & Hready & Hdef & _).
  rewrite update_STAND in Hu by assumption.
  apply bind_Ok in Hu as ([] & c1 & Hh & Hu). inv_run Hu.
  unfold handle_stand_mode in Hh. rewrite bind_get in Hh.
  rewrite (proj2 (Qltb_true _ _) Hlt) in Hh.
  apply bind_Ok in Hh as ([] & c2 & Hloop & Hh).
  unfold for_range in Hloop. fold (joint_num cfg) in Hloop.
  destruct (stand_loop_outcome cfg Hknown (joint_num cfg) 0 c Hready)
    as [[_ [c3 E]] | [_ (c3 & E & _ & Hsp & _ & P1 & _)]]; [lia| |].
  { rewrite E in Hloop. discriminate Hloop. }
  rewrite E in Hloop. injection Hloop as <-.
  rewrite bind_get in Hh.
  apply bind_Ok in Hh as (inc & c4 & Hinc & Hh).
  apply lift_Ok in Hinc as [Hinc ->]. apply put_Ok in Hh. subst c1.
  cbn [mode stand_percent robot_cmd set_loop_count set_stand_percent].
  assert (Hmode : mode c3 = mode c).
  { assert (K : keeps mode (for_from 0 (joint_num cfg) (stand_joint cfg)))
      by solve_keeps.
    eapply K, E. }
  split; [congruence|]. split.
  - rewrite Hsp. unfold py_div in Hinc.
    destruct (Qeq_bool _ 0); [discriminate|]. injection Hinc as <-. reflexivity.
  - intros j name target Hname Htarget.
    destruct (P1 j) as (d & name' & target' & Hd & Hn' & Ht' & Hpos).
    { apply lookup_lt_Some in Hname. unfold joint_num. lia. }
    assert (name' = name) as -> by congruence.
    assert (target' = target) as -> by congruence.
    rewrite Hdef in Hd. apply lookup_replicate in Hd as [<- _]. exact Hpos.
Qed.

(** A STAND tick below 100 percent that returns has written, for every
    joint, the interpolation between the zero pose and the default angle of
    the joint at the current stand percentage to the command slot of the
    joint, has added 1 / (stand_duration * loop_frequency) to the stand
    percentage, and has stayed in STAND mode. *)
Theorem stand_tick_interpolates cfg ext c cmd c' :
  reachable cfg ext c → mode c = STAND → (stand_percent c < 1)%Q →
  update cfg ext c = (Ok cmd, c') →
  mode c' = STAND ∧
  stand_percent c'
  = (stand_percent c + 1 / (stand_duration cfg * loop_frequency cfg))%Q ∧
  ∀ j name target,
    joint_names cfg !! j = Some name →
    default_joint_angle cfg !! name = Some target →
    RobotCmd.q cmd !! toPhysical j
    = Some (0 * (1 - stand_percent c) + target * stand_percent c)%Q.
Proof. apply stand_tick_values. Qed.

Lemma demo_at_start_reachable : reachable Demo.cfg Demo.ext Demo.at_start.
Proof. exists Demo.at_start. split; [exact demo_started | reflexivity]. Qed.

Lemma demo_first_tick :
  update Demo.cfg Demo.ext Demo.at_start
  = (Ok (robot_cmd (update Demo.cfg Demo.ext Demo.at_start).2),
     (update Demo.cfg Demo.ext Demo.at_start).2).
Proof. vm_compute. reflexivity. Qed.

Lemma stand_tick_interpolates_witness :
  mode (update Demo.cfg Demo.ext Demo.at_start).2 = STAND ∧
  stand_percent (update Demo.cfg Demo.ext Demo.at_start).2
  = (stand_percent Demo.at_start
     + 1 / (stand_duration Demo.cfg * loop_frequency Demo.cfg))%Q ∧
  ∀ j name target,
    joint_names Demo.cfg !! j = Some name →
    default_joint_angle Demo.cfg !! name = Some target →
    RobotCmd.q (robot_cmd (update Demo.cfg Demo.ext Demo.at_start).2)
      !! toPhysical j
    = Some (0 * (1 - stand_percent Demo.at_start)
            + target * stand_percent Demo.at_start)%Q.
Proof.
  exact (stand_tick_interpolates Demo.cfg Demo.ext Demo.at_start _ _
           demo_at_start_reachable eq_refl eq_refl demo_first_tick).
Defined.

(** A STAND tick below 100 percent returns for a robot of at most one or
    of at least five joints.  With two, three or four joints it raises
    [IndexError], since the remapping sends a joint to a command slot that
    does not exist; the loop counter is not advanced and nothing is
    published. *)
Theorem stand_tick_joint_count cfg ext c :
  reachable cfg ext c → mode c = STAND → (stand_percent c < 1)%Q →
  (joint_num cfg ≤ 1 ∨ 5 ≤ joint_num cfg →
   ∃ cmd c', update cfg ext c = (Ok cmd, c'))
  ∧ (2 ≤ joint_num cfg ≤ 4 →
     ∃ c', update cfg ext c = (Raise IndexError, c') ∧
           loop_count c' = loop_count c).
Proof.
  intros Hr Hm Hlt.
  destruct (reachable_stand_facts _ _ _ Hr)
    as (Hknown & Hready & _ & inc & Hinc).
  assert (Hstand : ∀ r c1,
            for_from 0 (joint_num cfg) (stand_joint cfg) c = (r, c1) →
            handle_stand_mode cfg c
            = match r with
              | Ok _ => (Ok tt, set_stand_percent (stand_percent c1 + inc) c1)
              | Raise e => (Raise e, c1)
              end).
  { intros r c1 E. unfold handle_stand_mode. rewrite bind_get.
    rewrite (proj2 (Qltb_true _ _) Hlt).
    unfold for_range. fold (joint_num cfg). destruct r as [[]|e].
    - rewrite (bind_run_Ok _ _ _ _ _ E), bind_get.
      rewrite (bind_lift_Ok _ _ _ _ Hinc). reflexivity.
    - apply bind_run_Raise, E. }
  destruct (stand_loop_outcome cfg Hknown (joint_num cfg) 0 c Hready)
    as [[(j & Hj & Hbad) [c1 E]] | [Hall (c1 & E & _)]]; [lia| |].
  - split.
    + intros Hn. pose proof (proj2 (toPhysical_closed _) Hn j) as Hc. lia.
    + intros _. exists c1. split.
      * rewrite update_STAND by assumption.
        apply bind_run_Raise. apply (Hstand _ _ E).
      * eapply (proj1 (handlers_keep_loop_count cfg ext)), (Hstand _ _ E).
  - split.
    + intros _. eexists _, _. rewrite update_STAND by assumption.
      rewrite (bind_run_Ok _ _ _ _ _ (Hstand _ _ E)). reflexivity.
    + intros Hn.
      assert (Hc : joint_num cfg ≤ 1 ∨ 5 ≤ joint_num cfg).
      { apply toPhysical_closed. intros i Hi. apply Hall. lia. }
      lia.
Qed.

Lemma three_start_reachable :
  reachable Cases.three Demo.ext Cases.three_start ∧
  mode Cases.three_start = STAND ∧
  (stand_percent Cases.three_start < 1)%Q ∧
  2 ≤ joint_num Cases.three ≤ 4.
Proof.
  split; [|vm_compute; repeat split; try reflexivity; lia].
  exists Cases.three_start. split; [|reflexivity].
  exists Demo.imu0.
  destruct (init Cases.three Demo.imu0) as [c0|e] eqn:E;
    [|vm_compute in E; discriminate E].
  exists c0. split; [reflexivity|].
  unfold Cases.three_start. rewrite E.
  vm_compute in E. injection E as <-. vm_compute. reflexivity.
Qed.

Lemma stand_tick_joint_count_witness :
  ∃ c', update Cases.three Demo.ext Cases.three_start = (Raise IndexError, c') ∧
        loop_count c' = loop_count Cases.three_start.
Proof.
  exact (proj2 (stand_tick_joint_count Cases.three Demo.ext Cases.three_start
                  (proj1 three_start_reachable)
                  (proj1 (proj2 three_start_reachable))
                  (proj1 (proj2 (proj2 three_start_reachable))))
           (proj2 (proj2 (proj2 three_start_reachable)))).
Defined.

(** ** The callbacks of the transport layer *)

(** The IMU callback takes over stamp, acceleration and angular velocity and
    stores the quaternion of the message, which has the scalar first, with
    the scalar last: (w, x, y, z) becomes (x, y, z, w). *)
Theorem imu_data_callback_reorders msg c w x y z rest a b c0 d tl :
  ImuData.quat msg = w :: x :: y :: z :: rest →
  ImuData.quat (imu_data c) = a :: b :: c0 :: d :: tl →
  imu_data_callback msg c
  = (Ok tt,
     set_imu_data
       (ImuData.mk (ImuData.stamp msg) (ImuData.acc msg) (ImuData.gyro msg)
          (x :: y :: z :: w :: tl)) c).
Proof.
  intros Hmsg Hc. unfold imu_data_callback.
  rewrite !bind_get, !bind_put. cbn [imu_data set_imu_data ImuData.stamp
    ImuData.acc ImuData.gyro ImuData.quat].
  rewrite Hmsg, Hc.
  repeat first
    [ rewrite bind_get | rewrite bind_put
    | erewrite bind_lift_Ok
        by (cbn [imu_data set_imu_data ImuData.quat];
            apply assign_from_cons; [reflexivity | cbn; lia]) ];
    cbn [imu_data set_imu_data ImuData.stamp ImuData.acc ImuData.gyro
         ImuData.quat].
  unfold put. destruct c. reflexivity.
Qed.

Lemma imu_data_callback_reorders_witness :
  imu_data_callback Cases.imu_msg Demo.fresh
  = (Ok tt,
     set_imu_data
       (ImuData.mk 7 [0; 0; 98 # 10]%Q [1 # 10; 0; 0]%Q [0; 0; 0; 1]%Q)
       Demo.fresh).
Proof.
  exact (imu_data_callback_reorders Cases.imu_msg Demo.fresh
           1%Q 0%Q 0%Q 0%Q [] 0%Q 0%Q 0%Q 1%Q [] eq_refl eq_refl).
Defined.

(** On a message whose quaternion has fewer than two entries the IMU
    callback raises [IndexError] after it has taken over stamp, acceleration
    and angular velocity: the controller is left with the new angular
    velocity and the old orientation. *)
Theorem imu_data_callback_short_quat msg c :
  length (ImuData.quat msg) ≤ 1 →
  imu_data_callback msg c
  = (Raise IndexError,
     set_imu_data
       (ImuData.mk (ImuData.stamp msg) (ImuData.acc msg) (ImuData.gyro msg)
          (ImuData.quat (imu_data c))) c).
Proof.
  intros Hlen. unfold imu_data_callback.
  repeat first [rewrite bind_get | rewrite bind_put].
  cbn [imu_data set_imu_data ImuData.stamp ImuData.acc ImuData.gyro
       ImuData.quat].
  rewrite (bind_lift_Raise _ IndexError).
  - destruct c. reflexivity.
  - unfold assign_from, getitem.
    rewrite (lookup_ge_None_2 (ImuData.quat msg) 1) by lia. reflexivity.
Qed.

Lemma imu_data_callback_short_quat_witness :
  imu_data_callback Cases.imu_short Demo.fresh
  = (Raise IndexError,
     set_imu_data
       (ImuData.mk 8 [0; 0; 98 # 10]%Q [1 # 10; 0; 0]%Q [0; 0; 0; 1]%Q)
       Demo.fresh).
Proof.
  exact (imu_data_callback_short_quat Cases.imu_short Demo.fresh
           (le_n 1)).
Defined.

Lemma sensor_joy_callback_keeps_length msg :
  keeps (λ c, length (commands c)) (sensor_joy_callback msg).
Proof.
  intros c r c'. unfold sensor_joy_callback.
  assert (S : ∀ (l : list Q) i v l', setitem l i v = Ok l' → length l' = length l).
  { intros l i v l' E. apply setitem_Ok in E as [_ ->]. apply length_insert. }
  unfold mbind, M_bind, get, lift, put.
  repeat match goal with
    | [ |- context [getitem ?l ?i] ] => destruct (getitem l i); cbn
    | [ |- context [setitem ?l ?i ?v] ] =>
        let E := fresh "E" in
        destruct (setitem l i v) eqn:E; cbn; [apply S in E|]
    end;
    intros [= _ <-]; cbn; congruence.
Qed.

Lemma methods_keep_commands_length cfg ext :
  keeps (λ c, length (commands c)) (update cfg ext) ∧
  keeps (λ c, length (commands c)) (run_init cfg) ∧
  (∀ msg, keeps (λ c, length (commands c)) (robot_state_callback msg)) ∧
  (∀ msg, keeps (λ c, length (commands c)) (imu_data_callback msg)).
Proof. repeat split; intros; solve_keeps. Qed.

Lemma reachable_commands_length cfg ext c :
  reachable cfg ext c → length (commands c) = 3.
Proof.
  destruct (methods_keep_commands_length cfg ext) as (Hu & Hr & Hs & Hi).
  intros (c1 & (imu0 & c0 & Hinit & Hrun) & Hrtc).
  assert (H1 : length (commands c1) = 3).
  { rewrite (Hr _ _ _ Hrun).
    apply init_Ok in Hinit as (? & ? & _ & ->). reflexivity. }
  clear Hinit Hrun. induction Hrtc as [|c1 c2 c Hstep _ IH]; [exact H1|].
  apply IH. rewrite <- H1.
  destruct Hstep as [? ? ? H | ? ? ? ? H | ? ? ? ? H | ? ? ? ? H].
  - eapply Hu, H.
  - eapply Hs, H.
  - eapply Hi, H.
  - eapply (sensor_joy_callback_keeps_length _ _ _ _ H).
Qed.

(** The joystick callback stores half of axis 1 as the forward command,
    half of axis 0 as the lateral command and half of axis 2 as the yaw
    command; the command vector has three entries in every state of the
    run. *)
Theorem sensor_joy_callback_commands cfg ext c msg a0 a1 a2 rest :
  reachable cfg ext c →
  SensorJoy.axes msg = a0 :: a1 :: a2 :: rest →
  length (commands c) = 3 ∧
  sensor_joy_callback msg c
  = (Ok tt, set_commands [a1 * (1 # 2); a0 * (1 # 2); a2 * (1 # 2)]%Q c).
Proof.
  intros Hr Hax. pose proof (reachable_commands_length _ _ _ Hr) as Hlen.
  split; [exact Hlen|].
  destruct (commands c) as [|c0 [|c1 [|c2 [|]]]] eqn:Hc; try discriminate Hlen.
  unfold sensor_joy_callback. rewrite Hax.
  unfold mbind, M_bind, get, lift, put. cbn. rewrite Hc. cbn.
  destruct c. reflexivity.
Qed.

Lemma sensor_joy_callback_commands_witness :
  length (commands Demo.walking) = 3 ∧
  sensor_joy_callback Cases.joy_msg Demo.walking
  = (Ok tt, set_commands [1 * (1 # 2); (1 # 2) * (1 # 2); - (1) * (1 # 2)]%Q
              Demo.walking).
Proof.
  exact (sensor_joy_callback_commands Demo.quick Demo.ext Demo.walking
           Cases.joy_msg (1 # 2)%Q 1%Q (- (1))%Q [0%Q]
           demo_walking_reachable eq_refl).
Defined.

(** On a message with two axes the joystick callback raises [IndexError]
    after it has written the forward and the lateral command: the yaw
    command keeps its old value. *)
Theorem sensor_joy_callback_two_axes cfg ext c msg a0 a1 :
  reachable cfg ext c →
  SensorJoy.axes msg = [a0; a1] →
  ∃ yaw, commands c !! 2 = Some yaw ∧
         sensor_joy_callback msg c
         = (Raise IndexError,
            set_commands [a1 * (1 # 2); a0 * (1 # 2); yaw]%Q c).
Proof.
  intros Hr Hax. pose proof (reachable_commands_length _ _ _ Hr) as Hlen.
  destruct (commands c) as [|c0 [|c1 [|c2 [|]]]] eqn:Hc; try discriminate Hlen.
  exists c2. split; [reflexivity|].
  unfold sensor_joy_callback. rewrite Hax.
  unfold mbind, M_bind, get, lift, put. cbn. rewrite Hc. cbn.
  destruct c. reflexivity.
Qed.

Lemma sensor_joy_callback_two_axes_witness :
  ∃ yaw, commands Demo.walking !! 2 = Some yaw ∧
         sensor_joy_callback Cases.joy_short Demo.walking
         = (Raise IndexError,
            set_commands [1 * (1 # 2); (1 # 2) * (1 # 2); yaw]%Q Demo.walking).
Proof.
  exact (sensor_joy_callback_two_axes Demo.quick Demo.ext Demo.walking
           Cases.joy_short (1 # 2)%Q 1%Q demo_walking_reachable eq_refl).
Defined.

(** ** The gait phase *)

(** [compute_gait_phase] changes nothing and returns the pair of the sine
    and the cosine at one gait index, the fractional part of
    loop_count / loop_frequency * gait_command[0], which is at least 0 and
    below 1.  It raises [ZeroDivisionError] when the loop frequency is 0. *)
Theorem compute_gait_phase_fraction cfg ext c :
  ((loop_frequency cfg == 0)%Q →
   compute_gait_phase cfg ext c = (Raise ZeroDivisionError, c))
  ∧ (∀ v c', compute_gait_phase cfg ext c = (Ok v, c') →
       c' = c ∧
       ∃ f frac,
         gait_command c !! 0 = Some f ∧
         let x := (inject_Z (loop_count c) / loop_frequency cfg * f)%Q in
         frac = (x - inject_Z (Qfloor x))%Q ∧
         (0 <= frac)%Q ∧ (frac < 1)%Q ∧
         v = [sin_2pi ext frac; cos_2pi ext frac]).
Proof.
  split.
  - intros Hz. unfold compute_gait_phase. rewrite bind_get.
    apply bind_lift_Raise. unfold py_div.
    rewrite (proj2 (Qeq_bool_iff _ _) Hz). reflexivity.
  - intros v c' H. unfold compute_gait_phase in H. inv_run H.
    injection H as <-.
    match goal with
    | [ E : py_div _ _ = Ok _ |- _ ] =>
        unfold py_div in E; destruct (Qeq_bool _ 0); [discriminate E|];
        injection E as <-
    end.
    split; [reflexivity|]. eexists _, _. split; [eassumption|].
    cbn zeta. split; [reflexivity|].
    set (x := (_ * _)%Q).
    pose proof (Qfloor_le x) as Hlo. pose proof (Qlt_floor x) as Hhi.
    rewrite inject_Z_plus in Hhi. change (inject_Z 1) with 1%Q in Hhi.
    split; [lra|]. split; [lra|]. reflexivity.
Qed.


Lemma gait_phase_scenario_B :
  compute_gait_phase Demo.cfg Demo.ext (set_loop_count 1250 Demo.fresh)
  = (Ok [0; 1]%Q, set_loop_count 1250 Demo.fresh).
Proof. vm_compute. reflexivity. Qed.

Lemma compute_gait_phase_fraction_witness :
  set_loop_count 1250 Demo.fresh = set_loop_count 1250 Demo.fresh ∧
  ∃ f frac,
    gait_command (set_loop_count 1250 Demo.fresh) !! 0 = Some f ∧
    let x := (inject_Z (loop_count (set_loop_count 1250 Demo.fresh))
              / loop_frequency Demo.cfg * f)%Q in
    frac = (x - inject_Z (Qfloor x))%Q ∧
    (0 <= frac)%Q ∧ (frac < 1)%Q ∧
    [0; 1]%Q = [sin_2pi Demo.ext frac; cos_2pi Demo.ext frac].
Proof.
  exact (proj2 (compute_gait_phase_fraction Demo.cfg Demo.ext
                  (set_loop_count 1250 Demo.fresh))
           _ _ gait_phase_scenario_B).
Defined.

(** ** Clipping *)

Lemma clip1_between lo hi v :
  (lo <= hi)%Q → (lo <= clip1 lo hi v)%Q ∧ (clip1 lo hi v <= hi)%Q.
Proof.
  intros Hle. unfold clip1.
  destruct (Qle_bool lo v) eqn:E1.
  - apply Qle_bool_iff in E1. destruct (Qle_bool v hi) eqn:E2.
    + apply Qle_bool_iff in E2. auto.
    + split; [assumption | apply Qle_refl].
  - destruct (Qle_bool lo hi) eqn:E2.
    + split; [apply Qle_refl | assumption].
    + apply Qle_bool_iff in Hle. congruence.
Qed.

Lemma clip1_inside lo hi v :
  (lo <= v)%Q → (v <= hi)%Q → clip1 lo hi v = v.
Proof.
  intros H1 H2. unfold clip1.
  rewrite (proj2 (Qle_bool_iff _ _) H1), (proj2 (Qle_bool_iff _ _) H2).
  reflexivity.
Qed.

Lemma np_clip_within bound v :
  (0 <= bound)%Q → within bound (np_clip v (- bound)%Q bound).
Proof.
  intros Hb. unfold within, np_clip. apply Forall_forall.
  intros x Hx. apply list_elem_of_fmap in Hx as (y & -> & _).
  apply clip1_between. lra.
Qed.

(** The encoder is called on a clipped copy of the history part of the
    observation: a vector of the same length, every entry of which lies
    within the bound clip_observations (taken non-negative), and which agrees
    with the observation wherever the observation lies within the bound. *)
Theorem encoder_input_is_clipped cfg ext c c' :
  (0 <= clip_observations cfg)%Q →
  compute_observation cfg ext c = (Ok tt, c') →
  ∃ hist input latent,
    observations c' = hist ++ latent ∧
    encoder_run ext input = Ok latent ∧
    length input = length hist ∧
    within (clip_observations cfg) input ∧
    ∀ i x, hist !! i = Some x →
           (- clip_observations cfg <= x)%Q → (x <= clip_observations cfg)%Q →
           input !! i = Some x.
Proof.
  intros Hb H.
  apply compute_observation_Ok in H
    as (h' & parts & latent & -> & _ & Henc & _).
  exists (concat parts),
    (np_clip (concat parts) (- clip_observations cfg)%Q (clip_observations cfg)),
    latent.
  cbn [observations set_observations].
  split; [reflexivity|]. split; [exact Henc|]. split; [|split].
  - unfold np_clip. apply length_fmap.
  - apply np_clip_within, Hb.
  - intros i x Hi Hlo Hhi. unfold np_clip.
    rewrite list_lookup_fmap, Hi. cbn. f_equal. apply clip1_inside; assumption.
Qed.

Lemma demo_at_start_observation :
  compute_observation Demo.cfg Demo.ext Demo.at_start
  = (Ok tt, (compute_observation Demo.cfg Demo.ext Demo.at_start).2).
Proof. vm_compute. reflexivity. Qed.

Lemma demo_clip_nonneg : (0 <= clip_observations Demo.cfg)%Q.
Proof. vm_compute. discriminate. Qed.

Lemma encoder_input_is_clipped_witness :
  ∃ hist input latent,
    observations (compute_observation Demo.cfg Demo.ext Demo.at_start).2
    = hist ++ latent ∧
    encoder_run Demo.ext input = Ok latent ∧
    length input = length hist ∧
    within (clip_observations Demo.cfg) input ∧
    ∀ i x, hist !! i = Some x →
           (- clip_observations Demo.cfg <= x)%Q →
           (x <= clip_observations Demo.cfg)%Q →
           input !! i = Some x.
Proof.
  exact (encoder_input_is_clipped Demo.cfg Demo.ext Demo.at_start _
           demo_clip_nonneg demo_at_start_observation).
Defined.

(** The action stored by an inference tick for a joint is the torque clamp
    of the clipped output of the policy.  When the torque bounds of the
    joint overlap the range of clip_actions, it lies within both: the
    effective bounds are the tighter ones. *)
Theorem clipped_action_effective_bounds cfg q q0 dq a :
  (0 < stiffness cfg)%Q → (0 <= user_torque_limit cfg)%Q →
  (0 < action_scale_pos cfg)%Q → (0 <= clip_actions cfg)%Q →
  let lo := (action_min cfg q q0 dq / action_scale_pos cfg)%Q in
  let hi := (action_max cfg q q0 dq / action_scale_pos cfg)%Q in
  let a' := clamp_action cfg q q0 dq
              (clip1 (- clip_actions cfg)%Q (clip_actions cfg) a) in
  (lo <= clip_actions cfg)%Q → (- clip_actions cfg <= hi)%Q →
  (lo <= a')%Q ∧ (a' <= hi)%Q ∧
  (- clip_actions cfg <= a')%Q ∧ (a' <= clip_actions cfg)%Q.
Proof.
  intros Hk HT Hs Hc. cbv zeta. intros Hlo Hhi.
  pose proof (action_bounds_ordered cfg Hk HT Hs q q0 dq) as Hord.
  unfold clamp_action.
  set (lo := (action_min cfg q q0 dq / action_scale_pos cfg)%Q) in *.
  set (hi := (action_max cfg q q0 dq / action_scale_pos cfg)%Q) in *.
  destruct (clip1_between (- clip_actions cfg)%Q (clip_actions cfg) a)
    as [Hc1 Hc2]; [lra|].
  set (b := clip1 _ _ a) in *.
  destruct (clamp_between lo hi b Hord) as [H1 H2].
  split; [exact H1|]. split; [exact H2|].
  destruct (py_min_le hi b) as [M1 M2].
  assert (M3 : (- clip_actions cfg <= py_min hi b)%Q).
  { unfold py_min. destruct (Qle_bool hi b); assumption. }
  destruct (py_max_ge lo (py_min hi b)) as [_ A2].
  split; [lra|].
  destruct (py_max_cases lo (py_min hi b)) as [-> | ->]; lra.
Qed.

Lemma clipped_action_effective_bounds_witness :
  let a' := clamp_action Demo.cfg 0 0 0
              (clip1 (- clip_actions Demo.cfg)%Q (clip_actions Demo.cfg) 500) in
  (action_min Demo.cfg 0 0 0 / action_scale_pos Demo.cfg <= a')%Q ∧
  (a' <= action_max Demo.cfg 0 0 0 / action_scale_pos Demo.cfg)%Q ∧
  (- clip_actions Demo.cfg <= a')%Q ∧ (a' <= clip_actions Demo.cfg)%Q.
Proof.
  refine (clipped_action_effective_bounds Demo.cfg 0 0 0 500 _ _ _ _ _ _);
    vm_compute; first [reflexivity | discriminate].
Defined.

(** ** A WALK tick on the joints of the robot *)

Lemma toPhysical_toLogical p : toPhysical (toLogical p) = p.
Proof. unfold toLogical, toPhysical. repeat case_decide; lia. Qed.

(** The two remappings fit together.  After a WALK tick that returns, slot
    p of the published command holds the position that the tick has
    computed from the q and dq that the sensor state has at the same index
    p: the action of joint [toLogical p], clamped to the bounds taken from
    this q and dq and from the neutral angle of that joint, and turned into
    a position with the same neutral angle.  This holds for every index of
    the sensor state. *)
Theorem walk_tick_command_on_robot cfg ext c cmd c' :
  mode c = WALK → update cfg ext c = (Ok cmd, c') →
  ∀ p q dq,
    RobotState.q (robot_state c) !! p = Some q →
    RobotState.dq (robot_state c) !! p = Some dq →
    ∃ q0 a,
      init_joint_angles c !! toLogical p = Some q0 ∧
      actions c' !! toLogical p = Some (clamp_action cfg q q0 dq a) ∧
      RobotCmd.q cmd !! p
      = Some (pos_des cfg (clamp_action cfg q q0 dq a) q0).
Proof.
  intros Hm Hu p q dq Hq Hdq.
  destruct (walk_tick_joints _ _ _ _ _ Hm Hu)
    as (aligned & c0 & Hal & _ & _ & _ & _ & P1 & _).
  apply align_robot_state_lookup in Hal as (_ & _ & Lq & Ldq & _).
  rewrite <- Lq in Hq. rewrite <- Ldq in Hdq.
  destruct (P1 (toLogical p))
    as (q' & q0 & dq' & a & Hq' & Hdq' & Hq0 & _ & Hact & Hpos).
  { eapply lookup_lt_Some, Hq. }
  rewrite toPhysical_toLogical in Hpos.
  assert (q' = q) as -> by congruence. assert (dq' = dq) as -> by congruence.
  exists q0, a. split; [exact Hq0|]. split; [exact Hact | exact Hpos].
Qed.

Lemma demo_walking_sensor :
  RobotState.q (robot_state Demo.walking) !! 1 = Some (1 # 10)%Q ∧
  RobotState.dq (robot_state Demo.walking) !! 1 = Some 0%Q.
Proof. vm_compute. split; reflexivity. Qed.

Lemma walk_tick_command_on_robot_witness :
  ∃ q0 a,
    init_joint_angles Demo.walking !! toLogical 1 = Some q0 ∧
    actions (update Demo.quick Demo.ext Demo.walking).2 !! toLogical 1
    = Some (clamp_action Demo.quick (1 # 10) q0 0 a) ∧
    RobotCmd.q (robot_cmd (update Demo.quick Demo.ext Demo.walking).2) !! 1
    = Some (pos_des Demo.quick (clamp_action Demo.quick (1 # 10) q0 0 a) q0).
Proof.
  exact (walk_tick_command_on_robot Demo.quick Demo.ext Demo.walking _ _
           demo_walking_mode (proj1 demo_walking_tick) 1 _ _
           (proj1 demo_walking_sensor) (proj2 demo_walking_sensor)).
Defined.

Lemma compute_observation_keeps_walk_inputs cfg ext :
  keeps walk_inputs (compute_observation cfg ext).
Proof. solve_keeps. Qed.

(** An inference tick, taken apart: the observation is computed on the
    aligned state, the policy is run on it, and the loop over the joints
    starts from the clipped output of the policy *)
Lemma handle_walk_mode_inference cfg ext c c' :
  handle_walk_mode cfg ext c = (Ok tt, c') →
  (loop_count c mod decimation cfg)%Z = 0%Z →
  ∃ aligned c1 out,
    align_robot_state (robot_state c) = Ok aligned ∧
    compute_observation cfg ext
      (set_imu_data_tmp (imu_data c) (set_robot_state_tmp aligned c))
    = (Ok tt, c1) ∧
    policy_run ext (observations c1) = Ok out ∧
    for_range (length (RobotState.q aligned))
      (walk_joint cfg (RobotState.q aligned) (RobotState.dq aligned))
      (set_actions (np_clip out (- clip_actions cfg)%Q (clip_actions cfg)) c1)
    = (Ok tt, c').
Proof.
  unfold handle_walk_mode. intros H Hz. rewrite bind_get in H.
  apply bind_Ok in H as (aligned & c1 & Hal & H).
  apply lift_Ok in Hal as [Hal ->].
  rewrite bind_put, bind_get, bind_put, bind_get in H.
  apply bind_Ok in H as (r & c1 & Hmod & H).
  apply lift_Ok in Hmod as [Hmod ->].
  apply py_mod_Ok in Hmod as [_ ->].
  cbn [loop_count set_imu_data_tmp set_robot_state_tmp] in H.
  apply bind_Ok in H as ([] & c0 & Hif & H). rewrite bind_get in H.
  rewrite decide_True in Hif by exact Hz.
  apply bind_Ok in Hif as ([] & c1 & Hobs & Hif).
  apply bind_Ok in Hif as ([] & c2 & Hact & Hif).
  unfold compute_actions in Hact. inv_run Hact. inv_run Hif.
  pose proof (compute_observation_keeps_walk_inputs _ _ _ _ _ Hobs) as Hk.
  injection Hk as Htmp _. cbn in Htmp.
  cbn [robot_state_tmp set_actions] in H. rewrite Htmp in H.
  eexists aligned, c1, _. repeat (split; [eassumption|]). exact H.
Qed.

(** On a tick whose loop count is a multiple of the decimation the policy
    is run on the observation that the tick has just stored, and the action
    stored for every joint of the sensor state is the torque clamp, at the
    aligned q and dq of the tick, of the output of the policy clipped to
    clip_actions. *)
Theorem inference_tick_actions cfg ext c cmd c' :
  mode c = WALK → (loop_count c mod decimation cfg)%Z = 0%Z →
  update cfg ext c = (Ok cmd, c') →
  ∃ out,
    policy_run ext (observations c') = Ok out ∧
    ∀ i, i < length (RobotState.q (robot_state_tmp c')) →
         ∃ q q0 dq a,
           RobotState.q (robot_state_tmp c') !! i = Some q ∧
           RobotState.dq (robot_state_tmp c') !! i = Some dq ∧
           init_joint_angles c !! i = Some q0 ∧
           out !! i = Some a ∧
           actions c' !! i
           = Some (clamp_action cfg q q0 dq
                     (clip1 (- clip_actions cfg)%Q (clip_actions cfg) a)).
Proof.
  intros Hm Hz Hu.
  rewrite update_WALK in Hu by assumption.
  apply bind_Ok in Hu as ([] & c2 & Hw & Hu). inv_run Hu.
  apply handle_walk_mode_inference in Hw
    as (aligned & c1 & out & Hal & Hobs & Hpol & Hloop); [|exact Hz].
  pose proof (compute_observation_keeps_walk_inputs _ _ _ _ _ Hobs) as Hk.
  injection Hk as Htmp Hang. cbn in Htmp, Hang.
  pose proof (walk_loop_keeps_inference_state _ _ _ _ _ _ _ Hloop) as Hinf.
  injection Hinf as Hobs' _ _. cbn in Hobs'.
  assert (Htmp' : robot_state_tmp c2 = aligned).
  { assert (K : keeps robot_state_tmp
                  (for_range (length (RobotState.q aligned))
                     (walk_joint cfg (RobotState.q aligned)
                        (RobotState.dq aligned)))) by solve_keeps.
    rewrite (K _ _ _ Hloop). exact Htmp. }
  apply walk_loop_Ok in Hloop as (P1 & _ & _).
  cbn [observations robot_state_tmp actions init_joint_angles set_loop_count
       set_actions] in *.
  exists out. split; [rewrite Hobs'; exact Hpol|].
  rewrite Htmp'. intros i Hi.
  destruct (P1 i) as (q & q0 & dq & a & Hq & Hq0 & Hdq & Ha & Ha' & _); [lia|].
  unfold np_clip in Ha. rewrite list_lookup_fmap in Ha.
  destruct (out !! i) as [o|] eqn:Ho; [|discriminate Ha].
  cbn in Ha. injection Ha as <-.
  exists q, q0, dq, o. rewrite <- Hang.
  repeat (split; [first [assumption | reflexivity]|]). exact Ha'.
Qed.

Lemma demo_spinning_facts :
  mode Demo.spinning = WALK ∧
  (loop_count Demo.spinning mod decimation Demo.quick)%Z = 0%Z ∧
  update Demo.quick Demo.ext Demo.spinning
  = (Ok (robot_cmd (update Demo.quick Demo.ext Demo.spinning).2),
     (update Demo.quick Demo.ext Demo.spinning).2).
Proof. vm_compute. repeat split; reflexivity. Qed.

Lemma inference_tick_actions_witness :
  ∃ out,
    policy_run Demo.ext
      (observations (update Demo.quick Demo.ext Demo.spinning).2) = Ok out ∧
    ∀ i, i < length (RobotState.q
                       (robot_state_tmp
                          (update Demo.quick Demo.ext Demo.spinning).2)) →
         ∃ q q0 dq a,
           RobotState.q (robot_state_tmp
                           (update Demo.quick Demo.ext Demo.spinning).2) !! i
           = Some q ∧
           RobotState.dq (robot_state_tmp
                            (update Demo.quick Demo.ext Demo.spinning).2) !! i
           = Some dq ∧
           init_joint_angles Demo.spinning !! i = Some q0 ∧
           out !! i = Some a ∧
           actions (update Demo.quick Demo.ext Demo.spinning).2 !! i
           = Some (clamp_action Demo.quick q q0 dq
                     (clip1 (- clip_actions Demo.quick)%Q
                        (clip_actions Demo.quick) a)).
Proof.
  exact (inference_tick_actions Demo.quick Demo.ext Demo.spinning _ _
           (proj1 demo_spinning_facts) (proj1 (proj2 demo_spinning_facts))
           (proj2 (proj2 demo_spinning_facts))).
Defined.

Lemma walk_loop_last_actions cfg jp jv n : ∀ start c c',
  for_from start n (walk_joint cfg jp jv) c = (Ok tt, c') →
  (∀ i, start ≤ i < start + n →
        is_Some (actions c' !! i) ∧ last_actions c' !! i = actions c' !! i)
  ∧ (∀ i, ¬ (start ≤ i < start + n) →
          last_actions c' !! i = last_actions c !! i ∧
          actions c' !! i = actions c !! i).
Proof.
  induction n as [|n IH]; intros start c c' H; cbn [for_from] in H.
  - apply ret_Ok in H as [_ ->]. split; [intros i Hi; lia | auto].
  - apply bind_Ok in H as ([] & c1 & Hbody & H).
    apply IH in H as (P1 & P2).
    apply walk_joint_Ok in Hbody
      as (q & q0 & dq & a & _ & _ & _ & Ha & _ & Hlast & ->).
    assert (Hlen : start < length (actions c)) by (eapply lookup_lt_Some, Ha).
    unfold walk_joint_effect in *.
    cbn [actions last_actions set_last_actions set_robot_cmd set_actions] in *.
    split.
    + intros i Hi. destruct (decide (i = start)) as [->|Hne].
      * destruct (P2 start) as [E1 E2]; [lia|]. rewrite E1, E2.
        rewrite !list_lookup_insert_eq by assumption. eauto.
      * apply P1. lia.
    + intros i Hi. destruct (P2 i) as [E1 E2]; [lia|]. rewrite E1, E2.
      rewrite !list_lookup_insert_ne by lia. auto.
Qed.

(** After a WALK tick that returns, [last_actions] holds, for every joint
    of the sensor state, the action that the tick has stored for it: this
    is the action sample of the next observation. *)
Theorem walk_tick_saves_last_actions cfg ext c cmd c' :
  mode c = WALK → update cfg ext c = (Ok cmd, c') →
  ∀ i, i < length (RobotState.q (robot_state_tmp c')) →
       is_Some (actions c' !! i) ∧ last_actions c' !! i = actions c' !! i.
Proof.
  intros Hm Hu.
  rewrite update_WALK in Hu by assumption.
  apply bind_Ok in Hu as ([] & c2 & Hw & Hu). inv_run Hu.
  apply handle_walk_mode_Ok in Hw
    as (aligned & c0 & _ & Htmp & _ & Hloop & _).
  assert (Htmp' : robot_state_tmp c2 = aligned).
  { assert (K : keeps robot_state_tmp
                  (for_range (length (RobotState.q aligned))
                     (walk_joint cfg (RobotState.q aligned)
                        (RobotState.dq aligned)))) by solve_keeps.
    rewrite (K _ _ _ Hloop). exact Htmp. }
  apply walk_loop_last_actions in Hloop as [P1 _].
  cbn [robot_state_tmp actions last_actions set_loop_count].
  rewrite Htmp'. intros i Hi. apply P1. lia.
Qed.

Lemma demo_walking_tick_joints :
  0 < length (RobotState.q
                (robot_state_tmp (update Demo.quick Demo.ext Demo.walking).2)).
Proof. vm_compute. lia. Qed.

Lemma walk_tick_saves_last_actions_witness :
  is_Some (actions (update Demo.quick Demo.ext Demo.walking).2 !! 0) ∧
  last_actions (update Demo.quick Demo.ext Demo.walking).2 !! 0
  = actions (update Demo.quick Demo.ext Demo.walking).2 !! 0.
Proof.
  exact (walk_tick_saves_last_actions Demo.quick Demo.ext Demo.walking _ _
           demo_walking_mode (proj1 demo_walking_tick) 0
           demo_walking_tick_joints).
Defined.

(** ** The sliding window of the history *)

Lemma while_short_full fuel n body c :
  n ≤ length (base_ang_vel_queue (history c)) →
  while_short fuel n body c = (Ok tt, c).
Proof.
  intros H. destruct fuel as [|fuel]; cbn [while_short]; [reflexivity|].
  rewrite bind_get. rewrite decide_False by lia. reflexivity.
Qed.

Lemma deque_append_full {A} n (d : list A) x :
  length d = n → 0 < n → deque_append n d x = drop 1 d ++ [x].
Proof.
  intros Hlen Hn. unfold deque_append. rewrite length_app. cbn [length].
  rewrite decide_True by lia. apply drop_app_le. lia.
Qed.

Lemma queues_hold_first n h :
  queues_hold n h → length (base_ang_vel_queue h) = n.
Proof. intros H. apply Forall_cons in H as [E _]. exact E. Qed.

(** After the first call, [compute_observation] slides every history deque
    by one: the oldest entry is dropped and the sample of this tick is
    appended.  The samples of the joint positions, the joint velocities,
    the actions, the commands and the gait command are the scaled deltas
    from the neutral pose, the scaled velocities of the aligned state, the
    last actions, the scaled joystick commands and the gait command. *)
Theorem history_slides cfg ext c c' :
  0 < history_length cfg → queues_hold (history_length cfg) (history c) →
  compute_observation cfg ext c = (Ok tt, c') →
  let h := history c in
  let h' := history c' in
  (∃ s, base_ang_vel_queue h' = drop 1 (base_ang_vel_queue h) ++ [s]) ∧
  (∃ s, projected_gravity_queue h'
        = drop 1 (projected_gravity_queue h) ++ [s]) ∧
  (∃ delta,
     np_broadcast Qminus (RobotState.q (robot_state_tmp c))
       (init_joint_angles c) = Ok delta ∧
     joint_positions_queue h'
     = drop 1 (joint_positions_queue h) ++ [np_scale delta (dof_pos cfg)]) ∧
  joint_velocities_queue h'
  = drop 1 (joint_velocities_queue h)
    ++ [np_scale (RobotState.dq (robot_state_tmp c)) (dof_vel cfg)] ∧
  actions_queue h' = drop 1 (actions_queue h) ++ [last_actions c] ∧
  (∃ s,
     np_dot (np_diag [lin_vel_x cfg; lin_vel_y cfg; ang_vel_yaw cfg])
       (commands c) = Ok s ∧
     scaled_commands_queue h' = drop 1 (scaled_commands_queue h) ++ [s]) ∧
  (∃ s, gait_phase_queue h' = drop 1 (gait_phase_queue h) ++ [s]) ∧
  gait_command_queue h' = drop 1 (gait_command_queue h) ++ [gait_command c].
Proof.
  intros Hn Hfull H. cbv zeta.
  unfold compute_observation, compute_gait_phase, compute_encoder_latent in H.
  inv_run H.
  repeat match goal with
    | [ E : mbind _ _ _ = (Ok _, _) |- _ ] => inv_run E
    end.
  match goal with
  | [ Hw : while_short _ _ _ _ = (Ok ?u, _),
      Ha : append_all _ _ _ _ _ _ _ _ _ _ = (Ok ?u', _) |- _ ] =>
      destruct u, u';
      rewrite while_short_full in Hw
        by (rewrite (queues_hold_first _ _ Hfull); lia);
      injection Hw as <-;
      apply append_all_Ok in Ha as (delta & Hdelta & Ec)
  end.
  rewrite Ec. cbn [history set_observations set_history appended
    base_ang_vel_queue projected_gravity_queue joint_positions_queue
    joint_velocities_queue actions_queue scaled_commands_queue
    gait_phase_queue gait_command_queue].
  unfold queues_hold, queues in Hfull.
  repeat match type of Hfull with
    | Forall _ (_ :: _) =>
        let E := fresh "E" in apply Forall_cons in Hfull as [E Hfull]
    end.
  rewrite !deque_append_full by assumption.
  repeat split; eauto.
Qed.

Lemma demo_second_observation :
  let c := (compute_observation Demo.cfg Demo.ext Demo.at_start).2 in
  0 < history_length Demo.cfg ∧
  queues_hold (history_length Demo.cfg) (history c) ∧
  compute_observation Demo.cfg Demo.ext c
  = (Ok tt, (compute_observation Demo.cfg Demo.ext c).2).
Proof.
  vm_compute. split; [lia|]. split; [repeat constructor | reflexivity].
Qed.

Lemma history_slides_witness :
  let c := (compute_observation Demo.cfg Demo.ext Demo.at_start).2 in
  actions_queue (history (compute_observation Demo.cfg Demo.ext c).2)
  = drop 1 (actions_queue (history c)) ++ [last_actions c].
Proof.
  exact (proj1 (proj2 (proj2 (proj2 (proj2
           (history_slides Demo.cfg Demo.ext _ _
              (proj1 demo_second_observation)
              (proj1 (proj2 demo_second_observation))
              (proj2 (proj2 demo_second_observation)))))))).
Defined.

(** ** Where standing up ends *)

(** While the controller is in STAND mode, the command holds for every
    joint its default angle times one percentage below 1: zero at the
    start, and afterwards the stand percentage that the last writing tick
    has tested to be below 1 *)
Lemma stand_command_invariant cfg ext c :
  reachable cfg ext c → mode c = STAND →
  ∃ p, (p < 1)%Q ∧
       ∀ j name target pos,
         joint_names cfg !! j = Some name →
         default_joint_angle cfg !! name = Some target →
         RobotCmd.q (robot_cmd c) !! toPhysical j = Some pos →
         (pos == target * p)%Q.
Proof.
  intros (c1 & Hstart & Hrtc).
  revert c Hrtc.
  refine (rtc_ind_r _ c1 _ _); [|intros c c' Hrtc Hstep IH]; intros Hm.
  - exists 0%Q. split; [reflexivity|].
    intros j name target pos _ _ Hpos.
    destruct Hstart as (imu0 & c0 & Hinit & Hrun).
    assert (K : keeps robot_cmd (run_init cfg)) by solve_keeps.
    rewrite (K _ _ _ Hrun) in Hpos.
    apply init_Ok in Hinit as (angles & quat & _ & ->).
    cbn [robot_cmd RobotCmd.q] in Hpos.
    apply lookup_replicate in Hpos as [-> _]. ring.
  - assert (Hreach : reachable cfg ext c) by (exists c1; split; assumption).
    destruct callbacks_keep_loop_state as (Ks & Ki & Kj).
    destruct Hstep as [c cmd c' Hu | msg c r c' H | msg c r c' H | msg c r c' H].
    + destruct (mode c) eqn:Hmc.
      * destruct (Qlt_le_dec (stand_percent c) 1) as [Hlt|Hle].
        -- destruct (stand_tick_values _ _ _ _ _ Hreach Hmc Hlt Hu)
             as (_ & _ & Hval).
           exists (stand_percent c). split; [exact Hlt|].
           intros j name target pos Hname Htarget Hpos.
           rewrite <- (update_returns_cmd _ _ _ _ _ Hu) in Hpos.
           rewrite (Hval j name target Hname Htarget) in Hpos.
           injection Hpos as <-. ring.
        -- rewrite (update_stood_up cfg ext c Hmc Hle) in Hu.
           injection Hu as _ <-. discriminate Hm.
      * pose proof (update_keeps_WALK _ _ _ _ _ Hmc Hu). congruence.
    + pose proof (Ks _ _ _ _ H) as E. unfold loop_state in E.
      injection E as Ecmd _ _ _ _ _ _ _ _ Emode.
      rewrite Ecmd. apply IH. congruence.
    + pose proof (Ki _ _ _ _ H) as E. unfold loop_state in E.
      injection E as Ecmd _ _ _ _ _ _ _ _ Emode.
      rewrite Ecmd. apply IH. congruence.
    + pose proof (Kj _ _ _ _ H) as E. unfold loop_state in E.
      injection E as Ecmd _ _ _ _ _ _ _ _ Emode.
      rewrite Ecmd. apply IH. congruence.
Qed.

(** STAND never commands the default pose itself.  Every command that a
    tick in STAND mode publishes holds, for every joint, its default angle
    times one percentage that is below 1: a tick that finds the stand
    percentage below 1 writes the interpolation at this percentage, and
    the tick that finds it at 1 or above writes no position, publishes the
    command of the tick before and only switches to WALK.  This rests on
    the comparison with 1 alone, not on how the increments add up. *)
Theorem stand_command_below_full cfg ext c cmd c' :
  reachable cfg ext c → mode c = STAND →
  update cfg ext c = (Ok cmd, c') →
  ((1 <= stand_percent c)%Q → cmd = robot_cmd c ∧ mode c' = WALK) ∧
  ∃ p, (p < 1)%Q ∧
       ∀ j name target pos,
         joint_names cfg !! j = Some name →
         default_joint_angle cfg !! name = Some target →
         RobotCmd.q cmd !! toPhysical j = Some pos →
         (pos == target * p)%Q.
Proof.
  intros Hreach Hm Hu.
  destruct (Qlt_le_dec (stand_percent c) 1) as [Hlt|Hle].
  - split; [intros Hle; apply Qle_not_lt in Hle; contradiction|].
    destruct (stand_tick_values _ _ _ _ _ Hreach Hm Hlt Hu) as (_ & _ & Hval).
    exists (stand_percent c). split; [exact Hlt|].
    intros j name target pos Hname Htarget Hpos.
    rewrite (Hval j name target Hname Htarget) in Hpos.
    injection Hpos as <-. ring.
  - rewrite (update_stood_up cfg ext c Hm Hle) in Hu.
    injection Hu as <- <-.
    split; [intros _; split; reflexivity|].
    apply (stand_command_invariant cfg ext c Hreach Hm).
Qed.

Lemma demo_switching_tick :
  let c := (play Demo.quick Demo.ext [Tick] Demo.quick_start).2 in
  play Demo.quick Demo.ext [Tick] Demo.quick_start = (Ok tt, c) ∧
  mode c = STAND ∧
  update Demo.quick Demo.ext c
  = (Ok (robot_cmd (update Demo.quick Demo.ext c).2),
     (update Demo.quick Demo.ext c).2) ∧
  (1 <= stand_percent c)%Q.
Proof. vm_compute. repeat split; try reflexivity. discriminate. Qed.

Lemma stand_command_below_full_witness :
  ((1 <= stand_percent (play Demo.quick Demo.ext [Tick] Demo.quick_start).2)%Q →
   robot_cmd (update Demo.quick Demo.ext
                (play Demo.quick Demo.ext [Tick] Demo.quick_start).2).2
   = robot_cmd (play Demo.quick Demo.ext [Tick] Demo.quick_start).2 ∧
   mode (update Demo.quick Demo.ext
           (play Demo.quick Demo.ext [Tick] Demo.quick_start).2).2 = WALK) ∧
  ∃ p, (p < 1)%Q ∧
       ∀ j name target pos,
         joint_names Demo.quick !! j = Some name →
         default_joint_angle Demo.quick !! name = Some target →
         RobotCmd.q (robot_cmd (update Demo.quick Demo.ext
                       (play Demo.quick Demo.ext [Tick]
                          Demo.quick_start).2).2) !! toPhysical j
         = Some pos →
         (pos == target * p)%Q.
Proof.
  exact (stand_command_below_full Demo.quick Demo.ext _ _ _
           (demo_play_reachable [Tick] (proj1 demo_switching_tick))
           (proj1 (proj2 demo_switching_tick))
           (proj1 (proj2 (proj2 demo_switching_tick)))).
Defined.

(** ** Clamping twice *)

Lemma Qle_bool_refl x : Qle_bool x x = true.
Proof. apply Qle_bool_iff, Qle_refl. Qed.

(** The torque clamp of the loop over the joints is idempotent, whatever
    the bounds are: clamping an action that was clamped at the same q, q0
    and dq returns it as it is.  A tick that reuses the stored actions on
    an unchanged sensor state therefore leaves them as they are. *)
Theorem clamp_action_idempotent cfg q q0 dq a :
  clamp_action cfg q q0 dq (clamp_action cfg q q0 dq a)
  = clamp_action cfg q q0 dq a.
Proof.
  unfold clamp_action, py_max, py_min.
  set (lo := (action_min cfg q q0 dq / action_scale_pos cfg)%Q).
  set (hi := (action_max cfg q q0 dq / action_scale_pos cfg)%Q).
  destruct (Qle_bool hi a) eqn:E1.
  - destruct (Qle_bool hi lo) eqn:E2.
    + rewrite E2, E2. reflexivity.
    + rewrite Qle_bool_refl, E2. reflexivity.
  - destruct (Qle_bool a lo) eqn:E2.
    + destruct (Qle_bool hi lo) eqn:E3.
      * rewrite E3. reflexivity.
      * rewrite Qle_bool_refl. reflexivity.
    + rewrite E1, E2. reflexivity.
Qed.
